(** * NYC taxi data analysis: sorting and connectivity benchmarks

    A shallow embedding of [tasks/task2.py] (four sorting algorithms, the
    timing harness and the benchmark driver) and of [tasks/task3.py] (the trip
    graph builder and the connected-component searches), with the properties
    of the natural-language specification stated and settled on them.  The
    readers of the three modules, the statistics of [tasks/task1.py] and the
    comparison of the component searches follow, with further properties
    read off the code.

    Conventions.
    - A trip record is a Python tuple of numbers; it is modelled as a list of
      integers.  The specification asks for keys that are totally ordered
      scalars, so every numeric field is an element of [Z] (a float that is
      not a number is outside the model).
    - Python lists are Rocq lists in the same order: [l !! i] is [l[i]],
      [<[i:=x]> l] is [l[i] = x], [take]/[drop] are the slices [l[:i]] and
      [l[i:]].
    - Python dictionaries whose iteration order matters are association
      lists in insertion order; sets are [gset].
    - A file is given by the lines (or the rows) that iterating over it
      yields.  Built-in conversions ([int], [float], [strptime]) are
      parameters of the functions that call them. *)

From Equations Require Import Equations.
From Equations.Prop Require Import Logic Subterm.
From stdpp Require Import gmap strings list sorting.
From Stdlib Require Import ZArith QArith.

#[local] Set Warnings "-clear-no-such-hyp".
Local Close Scope Q_scope.
Local Open Scope Z_scope.

(** ** Trip records *)

(** A trip record as produced by [parse_trip] or [read_data]. *)
Abbreviation Trip := (list Z).

(** [r[key_index]] for a record that has such a field. *)
Definition item (key_index : nat) (r : Trip) : Z := r !!! key_index.

(** Python's [a < b] on tuples: the first position where the two differ
    decides; a proper prefix is smaller. *)
Fixpoint tuple_lt (a b : Trip) : bool :=
  match a, b with
  | [], [] => false
  | [], _ :: _ => true
  | _ :: _, [] => false
  | x :: a', y :: b' => if decide (x = y) then tuple_lt a' b' else bool_decide (x < y)
  end.

(** ** task2.py: sorting by a key *)

Section Sorting.
Context {A : Type}.
(** The key selector: [data[j][key_index]] in [bubble_sort] and
    [merge_sort], [key_func(x)] in [quicksort]. *)
Variable key : A → Z.

(** One iteration of the inner loop of [bubble_sort]:
    [if data[j][k] > data[j + 1][k]: data[j], data[j + 1] = data[j + 1], data[j]].
    The indices are always in range ([j + 1 < n]). *)
Definition bubble_step (data : list A) (j : nat) : list A :=
  match data !! j, data !! S j with
  | Some a, Some b =>
      if bool_decide (key a > key b) then <[S j := a]> (<[j := b]> data) else data
  | _, _ => data
  end.

(** [for j in range(0, n - i - 1): ...] *)
Definition bubble_pass (n : nat) (data : list A) (i : nat) : list A :=
  foldl bubble_step data (seq 0 (n - i - 1)).

(** [bubble_sort(data, key_index)]: works on a copy [data[:]]. *)
Definition bubble_sort (data : list A) : list A :=
  let n := length data in
  foldl (bubble_pass n) data (seq 0 n).

(** The merge loop of [merge_sort]:
    [while len(left_half) > 0 and len(right_half) > 0:] take the head of
    the left half when its key is strictly smaller, else the head of the
    right half; then [data.extend(left_half); data.extend(right_half)]. *)
Fixpoint merge (left_half right_half : list A) : list A :=
  let fix merge_right (right_half : list A) : list A :=
    match left_half, right_half with
    | x :: left_rest, y :: right_rest =>
        if bool_decide (key x < key y) then x :: merge left_rest right_half
        else y :: merge_right right_rest
    | _, _ => left_half ++ right_half
    end in
  merge_right right_half.

(** [merge_sort(data, key_index)]. *)
Equations? merge_sort (data : list A) : list A by wf (length data) lt :=
  merge_sort [] := [];
  merge_sort [x] := [x];
  merge_sort data :=
    let mid := (length data / 2)%nat in
    merge (merge_sort (take mid data)) (merge_sort (drop mid data)).
Proof.
  all: subst mid data; rewrite ?length_take, ?length_drop; simpl length;
    pose proof (Nat.div_lt (S (S (length l))) 2);
    pose proof (Nat.div_le_lower_bound (S (S (length l))) 2 1); lia.
Qed.

(** [quicksort(data, key_func)]: the pivot is the first element. *)
Equations? quicksort (data : list A) : list A by wf (length data) lt :=
  quicksort [] := [];
  quicksort [x] := [x];
  quicksort (pivot :: rest) :=
    quicksort (filter (λ x, key x ≤ key pivot) rest)
      ++ [pivot]
      ++ quicksort (filter (λ x, key x > key pivot) rest).
Proof.
  all: match goal with |- (length (filter ?P ?l) < _)%nat =>
         pose proof (length_filter P l) end; simpl in *; lia.
Qed.
End Sorting.

(** ** Exceptions *)

(** The exceptions the modelled code can raise. *)
Inductive exn := IndexError | NetworkXError | OtherError (tag : nat).

(** The outcome of a call: a returned value or a raised exception. *)
Inductive outcome (T : Type) :=
| Return (v : T)
| Raise (e : exn).
Arguments Return {T} v.
Arguments Raise {T} e.

Definition outcome_bind {T U : Type} (o : outcome T) (k : T → outcome U) : outcome U :=
  match o with
  | Return v => k v
  | Raise e => Raise e
  end.

(** ** heapq: the binary heap of Python's standard library

    [heapsort] relies on [heapq.heappush] and [heapq.heappop]; they are
    embedded from [Lib/heapq.py].  The heap is a Python list; [lt] is [<] on
    its items. *)

Section Heapq.
Context {A : Type}.
Variable lt : A → A → bool.

(** The loop of [_siftdown(heap, startpos, pos)]:
    [while pos > startpos: parentpos = (pos - 1) >> 1; parent = heap[parentpos];
     if newitem < parent: heap[pos] = parent; pos = parentpos; continue
     break]
    followed by [heap[pos] = newitem]. *)
Equations? siftdown_loop (heap : list A) (startpos : nat) (newitem : A) (pos : nat)
    : list A by wf pos Nat.lt :=
  siftdown_loop heap startpos newitem pos with decide (startpos < pos)%nat := {
    | right _ := <[pos := newitem]> heap
    | left _ with heap !! ((pos - 1) / 2)%nat := {
        | None := heap
        | Some parent with lt newitem parent := {
            | true := siftdown_loop (<[pos := parent]> heap) startpos newitem
                        ((pos - 1) / 2)%nat
            | false := <[pos := newitem]> heap } } }.
Proof.
  assert (Hlt : ((pos - 1) / 2 < pos)%nat); [|exact Hlt].
  pose proof (Nat.div_mod_eq (pos - 1) 2).
  pose proof (Nat.mod_upper_bound (pos - 1) 2). lia.
Qed.

(** [_siftdown(heap, startpos, pos)]: [newitem = heap[pos]], then the loop. *)
Definition siftdown (heap : list A) (startpos pos : nat) : list A :=
  match heap !! pos with
  | Some newitem => siftdown_loop heap startpos newitem pos
  | None => heap
  end.

(** [heappush(heap, item)]: [heap.append(item); _siftdown(heap, 0, len(heap) - 1)]. *)
Definition heappush (heap : list A) (item : A) : list A :=
  let heap := heap ++ [item] in
  siftdown heap 0 (length heap - 1).

(** The child chosen in the loop of [_siftup]:
    [rightpos = childpos + 1;
     if rightpos < endpos and not heap[childpos] < heap[rightpos]: childpos = rightpos]. *)
Definition smaller_child (endpos : nat) (heap : list A) (childpos : nat) : nat :=
  let rightpos := (childpos + 1)%nat in
  if bool_decide (rightpos < endpos)%nat then
    match heap !! childpos, heap !! rightpos with
    | Some l, Some r => if lt l r then childpos else rightpos
    | _, _ => childpos
    end
  else childpos.

(** The loop of [_siftup(heap, pos)]:
    [while childpos < endpos: (choose the smaller child);
     heap[pos] = heap[childpos]; pos = childpos; childpos = 2*pos + 1].
    It returns the heap and the final [pos]. *)
Equations? siftup_loop (endpos : nat) (heap : list A) (pos : nat)
    : list A * nat by wf (endpos - pos)%nat Nat.lt :=
  siftup_loop endpos heap pos with decide (2 * pos + 1 < endpos)%nat := {
    | right _ := (heap, pos)
    | left _ with heap !! smaller_child endpos heap (2 * pos + 1) := {
        | None := (heap, pos)
        | Some child :=
            siftup_loop endpos (<[pos := child]> heap)
              (smaller_child endpos heap (2 * pos + 1)) } }.
Proof.
  unfold smaller_child. repeat case_match; lia.
Qed.

(** [_siftup(heap, pos)]: [endpos = len(heap); startpos = pos;
    newitem = heap[pos]], the loop, then [heap[pos] = newitem;
    _siftdown(heap, startpos, pos)]. *)
Definition siftup (heap : list A) (pos : nat) : list A :=
  match heap !! pos with
  | Some newitem =>
      let '(heap', pos') := siftup_loop (length heap) heap pos in
      siftdown (<[pos' := newitem]> heap') pos pos'
  | None => heap
  end.

(** [heap.pop()]: the last item and the list without it; [IndexError] on
    the empty list. *)
Definition list_pop (l : list A) : outcome (A * list A) :=
  match last l with
  | Some x => Return (x, removelast l)
  | None => Raise IndexError
  end.

(** [heappop(heap)]:
    [lastelt = heap.pop()
     if heap: returnitem = heap[0]; heap[0] = lastelt; _siftup(heap, 0); return returnitem
     return lastelt].
    The result is the returned item and the heap afterwards. *)
Definition heappop (heap : list A) : outcome (A * list A) :=
  outcome_bind (list_pop heap) (λ '(lastelt, heap),
    match heap with
    | returnitem :: _ => Return (returnitem, siftup (<[0%nat := lastelt]> heap) 0)
    | [] => Return (lastelt, [])
    end).

(** [[heapq.heappop(heap) for _ in range(n)]]. *)
Fixpoint heappop_all (n : nat) (heap : list A) : outcome (list A) :=
  match n with
  | O => Return []
  | S n' =>
      outcome_bind (heappop heap) (λ '(x, heap),
        outcome_bind (heappop_all n' heap) (λ rest, Return (x :: rest)))
  end.

(** The body of [heapsort]: push every value on an empty heap, then pop
    [len(heap)] times. *)
Definition heapsort_with (data : list A) : outcome (list A) :=
  let heap := foldl heappush [] data in
  heappop_all (length heap) heap.
End Heapq.

(** [heapsort(data, key_func)]: the items are compared by the tuples' own
    [<]; [key_func] is accepted and not used. *)
Definition heapsort (data : list Trip) (key_func : Trip → Z) : outcome (list Trip) :=
  heapsort_with tuple_lt data.

(** ** task2.py: the timing harness and the benchmark driver *)

(** The part of the environment the harness touches: the wall clock read by
    [time.time()] (reading number [i] is [readings i]; [reads] counts the
    readings taken so far) and a counter of the algorithm invocations made. *)
Record World := {
  readings : nat → Q;
  reads : nat;
  invocations : nat
}.

(** A computation that reads or changes the environment and may raise. *)
Definition M (T : Type) : Type := World → outcome (T * World).

Definition ret {T : Type} (v : T) : M T := λ w, Return (v, w).

Definition bind {T U : Type} (c : M T) (k : T → M U) : M U :=
  λ w, outcome_bind (c w) (λ '(v, w'), k v w').

Notation "'let*' x := c 'in' k" := (bind c (λ x, k))
  (at level 10, x pattern, c at level 100, k at level 200, only parsing).

(** [time.time()]. *)
Definition time_time : M Q :=
  λ w, Return (readings w (reads w),
               {| readings := readings w; reads := S (reads w);
                  invocations := invocations w |}).

(** The call [algorithm(data, key_func)] of a function without effects of
    its own: it is counted, and its exception, if any, is raised. *)
Definition call {D K R : Type} (algorithm : D → K → outcome R) (data : D) (key_func : K)
    : M R :=
  λ w, outcome_bind (algorithm data key_func) (λ v,
         Return (v, {| readings := readings w; reads := reads w;
                       invocations := S (invocations w) |})).

(** [time_sorting_algorithm(algorithm, data, key_func)]. *)
Definition time_sorting_algorithm {D K R : Type}
    (algorithm : D → K → outcome R) (data : D) (key_func : K) : M (Q * R) :=
  let* start_time := time_time in
  let* sorted_data := call algorithm data key_func in
  let* end_time := time_time in
  ret ((end_time - start_time)%Q, sorted_data).

(** [quicksort] as a callable of [data] and [key_func]. *)
Definition quicksort_alg (data : list Trip) (key_func : Trip → Z) : outcome (list Trip) :=
  Return (quicksort key_func data).

(** The variables bound by the quicksort and heapsort measurements of the
    module. *)
Record Measurements := {
  qs_time_small : Q;  qs_sorted_small : list Trip;
  hs_time_small : Q;  hs_sorted_small : list Trip;
  qs_time_medium : Q; qs_sorted_medium : list Trip;
  hs_time_medium : Q; hs_sorted_medium : list Trip;
  qs_time_large : Q;  qs_sorted_large : list Trip;
  hs_time_large : Q;  hs_sorted_large : list Trip
}.

(** The module-level measurements of quicksort and heapsort on the three
    datasets, with [key_func=lambda x: x[3]], in source order. *)
Definition measure_quick_and_heap (trips_small trips_medium trips_large : list Trip)
    : M Measurements :=
  let* (qs_t_s, qs_s) := time_sorting_algorithm quicksort_alg trips_small (item 3) in
  let* (hs_t_s, hs_s) := time_sorting_algorithm heapsort trips_small (item 3) in
  let* (qs_t_m, qs_m) := time_sorting_algorithm quicksort_alg trips_medium (item 3) in
  let* (hs_t_m, hs_m) := time_sorting_algorithm heapsort trips_small (item 3) in
  let* (qs_t_l, qs_l) := time_sorting_algorithm quicksort_alg trips_large (item 3) in
  let* (hs_t_l, hs_l) := time_sorting_algorithm heapsort trips_small (item 3) in
  ret {| qs_time_small := qs_t_s;  qs_sorted_small := qs_s;
         hs_time_small := hs_t_s;  hs_sorted_small := hs_s;
         qs_time_medium := qs_t_m; qs_sorted_medium := qs_m;
         hs_time_medium := hs_t_m; hs_sorted_medium := hs_m;
         qs_time_large := qs_t_l;  qs_sorted_large := qs_l;
         hs_time_large := hs_t_l;  hs_sorted_large := hs_l |}.

(** ** task3.py: the trip graph

    [networkx.Graph] is an external library; the graph object is modelled by
    the two dictionaries the library keeps: the nodes with their attributes
    and the symmetric adjacency [_adj], where [_adj[u][v]] is the attribute
    dictionary of the edge, here its ["weight"]. *)

Record Graph := {
  node_order : list Z;       (** the keys of [_node], in insertion order *)
  node_name : gmap Z string; (** the ["name"] attribute of the nodes that have one *)
  adj : gmap Z (gmap Z Z)    (** [_adj]: node, neighbour, weight of the edge *)
}.

(** [nx.Graph()]. *)
Definition empty_graph : Graph :=
  {| node_order := []; node_name := ∅; adj := ∅ |}.

(** [graph.add_node(n, name=zone_name)]. *)
Definition add_node (n : Z) (zone_name : string) (g : Graph) : Graph :=
  match adj g !! n with
  | None => {| node_order := node_order g ++ [n];
               node_name := <[n := zone_name]> (node_name g);
               adj := <[n := ∅]> (adj g) |}
  | Some _ => {| node_order := node_order g;
                 node_name := <[n := zone_name]> (node_name g);
                 adj := adj g |}
  end.

(** The first step of [add_edge] for each endpoint:
    [if u not in self._node: self._adj[u] = {}; self._node[u] = {}]. *)
Definition touch_node (n : Z) (g : Graph) : Graph :=
  match adj g !! n with
  | None => {| node_order := node_order g ++ [n];
               node_name := node_name g;
               adj := <[n := ∅]> (adj g) |}
  | Some _ => g
  end.

(** [graph.add_edge(u, v, weight=count)]: both endpoints become nodes, then
    [_adj[u][v]] and [_adj[v][u]] carry the given weight, replacing the
    weight of an edge that is already there. *)
Definition add_edge (u v : Z) (count : Z) (g : Graph) : Graph :=
  let g := touch_node v (touch_node u g) in
  {| node_order := node_order g;
     node_name := node_name g;
     adj := alter (<[u := count]>) v (alter (<[v := count]>) u (adj g)) |}.

(** Python truthiness of a location id that may be [None]. *)
Definition truthy (x : option Z) : bool :=
  match x with
  | Some n => bool_decide (n ≠ 0)
  | None => false
  end.

(** [trip_counts[k] += 1] on a [defaultdict(int)]; the dictionary is kept
    in insertion order. *)
Fixpoint count_trip (trip_counts : list ((Z * Z) * Z)) (k : Z * Z) : list ((Z * Z) * Z) :=
  match trip_counts with
  | [] => [(k, 1)]
  | (k', c) :: rest =>
      if decide (k' = k) then (k', c + 1) :: rest else (k', c) :: count_trip rest k
  end.

(** [for pickup, dropoff in taxi_data: if pickup and dropoff: trip_counts[(pickup, dropoff)] += 1]. *)
Definition count_trips (taxi_data : list (option Z * option Z)) : list ((Z * Z) * Z) :=
  foldl (λ trip_counts '(pickup, dropoff),
           match pickup, dropoff with
           | Some p, Some d =>
               if truthy pickup && truthy dropoff then count_trip trip_counts (p, d)
               else trip_counts
           | _, _ => trip_counts
           end) [] taxi_data.

(** [build_graph(taxi_data, taxi_zone_lookup)]; the lookup dictionary is
    given by its items. *)
Definition build_graph (taxi_data : list (option Z * option Z))
    (taxi_zone_lookup : list (Z * string)) : Graph :=
  let graph := foldl (λ g '(zone_id, zone_name), add_node zone_id zone_name g)
                 empty_graph taxi_zone_lookup in
  let trip_counts := count_trips taxi_data in
  foldl (λ g '((pickup, dropoff), count), add_edge pickup dropoff count g)
    graph trip_counts.

(** The weight of the edge between [u] and [v], if there is one. *)
Definition edge_weight (g : Graph) (u v : Z) : option Z :=
  adj g !! u ≫= λ nbrs, nbrs !! v.

(** The neighbours of a node (empty for a node that is not in the graph). *)
Definition neighbors (g : Graph) (u : Z) : gset Z :=
  match adj g !! u with
  | Some nbrs => dom nbrs
  | None => ∅
  end.

(** ** task3.py: connected components *)

(** [nx.connected_components] is library code; it is modelled by what it
    documents: for each node not seen so far, in node order, the set of the
    nodes that can be reached from it.  That set is computed as a closure:
    start from the node and add the neighbours of the set, as many times as
    the graph has nodes. *)
Definition expand (g : Graph) (X : gset Z) : gset Z :=
  X ∪ set_bind (neighbors g) X.

Definition node_connected_component (g : Graph) (v : Z) : gset Z :=
  Nat.iter (length (node_order g)) (expand g) {[v]}.

Fixpoint connected_components_from (g : Graph) (nodes : list Z) (seen : gset Z)
    : list (gset Z) :=
  match nodes with
  | [] => []
  | v :: rest =>
      if decide (v ∈ seen) then connected_components_from g rest seen
      else
        let c := node_connected_component g v in
        c :: connected_components_from g rest (seen ∪ c)
  end.

(** [find_connected_components_networkx(graph)]. *)
Definition find_connected_components_networkx (g : Graph) : list (gset Z) :=
  connected_components_from g (node_order g) ∅.

(** The two ways in which the loops below make progress: the work list
    gets shorter, or one more node of the graph is visited. *)
Lemma removelast_shorter (stack : list Z) (current : Z) :
  last stack = Some current → Nat.lt (length (removelast stack)) (length stack).
Proof.
  intros Hlast. apply last_Some in Hlast as [l' Heq]. subst stack.
  rewrite removelast_last, length_app. simpl. unfold Nat.lt. lia.
Qed.

Lemma visit_fewer_left (g : Graph) (visited : gset Z) (current : Z) (nbrs : gmap Z Z) :
  current ∉ visited → adj g !! current = Some nbrs →
  Nat.lt (size (dom (adj g) ∖ ({[current]} ∪ visited))) (size (dom (adj g) ∖ visited)).
Proof.
  intros Hnot Hadj. apply subset_size. apply elem_of_dom_2 in Hadj. set_solver.
Qed.

Section Search.
(** A scrutinee kept together with its equation, for the definitions by
    well-founded recursion below. *)
Local Notation "x 'eqn:' p" := (exist _ x p) (only parsing, at level 20).

(** The order in which Python iterates over a set of integers is not
    specified; [set_order X] is the order in which the elements of [X] are
    pushed by [extend]. *)
Variable set_order : gset Z → list Z.

(** The loop of the inner function [dfs]:
    [while stack: current = stack.pop()
       if current not in visited:
         visited.add(current); component.append(current)
         stack.extend(set(graph.neighbors(current)) - visited)].
    [graph.neighbors] raises for a node that is not in the graph.  The
    result is the component and the shared [visited] set. *)
Equations? dfs_loop (g : Graph) (visited : gset Z) (stack component : list Z)
    : outcome (list Z * gset Z)
    by wf (size (dom (adj g) ∖ visited), length stack) (lexprod nat nat Nat.lt Nat.lt) :=
  dfs_loop g visited stack component with inspect (last stack) := {
    | None eqn: _ := Return (component, visited)
    | Some current eqn: Hlast with decide (current ∈ visited) := {
        | left _ := dfs_loop g visited (removelast stack) component
        | right _ with inspect (adj g !! current) := {
            | None eqn: _ := Raise NetworkXError
            | Some nbrs eqn: Hadj :=
                let visited := {[current]} ∪ visited in
                dfs_loop g visited
                  (removelast stack ++ set_order (dom nbrs ∖ visited))
                  (component ++ [current]) } } }.
Proof.
  - right. exact (removelast_shorter _ _ Hlast).
  - left. exact (visit_fewer_left _ _ _ _ n Hadj).
Defined.

(** [dfs(node)]: [stack = [node]; component = []], then the loop. *)
Definition dfs (g : Graph) (visited : gset Z) (node : Z) : outcome (list Z * gset Z) :=
  dfs_loop g visited [node] [].

(** [for node in graph.nodes: if node not in visited: components.append(dfs(node))]. *)
Fixpoint dfs_components (g : Graph) (nodes : list Z) (visited : gset Z)
    (components : list (list Z)) : outcome (list (list Z)) :=
  match nodes with
  | [] => Return components
  | node :: rest =>
      if decide (node ∈ visited) then dfs_components g rest visited components
      else
        outcome_bind (dfs g visited node) (λ '(component, visited),
          dfs_components g rest visited (components ++ [component]))
  end.

(** [find_connected_components_dfs(graph)]. *)
Definition find_connected_components_dfs (g : Graph) : outcome (list (list Z)) :=
  dfs_components g (node_order g) ∅ [].

(** The loop of the inner function [bfs]: as in [dfs], with
    [current = queue.popleft()] on a [deque]. *)
Equations? bfs_loop (g : Graph) (visited : gset Z) (queue component : list Z)
    : outcome (list Z * gset Z)
    by wf (size (dom (adj g) ∖ visited), length queue) (lexprod nat nat Nat.lt Nat.lt) :=
  bfs_loop g visited [] component := Return (component, visited);
  bfs_loop g visited (current :: queue) component with decide (current ∈ visited) := {
    | left _ := bfs_loop g visited queue component
    | right _ with inspect (adj g !! current) := {
        | None eqn: _ := Raise NetworkXError
        | Some nbrs eqn: Hadj :=
            let visited := {[current]} ∪ visited in
            bfs_loop g visited (queue ++ set_order (dom nbrs ∖ visited))
              (component ++ [current]) } }.
Proof.
  - right. exact (Nat.lt_succ_diag_r _).
  - left. exact (visit_fewer_left _ _ _ _ n Hadj).
Defined.

(** [bfs(node)]: [queue = deque([node]); component = []], then the loop. *)
Definition bfs (g : Graph) (visited : gset Z) (node : Z) : outcome (list Z * gset Z) :=
  bfs_loop g visited [node] [].

Fixpoint bfs_components (g : Graph) (nodes : list Z) (visited : gset Z)
    (components : list (list Z)) : outcome (list (list Z)) :=
  match nodes with
  | [] => Return components
  | node :: rest =>
      if decide (node ∈ visited) then bfs_components g rest visited components
      else
        outcome_bind (bfs g visited node) (λ '(component, visited),
          bfs_components g rest visited (components ++ [component]))
  end.

(** [find_connected_components_bfs(graph)]. *)
Definition find_connected_components_bfs (g : Graph) : outcome (list (list Z)) :=
  bfs_components g (node_order g) ∅ [].
End Search.

(** ** The properties of the specification *)

(** For all adjacent positions, the key of the left element is at most the
    key of the right one. *)
Definition ordered_by {A : Type} (key : A → Z) (l : list A) : Prop :=
  ∀ (i : nat) (a b : A), l !! i = Some a → l !! S i = Some b → key a ≤ key b.

(** Elements with equal keys come in the output in the order they have in
    the input: for each key value, the elements carrying it form the same
    sequence. *)
Definition stable_by {A : Type} (key : A → Z) (input output : list A) : Prop :=
  ∀ v : Z, filter (λ x, key x = v) output = filter (λ x, key x = v) input.

(** The order on the elements induced by the key. *)
Definition key_le {A : Type} (key : A → Z) (a b : A) : Prop := key a ≤ key b.

(** The effect of one pass of [bubble_sort] on the block it touches: the
    first element is carried to the right as long as it is strictly greater. *)
Fixpoint bubble {A : Type} (key : A → Z) (x : A) (l : list A) : list A :=
  match l with
  | [] => [x]
  | y :: l' =>
      if bool_decide (key x > key y) then y :: bubble key x l' else x :: bubble key y l'
  end.

(** *** Heaps *)

Section HeapOrder.
Context {A : Type}.
Variable lt : A → A → bool.

(** [a <= b] read as [not (b < a)], the only comparison the heap makes. *)
Definition le_of (a b : A) : Prop := lt b a = false.

(** [parentpos = (pos - 1) >> 1]. *)
Definition parentpos (i : nat) : nat := ((i - 1) / 2)%nat.

(** The item at position [i] is not below its parent. *)
Definition heap_at (h : list A) (i : nat) : Prop :=
  ∀ x p, (0 < i)%nat → h !! i = Some x → h !! parentpos i = Some p → le_of p x.

(** The heap invariant of [heapq]: [heap[k] <= heap[2*k+1]] and
    [heap[k] <= heap[2*k+2]] for all [k]. *)
Definition is_heap (h : list A) : Prop := ∀ i, heap_at h i.

(** The invariant of the two sifting loops: the heap order holds wherever
    position [pos] is not involved, and the children of [pos] are not
    below its parent. *)
Definition hole_inv (h : list A) (pos : nat) : Prop :=
  (∀ i, i ≠ pos → parentpos i ≠ pos → heap_at h i) ∧
  (∀ c x g, (0 < pos)%nat → (0 < c)%nat → parentpos c = pos →
            h !! c = Some x → h !! parentpos pos = Some g → le_of g x).

(** No child of [pos] is below [newitem]. *)
Definition above_children (h : list A) (pos : nat) (newitem : A) : Prop :=
  ∀ c x, (0 < c)%nat → parentpos c = pos → h !! c = Some x → le_of newitem x.
End HeapOrder.

(** The tuples' own order and the lists sorted by it. *)
Definition tuple_le (a b : Trip) : Prop := tuple_lt b a = false.

Definition ordered_tuples (l : list Trip) : Prop :=
  ∀ (i : nat) (a b : Trip), l !! i = Some a → l !! S i = Some b → tuple_le a b.

(** *** The harness *)

(** The time the harness reports in world [w]: the difference of the two
    clock readings it takes. *)
Definition elapsed (w : World) : Q :=
  (readings w (S (reads w)) - readings w (reads w))%Q.

(** The world after a run that returns. *)
Definition after_run (w : World) : World :=
  {| readings := readings w; reads := S (S (reads w));
     invocations := S (invocations w) |}.

(** *** Graphs and components *)

(** [v] is a neighbour of [u]. *)
Definition edge (g : Graph) (u v : Z) : Prop := v ∈ neighbors g u.

(** A path of edges leads from [u] to [v]. *)
Definition connected (g : Graph) : relation Z := rtc (edge g).

(** No edge leaves the set. *)
Definition closed (g : Graph) (X : gset Z) : Prop :=
  ∀ u v, u ∈ X → edge g u v → v ∈ X.

(** What networkx maintains on every graph: the nodes are listed once, they
    are the keys of the adjacency, and the adjacency is symmetric. *)
Definition graph_wf (g : Graph) : Prop :=
  NoDup (node_order g) ∧
  list_to_set (node_order g) = dom (adj g) ∧
  map_Forall (λ u nbrs, set_Forall (λ v, u ∈ neighbors g v) (dom nbrs)) (adj g).

#[global] Instance graph_wf_dec (g : Graph) : Decision (graph_wf g).
Proof. unfold graph_wf. apply _. Defined.

(** The components, as a family of sets, that the specification asks of
    every algorithm: the sets of the nodes connected to each node. *)
Definition component_classes (g : Graph) : gset (gset Z) :=
  list_to_set (node_connected_component g <$> node_order g).

(** The family of sets given by a list of components. *)
Definition component_family (components : list (list Z)) : gset (gset Z) :=
  list_to_set (list_to_set <$> components).

(** A list of components partitions the nodes into the classes of
    connected nodes: no node occurs twice in the list of all its elements,
    the elements are the nodes, and each component holds exactly the nodes
    connected to one node. *)
Definition partitions_nodes (g : Graph) (components : list (list Z)) : Prop :=
  NoDup (concat components) ∧
  (∀ x, x ∈ concat components ↔ x ∈ node_order g) ∧
  (∀ c, c ∈ components → ∃ r, r ∈ node_order g ∧ ∀ x, x ∈ c ↔ connected g r x).

(** The invariant of the loops of [dfs] and [bfs], for a search started at
    [root] when [visited0] had been visited. *)
Record search_inv (g : Graph) (visited0 : gset Z) (root : Z)
    (visited : gset Z) (work component : list Z) : Prop := {
  inv_root_node : is_Some (adj g !! root);
  inv_root_fresh : root ∉ visited0;
  inv_visited : visited = visited0 ∪ list_to_set component;
  inv_nodup : NoDup component;
  inv_fresh : ∀ x, x ∈ component → x ∉ visited0;
  inv_reach_comp : ∀ x, x ∈ component → connected g root x;
  inv_reach_work : ∀ x, x ∈ work → connected g root x;
  inv_frontier : ∀ x y, x ∈ component → edge g x y → y ∈ visited ∨ y ∈ work;
  inv_root : root ∈ component ∨ root ∈ work
}.

(** The number of trips of the batch that go from [p] to [d]. *)
Definition trips_from_to (taxi_data : list (option Z * option Z)) (p d : Z) : Z :=
  Z.of_nat (length (filter (λ x, x = (Some p, Some d)) taxi_data)).

(** [trip_counts[k]], read as 0 for a key that is not there. *)
Fixpoint trip_count (trip_counts : list ((Z * Z) * Z)) (k : Z * Z) : Z :=
  match trip_counts with
  | [] => 0
  | (k', c) :: rest => if decide (k' = k) then c else trip_count rest k
  end.

(** The graph of the example scenario of the specification. *)
Definition example_pairs : list (option Z * option Z) :=
  [(Some 1, Some 2); (Some 2, Some 1); (Some 3, Some 3); (Some 4, None)].

Definition example_names : list (Z * string) :=
  [(1, "A"); (2, "B"); (3, "C"); (4, "D")]%string.

Definition example_graph : Graph := build_graph example_pairs example_names.

(** A list of components is a partition of the node set: the nodes are the
    elements of the components, a node occurs in one component only, and no
    component holds a node twice. *)
Definition node_partition (g : Graph) (components : list (list Z)) : Prop :=
  (∀ x, x ∈ node_order g ↔ ∃ c, c ∈ components ∧ x ∈ c) ∧
  (∀ i j c1 c2 x, components !! i = Some c1 → components !! j = Some c2 →
                  x ∈ c1 → x ∈ c2 → i = j) ∧
  (∀ c, c ∈ components → NoDup c).

(** What one search of [dfs] or [bfs] adds to the shared state: it returns
    the class of its root, and [visited] grows by it. *)
Definition search_result (g : Graph) (visited : gset Z) (node : Z)
    (r : outcome (list Z * gset Z)) : Prop :=
  ∃ component visited',
    r = Return (component, visited') ∧
    (∀ x, x ∈ component ↔ connected g node x) ∧ closed g visited' ∧
    NoDup component ∧ visited' = visited ∪ list_to_set component ∧
    (∀ x, x ∈ component → x ∉ visited).

(** The state of the loop over the nodes: the components found so far are
    classes, and [visited] is the set of their elements. *)
Definition outer_inv (g : Graph) (visited : gset Z) (components : list (list Z)) : Prop :=
  closed g visited ∧ visited = list_to_set (concat components) ∧
  NoDup (concat components) ∧
  ∀ c, c ∈ components → ∃ r, r ∈ node_order g ∧ ∀ x, x ∈ c ↔ connected g r x.

(** ** Further properties of the sorts *)

(** Whatever two positions are taken, the earlier one carries the smaller
    key, or an equal one. *)
Definition sorted_by {A : Type} (key : A → Z) (l : list A) : Prop :=
  ∀ (i j : nat) (a b : A),
    (i < j)%nat → l !! i = Some a → l !! j = Some b → key a ≤ key b.

(** For each key value, the elements carrying it come in the output in the
    reverse of their input order. *)
Definition reverses_ties {A : Type} (key : A → Z) (input output : list A) : Prop :=
  ∀ v : Z, filter (λ x, key x = v) output = reverse (filter (λ x, key x = v) input).

(** ** task3.py: the comparison of the three methods *)

(** A line printed by [compare_performance]: the method, the time it took
    and the number of components it found. *)
Record Line := {
  method : string;
  seconds : Q;
  found : nat
}.

(** The call of a function of the graph alone. *)
Definition call_on_graph {R : Type} (f : Graph → outcome R) (graph : Graph) : M R :=
  call (λ graph (_ : unit), f graph) graph ().

(** [compare_performance(graph)]: each method is run between two readings
    of the clock; the result is the list of the lines printed. *)
Definition compare_performance (set_order : gset Z → list Z) (graph : Graph)
    : M (list Line) :=
  let* start_time := time_time in
  let* networkx_components :=
    call_on_graph (λ graph, Return (find_connected_components_networkx graph)) graph in
  let* end_time := time_time in
  let networkx_time := (end_time - start_time)%Q in
  let* start_time := time_time in
  let* dfs_components := call_on_graph (find_connected_components_dfs set_order) graph in
  let* end_time := time_time in
  let dfs_time := (end_time - start_time)%Q in
  let* start_time := time_time in
  let* bfs_components := call_on_graph (find_connected_components_bfs set_order) graph in
  let* end_time := time_time in
  let bfs_time := (end_time - start_time)%Q in
  ret [ {| method := "NetworkX"; seconds := networkx_time;
           found := length networkx_components |};
        {| method := "DFS"; seconds := dfs_time; found := length dfs_components |};
        {| method := "BFS"; seconds := bfs_time; found := length bfs_components |} ].

(** The time between the clock readings number [n] and [n + 1] counted
    from the state [w]. *)
Definition lap (w : World) (n : nat) : Q :=
  (readings w (S (n + reads w)) - readings w (n + reads w))%Q.

(** Two zones have a trip between them, in one direction or the other,
    with both ids different from 0. *)
Definition trip_between (taxi_data : list (option Z * option Z)) (u v : Z) : Prop :=
  u ≠ 0 ∧ v ≠ 0 ∧ ((Some u, Some v) ∈ taxi_data ∨ (Some v, Some u) ∈ taxi_data).

(** ** task3.py: the readers *)

(** More exceptions of Python. *)
Abbreviation ValueError := (OtherError 0).
Abbreviation KeyError := (OtherError 1).
Abbreviation StopIteration := (OtherError 2).


Section Task3Readers.
(** [str.isdigit] and [int] are built-in functions; the readers are
    modelled for any behaviour of them, [int] returning a number or
    raising. *)
Variable isdigit : string → bool.
Variable int : string → outcome Z.

(** [int(row[i]) if row[i].isdigit() else None]. *)
Definition location_id (row : list string) (i : nat) : outcome (option Z) :=
  match row !! i with
  | None => Raise IndexError
  | Some cell =>
      if isdigit cell then outcome_bind (int cell) (λ n, Return (Some n))
      else Return None
  end.

(** The body of the [try] of [read_nyc_taxi_data]: the pair of a row. *)
Definition read_row (row : list string) : outcome (option Z * option Z) :=
  outcome_bind (location_id row 5) (λ pickup,
    outcome_bind (location_id row 6) (λ dropoff, Return (pickup, dropoff))).

(** [for row in reader: try: ... taxi_data.append((pickup, dropoff))
     except (IndexError, ValueError): continue]. *)
Fixpoint read_rows (reader : list (list string))
    (taxi_data : list (option Z * option Z)) : outcome (list (option Z * option Z)) :=
  match reader with
  | [] => Return taxi_data
  | row :: reader =>
      match read_row row with
      | Return trip => read_rows reader (taxi_data ++ [trip])
      | Raise IndexError | Raise ValueError => read_rows reader taxi_data
      | Raise e => Raise e
      end
  end.

(** [read_nyc_taxi_data(filepath)], given the rows that [csv.reader]
    yields for the file; [next(reader)] skips the header row and raises
    [StopIteration] when there is none. *)
Definition read_nyc_taxi_data (reader : list (list string))
    : outcome (list (option Z * option Z)) :=
  match reader with
  | [] => Raise StopIteration
  | _ :: reader => read_rows reader []
  end.


End Task3Readers.

(** The value of a string of decimal digits, as [int] gives it; any other
    string is refused.  It stands for [int] in the examples. *)
Definition digit_value (c : Ascii.ascii) : option Z :=
  let n := Z.of_nat (Ascii.nat_of_ascii c) in
  if bool_decide (48 ≤ n ≤ 57) then Some (n - 48) else None.

Fixpoint decimal_value (acc : Z) (s : string) : option Z :=
  match s with
  | EmptyString => Some acc
  | String c rest =>
      match digit_value c with
      | Some d => decimal_value (10 * acc + d) rest
      | None => None
      end
  end.

Definition decimal_isdigit (s : string) : bool :=
  match s with
  | EmptyString => false
  | _ => bool_decide (is_Some (decimal_value 0 s))
  end.

Definition decimal_int (s : string) : outcome Z :=
  match s with
  | EmptyString => Raise ValueError
  | _ => match decimal_value 0 s with
         | Some n => Return n
         | None => Raise ValueError
         end
  end.

(** What a row gives to the list read: its pair, when the body of the
    [try] returns one. *)
Definition row_trip (isdigit : string → bool) (int : string → outcome Z)
    (row : list string) : option (option Z * option Z) :=
  match read_row isdigit int row with
  | Return trip => Some trip
  | Raise _ => None
  end.



(** ** Python strings

    A string is modelled by a Rocq string, a character by its code point,
    which the model takes below 256. *)

(** [s.split(sep)] for a separator of one character: the fields between
    the occurrences of the separator; there is always at least one field. *)
Fixpoint str_split (sep : Ascii.ascii) (s : string) : list string :=
  match s with
  | EmptyString => [EmptyString]
  | String c rest =>
      if decide (c = sep) then EmptyString :: str_split sep rest
      else match str_split sep rest with
           | field :: fields => String c field :: fields
           | [] => [String c EmptyString]
           end
  end.

(** [c.isspace()]: the characters that [str.strip()] removes. *)
Definition isspace (c : Ascii.ascii) : bool :=
  let n := Ascii.nat_of_ascii c in
  bool_decide (9 ≤ n ≤ 13)%nat || bool_decide (28 ≤ n ≤ 32)%nat ||
  bool_decide (n = 133)%nat || bool_decide (n = 160)%nat.

(** [s.lstrip(...)] and [s.rstrip(...)], for the characters that satisfy [p]. *)
Fixpoint str_lstrip (p : Ascii.ascii → bool) (s : string) : string :=
  match s with
  | EmptyString => EmptyString
  | String c rest => if p c then str_lstrip p rest else s
  end.

Fixpoint str_rstrip (p : Ascii.ascii → bool) (s : string) : string :=
  match s with
  | EmptyString => EmptyString
  | String c rest =>
      match str_rstrip p rest with
      | EmptyString => if p c then EmptyString else String c EmptyString
      | kept => String c kept
      end
  end.

(** The comma and the double quote. *)
Definition comma : Ascii.ascii := Ascii.ascii_of_nat 44.
Definition double_quote : Ascii.ascii := Ascii.ascii_of_nat 34.

(** [s.strip()], and [s.strip(q)] for [q] the string made of one double
    quote. *)
Definition str_strip (s : string) : string := str_rstrip isspace (str_lstrip isspace s).

Definition str_strip_quotes (s : string) : string :=
  let quote c := bool_decide (c = double_quote) in
  str_rstrip quote (str_lstrip quote s).

(** [line.strip().split(',')]. *)
Definition fields_of (line : string) : list string := str_split comma (str_strip line).

(** Sequencing of calls that may raise. *)
#[global] Instance outcome_ret : MRet outcome := @Return.
#[global] Instance outcome_mbind : MBind outcome := λ A B k o, outcome_bind o k.

(** ** task1.py *)

Module Task1.
Section Functions.
(** [int] is built in; the functions are modelled for any behaviour of it. *)
Variable int : string → outcome Z.

(** [{headers[i]: values[i] for i in range(len(values))}]. *)
Definition entry_of (headers values : list string) : outcome (gmap string string) :=
foldl (λ (entry : outcome (gmap string string)) (i : nat),
         entry ← entry;
         match headers !! i, values !! i with
         | Some header, Some value => Return (<[header := value]> entry)
         | _, _ => Raise IndexError
         end)
      (Return ∅) (seq 0 (length values)).

(** The loop of [read_file] over the lines after the first. *)
Fixpoint read_lines (headers : list string) (lines : list string)
  : outcome (list (gmap string string)) :=
match lines with
| [] => Return []
| line :: lines =>
    entry ← entry_of headers (fields_of line);
    data ← read_lines headers lines;
    Return (entry :: data)
end.

(** [read_file(file_path)], given the lines of the file; [file.readline()]
  is the empty string on an empty file. *)
Definition read_file (lines : list string) : outcome (list (gmap string string)) :=
let headers := fields_of (default EmptyString (head lines)) in
read_lines headers (tail lines).

(** One iteration of the loop of [count_trips]; [except Exception] catches
  what the body raises, and the trip is skipped. *)
Definition count_trip (zones : gmap Z string) (zone_counts : gmap string Z)
  (trip : gmap string string) : gmap string Z :=
match trip !! "PULocationID"%string with
| None => zone_counts
| Some cell =>
    match int cell with
    | Raise _ => zone_counts
    | Return zone_id =>
        match zones !! zone_id with
        | None => zone_counts
        | Some zone_name =>
            match zone_counts !! zone_name with
            | Some count => <[zone_name := count + 1]> zone_counts
            | None => zone_counts
            end
        end
    end
end.

(** [count_trips(data, zones)]: the counts start at 0 for every zone name. *)
Definition count_trips (data : list (gmap string string)) (zones : gmap Z string)
  : gmap string Z :=
let zone_counts := gset_to_gmap 0 (map_img zones : gset string) in
foldl (count_trip zones) zone_counts data.

(** The loop of [read_zone_lookup]. *)
Fixpoint read_zone_lines (lines : list string) (zones : gmap Z string)
  : outcome (gmap Z string) :=
match lines with
| [] => Return zones
| line :: lines =>
    let parts := fields_of line in
    cell ← match parts !! 0%nat with
           | Some part => Return (str_strip_quotes part)
           | None => Raise IndexError
           end;
    location_id ← int cell;
    zone_name ← match parts !! 2%nat with
                | Some part => Return (str_strip_quotes part)
                | None => Raise IndexError
                end;
    read_zone_lines lines (<[location_id := zone_name]> zones)
end.

(** [read_zone_lookup(file_path)], given the lines of the file;
  [next(file)] skips the header. *)
Definition read_zone_lookup (lines : list string) : outcome (gmap Z string) :=
match lines with
| [] => Raise StopIteration
| _ :: lines => read_zone_lines lines ∅
end.
End Functions.

(** The zones the module counts trips for. *)
Definition zones_of_interest (zones : gmap Z string) : gmap Z string :=
  filter (λ '(_, name), name ∈ ["Newark Airport"; "JFK Airport"; "East Harlem North";
                                 "Central Park"]%string) zones.
End Task1.

(** A line break. *)
Definition newline : string := String (Ascii.ascii_of_nat 10) EmptyString.

(** The zone a trip is counted for: the name of its pick-up zone, when the
    trip has the column, its cell converts and the id is in the table. *)
Definition pickup_zone (int : string → outcome Z) (zones : gmap Z string)
    (trip : gmap string string) : option string :=
  match trip !! "PULocationID"%string with
  | None => None
  | Some cell =>
      match int cell with
      | Return zone_id => zones !! zone_id
      | Raise _ => None
      end
  end.

(** The dictionary built by assigning the pairs of a list in order. *)
Definition dict_of (items : list (string * string)) : gmap string string :=
  foldl (λ entry '(header, value), <[header := value]> entry) ∅ items.

(** [c in s], and the first and the last character of a string. *)
Fixpoint str_has (c : Ascii.ascii) (s : string) : bool :=
  match s with
  | EmptyString => false
  | String c' rest => bool_decide (c' = c) || str_has c rest
  end.

Definition str_first (s : string) : option Ascii.ascii :=
  match s with
  | EmptyString => None
  | String c _ => Some c
  end.

Fixpoint str_last (s : string) : option Ascii.ascii :=
  match s with
  | EmptyString => None
  | String c EmptyString => Some c
  | String _ rest => str_last rest
  end.

(** ** task2.py: the readers *)

(** [fields[i]]. *)
Definition get_field (fields : list string) (i : nat) : outcome string :=
  match fields !! i with
  | Some cell => Return cell
  | None => Raise IndexError
  end.

(** The floats, the two kinds of time values and the built-in operations
    on them are not modelled further: the readers are embedded for any
    values and operations of this interface. *)
Class Builtins := {
  float_type : Type;   (** [float] *)
  datetime : Type;     (** [datetime.datetime] *)
  struct_time : Type;  (** [time.struct_time] *)
  (** [int(s)] and [float(s)] *)
  py_int : string → outcome Z;
  py_float : string → outcome float_type;
  (** [datetime.datetime.strptime(s, "%Y-%m-%d %H:%M:%S")] *)
  datetime_strptime : string → outcome datetime;
  (** [(b - a).total_seconds() / 3600] *)
  hours_between : datetime → datetime → float_type;
  (** [x > 0], [x / y], [x - y] and [x / 3600] on floats *)
  float_gt0 : float_type → bool;
  float_div : float_type → float_type → outcome float_type;
  float_sub : float_type → float_type → float_type;
  float_div3600 : float_type → float_type;
  (** [time.strptime(s, "%Y-%m-%dT%H:%M:%S.%f")] and [time.mktime(t)] *)
  time_strptime : string → outcome struct_time;
  time_mktime : struct_time → outcome float_type
}.

(** A field of a trip record: an [int] or a [float]. *)
Inductive number `{Builtins} :=
| Int (n : Z)
| Float (x : float_type).

Section Task2Readers.
Context `{Builtins}.

(** The body of the [try] of [parse_trip], up to the tuple returned. *)
Definition parse_fields (fields : list string) : outcome (list number) :=
cell ← get_field fields 3; num_passengers ← py_int cell;
cell ← get_field fields 10; fare_amount ← py_float cell;
cell ← get_field fields 14; tips_amount ← py_float cell;
cell ← get_field fields 16; total_amount ← py_float cell;
cell ← get_field fields 1; pickup_datetime ← datetime_strptime cell;
cell ← get_field fields 2; dropoff_datetime ← datetime_strptime cell;
cell ← get_field fields 4; trip_distance ← py_float cell;
let trip_time := hours_between pickup_datetime dropoff_datetime in
speed ← (if float_gt0 trip_time
         then speed ← float_div trip_distance trip_time; Return (Float speed)
         else Return (Int 0));
Return [Int num_passengers; Float fare_amount; Float tips_amount;
        Float total_amount; speed; Float trip_time].

(** [parse_trip(line)]: [None] when the body raises [ValueError]. *)
Definition parse_trip (line : string) : outcome (option (list number)) :=
match parse_fields (str_split comma line) with
| Return trip => Return (Some trip)
| Raise ValueError => Return None
| Raise e => Raise e
end.

(** The loop of [read_trips]; [if trip:] holds for a tuple that is not
  empty. *)
Fixpoint read_trip_lines (lines : list string) (trips : list (list number))
  : outcome (list (list number)) :=
match lines with
| [] => Return trips
| line :: lines =>
    trip ← parse_trip line;
    match trip with
    | Some ((_ :: _) as trip) => read_trip_lines lines (trips ++ [trip])
    | _ => read_trip_lines lines trips
    end
end.

(** [read_trips(file_path)], given the lines of the file; [next(file)]
  skips the header. *)
Definition read_trips (lines : list string) : outcome (list (list number)) :=
match lines with
| [] => Raise StopIteration
| _ :: lines => read_trip_lines lines []
end.

(** The body of the [try] of [read_data]: the record to append, if any. *)
Definition data_record (parts : list string) : outcome (option (list number)) :=
cell ← get_field parts 3; num_passengers ← py_int cell;
cell ← get_field parts 10; fare_amount ← py_float cell;
cell ← get_field parts 16; total_amount ← py_float cell;
cell ← get_field parts 4; trip_distance ← py_float cell;
pickup ← get_field parts 1;
dropoff ← get_field parts 2;
pickup_time ← time_strptime pickup;
dropoff_time ← time_strptime dropoff;
dropoff_seconds ← time_mktime dropoff_time;
pickup_seconds ← time_mktime pickup_time;
let trip_time_seconds := float_sub dropoff_seconds pickup_seconds in
if float_gt0 trip_time_seconds then
  speed ← float_div trip_distance (float_div3600 trip_time_seconds);
  Return (Some [Int num_passengers; Float fare_amount; Float total_amount;
                Float speed; Float trip_time_seconds])
else Return None.

(** The loop of [read_data]: a line is looked at when it has more than one
  field; [ValueError] is caught. *)
Fixpoint read_data_lines (lines : list string) (data : list (list number))
  : outcome (list (list number)) :=
match lines with
| [] => Return data
| line :: lines =>
    let parts := fields_of line in
    if bool_decide (1 < length parts)%nat then
      match data_record parts with
      | Return (Some record) => read_data_lines lines (data ++ [record])
      | Return None | Raise ValueError => read_data_lines lines data
      | Raise e => Raise e
      end
    else read_data_lines lines data
end.

(** [read_data(file_path)], given the lines of the file. *)
Definition read_data (lines : list string) : outcome (list (list number)) :=
read_data_lines lines [].
End Task2Readers.

(** The trip a line gives to [read_trips], if any. *)
Definition parsed_trip `{Builtins} (line : string) : option (list number) :=
  match parse_trip line with
  | Return (Some ((_ :: _) as trip)) => Some trip
  | _ => None
  end.

(** The built-in conversions raise nothing but [ValueError], and the
    division by a float that is greater than 0 returns. *)
Definition conversions_raise_ValueError `{Builtins} : Prop :=
  (∀ s e, py_int s = Raise e → e = ValueError) ∧
  (∀ s e, py_float s = Raise e → e = ValueError) ∧
  (∀ s e, datetime_strptime s = Raise e → e = ValueError) ∧
  (∀ x y, float_gt0 y = true → ∃ z, float_div x y = Return z).

(** An instance for the examples: the floats and the times are integers,
    read in decimal notation. *)
Definition decimal_builtins : Builtins := {|
  float_type := Z; datetime := Z; struct_time := Z;
  py_int := decimal_int; py_float := decimal_int;
  datetime_strptime := decimal_int;
  hours_between pickup dropoff := (dropoff - pickup) / 3600;
  float_gt0 x := bool_decide (0 < x);
  float_div x y := if decide (y = 0) then Raise (OtherError 3) else Return (x / y);
  float_sub x y := x - y;
  float_div3600 x := x / 3600;
  time_strptime := decimal_int;
  time_mktime := Return
|}.

(** ** task1.py: the statistics *)

(** The further built-in operations that the statistics use. *)
Class Statistics `{Builtins} := {
  (** [x >= 0] and [x <= 150] on floats, [0.0], [x * 1.60934] *)
  float_ge0 : float_type → bool;
  float_le150 : float_type → bool;
  float_zero : float_type;
  float_km : float_type → float_type;
  (** [min(values)], [max(values)] and [sum(values) / len(values)] for a
      list that is not empty *)
  py_min : list float_type → float_type;
  py_max : list float_type → float_type;
  float_mean : list float_type → float_type;
  (** [datetime.strptime(s, '%Y-%m-%dT%H:%M:%S.%f')] *)
  datetime_strptime_f : string → outcome datetime
}.

(** [trip[column]]. *)
Definition get_item (trip : gmap string string) (column : string) : outcome string :=
  match trip !! column with
  | Some cell => Return cell
  | None => Raise KeyError
  end.

Section Statistics.
Context `{Statistics}.

(** [calc_stats(values)]. *)
Definition calc_stats (values : list float_type) : float_type * float_type * float_type :=
match values with
| [] => (float_zero, float_zero, float_zero)
| _ => (py_min values, float_mean values, py_max values)
end.

(** [[float(trip[c]) for trip in data
    if trip[c] and trip[c] != '' and float(trip[c]) > 0]], with the last
  test given by [keep]. *)
Fixpoint amounts (column : string) (keep : float_type → bool)
  (data : list (gmap string string)) : outcome (list float_type) :=
match data with
| [] => Return []
| trip :: data =>
    cell ← get_item trip column;
    kept ← (if decide (cell = EmptyString) then Return []
            else tested ← py_float cell;
                 if keep tested then value ← py_float cell; Return [value]
                 else Return []);
    rest ← amounts column keep data;
    Return (kept ++ rest)
end.

(** [calculate_stats(data)]: the statistics of the total amounts, then
  those of the tips. *)
Definition calculate_stats (data : list (gmap string string))
  : outcome ((float_type * float_type * float_type) *
             (float_type * float_type * float_type)) :=
total_amounts ← amounts "total_amount" float_gt0 data;
tip_amounts ← amounts "tip_amount" float_ge0 data;
Return (calc_stats total_amounts, calc_stats tip_amounts).

(** The body of the [try] of [calculate_speed]: the speed to append, if
  any. *)
Definition trip_speed (trip : gmap string string) : outcome (option float_type) :=
cell ← get_item trip "tpep_pickup_datetime"; pickup_time ← datetime_strptime_f cell;
cell ← get_item trip "tpep_dropoff_datetime"; dropoff_time ← datetime_strptime_f cell;
cell ← get_item trip "trip_distance"; miles ← py_float cell;
let distance := float_km miles in
let duration_hours := hours_between pickup_time dropoff_time in
if float_gt0 duration_hours && float_gt0 distance then
  speed_kmh ← float_div distance duration_hours; Return (Some speed_kmh)
else Return None.

(** The loop of [calculate_speed]: a trip is looked at when it has the
  three columns; [ValueError] is caught. *)
Fixpoint speeds_of (data : list (gmap string string)) (speeds : list float_type)
  : outcome (list float_type) :=
match data with
| [] => Return speeds
| trip :: data =>
    if bool_decide (is_Some (trip !! "tpep_pickup_datetime"%string) ∧
                    is_Some (trip !! "tpep_dropoff_datetime"%string) ∧
                    is_Some (trip !! "trip_distance"%string)) then
      match trip_speed trip with
      | Return (Some speed_kmh) => speeds_of data (speeds ++ [speed_kmh])
      | Return None | Raise ValueError => speeds_of data speeds
      | Raise e => Raise e
      end
    else speeds_of data speeds
end.

(** [calculate_speed(data)]. *)
Definition calculate_speed (data : list (gmap string string))
  : outcome (float_type * float_type * float_type) :=
speeds ← speeds_of data [];
match speeds with
| [] => Return (float_zero, float_zero, float_zero)
| _ =>
    let realistic_speeds :=
      filter (λ speed, float_gt0 speed && float_le150 speed) speeds in
    match realistic_speeds with
    | [] => Return (float_zero, float_zero, float_zero)
    | _ => Return (py_min realistic_speeds, float_mean realistic_speeds,
                   py_max realistic_speeds)
    end
end.
End Statistics.

(** [min] and [max] return an element of the list they are given. *)
Definition extremes_are_elements `{Statistics} : Prop :=
  ∀ values, values ≠ [] → py_min values ∈ values ∧ py_max values ∈ values.

(** An instance for the examples: integers for the floats. *)
Definition decimal_statistics : @Statistics decimal_builtins :=
  @Build_Statistics decimal_builtins
    (λ x : Z, bool_decide (0 ≤ x))
    (λ x : Z, bool_decide (x ≤ 150))
    (0 : Z)
    (λ x : Z, x * 2)
    (λ values : list Z, foldr Z.min (default 0 (head values)) values)
    (λ values : list Z, foldr Z.max (default 0 (head values)) values)
    (λ values : list Z, foldr Z.add 0 values / Z.of_nat (length values))
    decimal_int.

(** Two trips for the examples: amounts 12 and 0, tips 2 and 0. *)
Definition example_amounts : list (gmap string string) :=
  [ {[ "total_amount" := "12"; "tip_amount" := "2" ]}%string;
    {[ "total_amount" := "0"; "tip_amount" := "0" ]}%string ].

(** ** task2.py: the sorts on records that may lack the key field

    [data[j][key_index]] raises [IndexError] for a record that has no field
    [key_index].  The sorts are embedded once more with a key that may
    raise, to settle when they raise and to relate them to the embedding
    above, where every record has the field. *)

(** [r[key_index]]. *)
Definition get_key (key_index : nat) (r : Trip) : outcome Z :=
  match r !! key_index with
  | Some z => Return z
  | None => Raise IndexError
  end.

Section CheckedSorting.
Context {A : Type}.
Variable key : A → outcome Z.

(** [if data[j][k] > data[j + 1][k]: data[j], data[j + 1] = data[j + 1], data[j]]. *)
Definition bubble_step_checked (data : list A) (j : nat) : outcome (list A) :=
match data !! j, data !! S j with
| Some a, Some b =>
    key_a ← key a;
    key_b ← key b;
    Return (if bool_decide (key_a > key_b) then <[S j := a]> (<[j := b]> data)
            else data)
| _, _ => Raise IndexError
end.

(** [for j in range(0, n - i - 1): ...]. *)
Definition bubble_pass_checked (n : nat) (data : list A) (i : nat) : outcome (list A) :=
foldl (λ data j, data ← data; bubble_step_checked data j) (Return data)
  (seq 0 (n - i - 1)).

(** [bubble_sort(data, key_index)]. *)
Definition bubble_sort_checked (data : list A) : outcome (list A) :=
let n := length data in
foldl (λ data i, data ← data; bubble_pass_checked n data i) (Return data) (seq 0 n).

(** The merge loop of [merge_sort]. *)
Fixpoint merge_checked (left_half right_half : list A) : outcome (list A) :=
let fix merge_right (right_half : list A) : outcome (list A) :=
  match left_half, right_half with
  | x :: left_rest, y :: right_rest =>
      key_x ← key x;
      key_y ← key y;
      if bool_decide (key_x < key_y)
      then rest ← merge_checked left_rest right_half; Return (x :: rest)
      else rest ← merge_right right_rest; Return (y :: rest)
  | _, _ => Return (left_half ++ right_half)
  end in
merge_right right_half.

(** [merge_sort(data, key_index)]. *)
Equations? merge_sort_checked (data : list A) : outcome (list A) by wf (length data) lt :=
merge_sort_checked [] := Return [];
merge_sort_checked [x] := Return [x];
merge_sort_checked data :=
  let mid := (length data / 2)%nat in
  left_half ← merge_sort_checked (take mid data);
  right_half ← merge_sort_checked (drop mid data);
  merge_checked left_half right_half.
Proof.
all: subst mid data; rewrite ?length_take, ?length_drop; simpl length;
  pose proof (Nat.div_lt (S (S (length l))) 2);
  pose proof (Nat.div_le_lower_bound (S (S (length l))) 2 1); lia.
Qed.
End CheckedSorting.

(** [bubble_sort] and [merge_sort] as callables of [data] and [key_index]. *)
Definition bubble_sort_alg (data : list Trip) (key_index : nat) : outcome (list Trip) :=
  bubble_sort_checked (get_key key_index) data.

Definition merge_sort_alg (data : list Trip) (key_index : nat) : outcome (list Trip) :=
  merge_sort_checked (get_key key_index) data.

(** [measure_sorting_algorithms(data)]: both sorts by field 2, each between
    two readings of the clock. *)
Definition measure_sorting_algorithms (data : list Trip) : M (Q * Q) :=
  let* start_time := time_time in
  let* sorted_data_bubble := call bubble_sort_alg data 2%nat in
  let* end_time := time_time in
  let bubble_time := (end_time - start_time)%Q in
  let* start_time := time_time in
  let* sorted_data_merge := call merge_sort_alg data 2%nat in
  let* end_time := time_time in
  let merge_time := (end_time - start_time)%Q in
  ret (bubble_time, merge_time).
(** * Sorting by a key: facts shared by the four algorithms *)

Section OrderedFacts.
Context {A : Type}.
Variable key : A → Z.

#[local] Instance key_le_trans : Transitive (key_le key).
Proof. unfold key_le. intros a b c. lia. Qed.

Lemma ordered_by_nil : ordered_by key [].
Proof. intros i a b Ha. by rewrite lookup_nil in Ha. Qed.

Lemma ordered_by_cons (a : A) (l : list A) :
  ordered_by key (a :: l) ↔
  (∀ b, head l = Some b → key a ≤ key b) ∧ ordered_by key l.
Proof.
  split.
  - intros Hord. split.
    + intros b Hb. apply (Hord 0%nat a b); [done|].
      destruct l; simplify_eq/=. done.
    + intros i x y Hx Hy. by apply (Hord (S i) x y).
  - intros [Hhd Hord] [|i] x y Hx Hy; simplify_eq/=.
    + apply Hhd. by destruct l; simplify_eq/=.
    + by apply (Hord i).
Qed.

(** The adjacent-position formulation is the usual sortedness. *)
Lemma ordered_by_Sorted (l : list A) : ordered_by key l ↔ Sorted (key_le key) l.
Proof.
  induction l as [|a l IH].
  - split; [constructor | intros; apply ordered_by_nil].
  - rewrite ordered_by_cons, IH. split.
    + intros [Hhd Hs]. constructor; [done|].
      destruct l; constructor. by apply Hhd.
    + intros Hs. inversion Hs as [|?? Hs' Hhd]; subst. split; [|done].
      intros b Hb. destruct l; simplify_eq/=. by inversion Hhd.
Qed.

Lemma ordered_by_StronglySorted (l : list A) :
  ordered_by key l ↔ StronglySorted (key_le key) l.
Proof.
  rewrite ordered_by_Sorted. split.
  - apply Sorted_StronglySorted. intros a b c. apply key_le_trans.
  - apply StronglySorted_Sorted.
Qed.

(** Two sorted blocks, the first below the second, make a sorted list. *)
Lemma StronglySorted_app_2 (l1 l2 : list A) :
  StronglySorted (key_le key) l1 → StronglySorted (key_le key) l2 →
  (∀ a b, a ∈ l1 → b ∈ l2 → key a ≤ key b) →
  StronglySorted (key_le key) (l1 ++ l2).
Proof.
  intros H1 H2 Hle. induction H1 as [|a l1 Hs IH Hall]; [done|].
  simpl. constructor.
  - apply IH. intros x y Hx Hy. apply Hle; [by right|done].
  - apply Forall_app. split; [done|].
    apply Forall_forall. intros y Hy. apply Hle; [by left|done].
Qed.

Lemma stable_by_refl (l : list A) : stable_by key l l.
Proof. by intros v. Qed.

Lemma stable_by_trans (l1 l2 l3 : list A) :
  stable_by key l1 l2 → stable_by key l2 l3 → stable_by key l1 l3.
Proof. intros H12 H23 v. by rewrite H23, H12. Qed.
End OrderedFacts.

(** * Bubble sort *)

Section BubbleSort.
Context {A : Type}.
Variable key : A → Z.

Lemma bubble_step_at (pre post : list A) (a b : A) :
  bubble_step key (pre ++ a :: b :: post) (length pre) =
  pre ++ (if bool_decide (key a > key b) then b :: a :: post else a :: b :: post).
Proof.
  unfold bubble_step.
  rewrite list_lookup_middle by done.
  replace (pre ++ a :: b :: post) with ((pre ++ [a]) ++ b :: post) at 1
    by by rewrite <- app_assoc.
  rewrite list_lookup_middle by (rewrite length_app; simpl; lia).
  case_bool_decide; [|done].
  rewrite insert_app_r_alt by lia. rewrite Nat.sub_diag. simpl.
  rewrite insert_app_r_alt by lia.
  replace (S (length pre) - length pre)%nat with 1%nat by lia. done.
Qed.

Lemma bubble_pass_at (l pre post : list A) (x : A) :
  foldl (bubble_step key) (pre ++ x :: l ++ post) (seq (length pre) (length l)) =
  pre ++ bubble key x l ++ post.
Proof.
  revert pre x. induction l as [|y l IH]; intros pre x; [done|].
  simpl. rewrite bubble_step_at. case_bool_decide.
  - specialize (IH (pre ++ [y]) x). rewrite length_app in IH. simpl in IH.
    rewrite Nat.add_1_r in IH. rewrite <- !app_assoc in IH. simpl in IH. by rewrite IH.
  - specialize (IH (pre ++ [x]) y). rewrite length_app in IH. simpl in IH.
    rewrite Nat.add_1_r in IH. rewrite <- !app_assoc in IH. simpl in IH. by rewrite IH.
Qed.

Lemma bubble_perm (x : A) (l : list A) : bubble key x l ≡ₚ x :: l.
Proof.
  revert x. induction l as [|y l IH]; intros x; simpl; [done|].
  case_bool_decide.
  - rewrite IH. apply Permutation_swap.
  - by rewrite IH.
Qed.

(** After a pass the greatest key of the block is at its end. *)
Lemma bubble_last (x : A) (l : list A) :
  ∃ p m, bubble key x l = p ++ [m] ∧ ∀ z, z ∈ p → key z ≤ key m.
Proof.
  revert x. induction l as [|y l IH]; intros x; simpl.
  - exists [], x. split; [done|]. intros z Hz. by apply elem_of_nil in Hz.
  - case_bool_decide as Hxy.
    + destruct (IH x) as (p & m & Heq & Hle). exists (y :: p), m.
      split; [by rewrite Heq|].
      intros z [->|Hz]%elem_of_cons; [|by apply Hle].
      assert (Hx : x ∈ p ++ [m]) by (rewrite <- Heq, bubble_perm; by left).
      apply elem_of_app in Hx as [Hx|Hx].
      * apply Hle in Hx. lia.
      * apply list_elem_of_singleton in Hx as ->. lia.
    + destruct (IH y) as (p & m & Heq & Hle). exists (x :: p), m.
      split; [by rewrite Heq|].
      intros z [->|Hz]%elem_of_cons; [|by apply Hle].
      assert (Hy : y ∈ p ++ [m]) by (rewrite <- Heq, bubble_perm; by left).
      apply elem_of_app in Hy as [Hy|Hy].
      * apply Hle in Hy. lia.
      * apply list_elem_of_singleton in Hy as ->. lia.
Qed.

(** A step changes nothing, or swaps two neighbours whose keys are in
    strictly decreasing order. *)
Lemma bubble_step_cases (data : list A) (j : nat) :
  bubble_step key data j = data ∨
  ∃ pre a b post, data = pre ++ a :: b :: post ∧ key a > key b ∧
                  bubble_step key data j = pre ++ b :: a :: post.
Proof.
  destruct (data !! j) as [a|] eqn:Ha; [|left; unfold bubble_step; by rewrite Ha].
  destruct (data !! S j) as [b|] eqn:Hb; [|left; unfold bubble_step; by rewrite Ha, Hb].
  assert (Hdata : data = take j data ++ a :: b :: drop (S (S j)) data).
  { rewrite <- (take_drop j data) at 1. f_equal.
    rewrite (drop_S _ _ _ Ha). f_equal. by rewrite (drop_S _ _ _ Hb). }
  assert (Hlen : length (take j data) = j).
  { apply lookup_lt_Some in Ha. rewrite length_take. lia. }
  pose proof (bubble_step_at (take j data) (drop (S (S j)) data) a b) as Hstep.
  rewrite Hlen, <- Hdata in Hstep.
  destruct (decide (key a > key b)) as [Hgt|Hle].
  - right. exists (take j data), a, b, (drop (S (S j)) data).
    split; [done|]. split; [done|].
    by rewrite Hstep, bool_decide_eq_true_2.
  - left. rewrite Hstep, bool_decide_eq_false_2 by done. by rewrite <- Hdata.
Qed.

Lemma bubble_step_perm (data : list A) (j : nat) : bubble_step key data j ≡ₚ data.
Proof.
  destruct (bubble_step_cases data j) as [->|(pre & a & b & post & -> & _ & ->)]; [done|].
  apply Permutation_app_head, Permutation_swap.
Qed.

Lemma bubble_step_stable (data : list A) (j : nat) :
  stable_by key data (bubble_step key data j).
Proof.
  destruct (bubble_step_cases data j) as [->|(pre & a & b & post & -> & Hgt & ->)];
    [apply stable_by_refl|].
  intros v. rewrite !filter_app, !filter_cons.
  repeat case_decide; try done; lia.
Qed.

Lemma bubble_pass_perm (n : nat) (data : list A) (i : nat) :
  bubble_pass key n data i ≡ₚ data.
Proof.
  unfold bubble_pass. generalize (seq 0 (n - i - 1)). intros js.
  revert data. induction js as [|j js IH]; intros data; simpl; [done|].
  by rewrite IH, bubble_step_perm.
Qed.

Lemma bubble_pass_stable (n : nat) (data : list A) (i : nat) :
  stable_by key data (bubble_pass key n data i).
Proof.
  unfold bubble_pass. generalize (seq 0 (n - i - 1)). intros js.
  revert data. induction js as [|j js IH]; intros data; simpl; [apply stable_by_refl|].
  eapply stable_by_trans; [apply bubble_step_stable|apply IH].
Qed.

Lemma bubble_sort_perm (data : list A) : bubble_sort key data ≡ₚ data.
Proof.
  unfold bubble_sort. generalize (length data) at 1. intros n.
  generalize (seq 0 (length data)). intros passes.
  revert data. induction passes as [|i passes IH]; intros data; simpl; [done|].
  by rewrite IH, bubble_pass_perm.
Qed.

Lemma bubble_sort_stable (data : list A) : stable_by key data (bubble_sort key data).
Proof.
  unfold bubble_sort. generalize (length data) at 1. intros n.
  generalize (seq 0 (length data)). intros passes.
  revert data. induction passes as [|i passes IH]; intros data; simpl; [apply stable_by_refl|].
  eapply stable_by_trans; [apply bubble_pass_stable|apply IH].
Qed.

(** The invariant of the outer loop: after [k] passes the last [k]
    elements are sorted and above all the others. *)
Lemma bubble_sort_invariant (data : list A) (k : nat) :
  (k ≤ length data)%nat →
  ∃ front back,
    foldl (bubble_pass key (length data)) data (seq 0 k) = front ++ back ∧
    length back = k ∧ length front = (length data - k)%nat ∧
    StronglySorted (key_le key) back ∧
    ∀ a b, a ∈ front → b ∈ back → key a ≤ key b.
Proof.
  induction k as [|k IH]; intros Hk.
  - exists data, []. simpl. rewrite app_nil_r. repeat split; try done; try lia.
    + constructor.
    + intros a b _ Hb. by apply elem_of_nil in Hb.
  - destruct IH as (front & back & Heq & Hlb & Hlf & Hsorted & Hle); [lia|].
    rewrite seq_S, foldl_app. simpl. rewrite Heq.
    destruct front as [|x l]; [simpl in Hlf; lia|].
    unfold bubble_pass.
    replace (length data - k - 1)%nat with (length l) by (simpl in Hlf; lia).
    pose proof (bubble_pass_at l [] back x) as Hpass. simpl in Hpass.
    destruct (bubble_last x l) as (p & m & Hbub & Hmax).
    assert (Hperm : p ++ [m] ≡ₚ x :: l) by (rewrite <- Hbub; apply bubble_perm).
    exists p, (m :: back).
    split; [simpl; by rewrite Hpass, Hbub, <- app_assoc|].
    split; [simpl; lia|]. split.
    { apply Permutation_length in Hperm. rewrite length_app in Hperm.
      simpl in *. lia. }
    assert (Hin : ∀ z, z ∈ p ++ [m] → z ∈ x :: l).
    { intros z Hz. by rewrite <- Hperm. }
    split.
    + constructor; [done|]. apply Forall_forall. intros b Hb.
      apply Hle; [|done]. apply Hin, elem_of_app. right. by left.
    + intros a b Ha [->|Hb]%elem_of_cons; [by apply Hmax|].
      apply Hle; [|done]. apply Hin, elem_of_app. by left.
Qed.

Lemma bubble_sort_ordered (data : list A) : ordered_by key (bubble_sort key data).
Proof.
  apply ordered_by_StronglySorted.
  destruct (bubble_sort_invariant data (length data)) as
    (front & back & Heq & Hlb & Hlf & Hsorted & _); [done|].
  unfold bubble_sort. rewrite Heq.
  destruct front; [done|simpl in Hlf; lia].
Qed.
End BubbleSort.

(** * Merge sort *)

Section MergeSort.
Context {A : Type}.
Variable key : A → Z.

Lemma merge_nil_l (r : list A) : merge key [] r = r.
Proof. by destruct r. Qed.

Lemma merge_nil_r (l : list A) : merge key l [] = l.
Proof. destruct l; simpl; [done|]. by rewrite app_nil_r. Qed.

Lemma merge_cons (x y : A) (l r : list A) :
  merge key (x :: l) (y :: r) =
  if bool_decide (key x < key y) then x :: merge key l (y :: r)
  else y :: merge key (x :: l) r.
Proof. done. Qed.

(** When the heads tie, the merge takes the head of the right half. *)
Lemma merge_tie (x y : A) (l r : list A) :
  key x = key y → merge key (x :: l) (y :: r) = y :: merge key (x :: l) r.
Proof. intros Heq. rewrite merge_cons, bool_decide_eq_false_2; [done|lia]. Qed.

Lemma merge_perm (l r : list A) : merge key l r ≡ₚ l ++ r.
Proof.
  revert r. induction l as [|x l IHl]; intros r; [by rewrite merge_nil_l|].
  induction r as [|y r IHr]; [by rewrite merge_nil_r, app_nil_r|].
  rewrite merge_cons. case_bool_decide.
  - by rewrite IHl.
  - rewrite IHr. apply Permutation_middle.
Qed.

Lemma merge_sorted (l r : list A) :
  StronglySorted (key_le key) l → StronglySorted (key_le key) r →
  StronglySorted (key_le key) (merge key l r).
Proof.
  intros Hl. revert r. induction Hl as [|x l Hl IHl Hxl]; intros r Hr;
    [by rewrite merge_nil_l|].
  induction Hr as [|y r Hr IHr Hyr]; [rewrite merge_nil_r; by constructor|].
  rewrite merge_cons. case_bool_decide as Hxy.
  - constructor; [apply IHl; by constructor|].
    rewrite merge_perm. apply Forall_app. split; [done|].
    constructor; [unfold key_le; lia|].
    eapply Forall_impl; [exact Hyr|]. unfold key_le. intros z. simpl. lia.
  - constructor; [done|].
    rewrite merge_perm. apply Forall_app. split; [|done].
    constructor; [unfold key_le; lia|].
    eapply Forall_impl; [exact Hxl|]. unfold key_le. intros z. simpl. lia.
Qed.

Lemma filter_key_above (v : Z) (l : list A) :
  Forall (λ z, v < key z) l → filter (λ x, key x = v) l = [].
Proof.
  induction 1 as [|z l Hz _ IH]; [done|].
  rewrite filter_cons. case_decide; [lia|done].
Qed.

(** On sorted halves, the elements carrying a given key come out with
    those of the right half first. *)
Lemma merge_filter_key (v : Z) (l r : list A) :
  StronglySorted (key_le key) l → StronglySorted (key_le key) r →
  filter (λ x, key x = v) (merge key l r) =
  filter (λ x, key x = v) r ++ filter (λ x, key x = v) l.
Proof.
  intros Hl. revert r. induction Hl as [|x l Hl IHl Hxl]; intros r Hr;
    [by rewrite merge_nil_l, app_nil_r|].
  induction Hr as [|y r Hr IHr Hyr]; [by rewrite merge_nil_r|].
  rewrite merge_cons. case_bool_decide as Hxy.
  - rewrite filter_cons, IHl by by constructor.
    rewrite (filter_cons _ x l). case_decide as Hv; [|done].
    assert (Hnone : filter (λ z, key z = v) (y :: r) = []).
    { apply filter_key_above. constructor; [lia|].
      eapply Forall_impl; [exact Hyr|]. unfold key_le. intros z. simpl. lia. }
    by rewrite Hnone.
  - rewrite filter_cons, IHr. rewrite (filter_cons _ y r). by case_decide.
Qed.

Lemma merge_sort_perm (data : list A) : merge_sort key data ≡ₚ data.
Proof.
  funelim (merge_sort key data); simp merge_sort; [done..|].
  simpl. rewrite merge_perm.
  match goal with
  | H1 : merge_sort key (take ?m ?d) ≡ₚ _, H2 : merge_sort key (drop ?m ?d) ≡ₚ _ |- _ =>
      rewrite H1, H2; by rewrite (take_drop m d)
  end.
Qed.

Lemma merge_sort_sorted (data : list A) :
  StronglySorted (key_le key) (merge_sort key data).
Proof.
  funelim (merge_sort key data); simp merge_sort.
  - constructor.
  - repeat constructor.
  - simpl. by apply merge_sorted.
Qed.

Lemma merge_sort_ordered (data : list A) : ordered_by key (merge_sort key data).
Proof. apply ordered_by_StronglySorted, merge_sort_sorted. Qed.

(** Merge sort turns around the elements that carry the same key. *)
Lemma merge_sort_filter_key (v : Z) (data : list A) :
  filter (λ x, key x = v) (merge_sort key data) =
  reverse (filter (λ x, key x = v) data).
Proof.
  funelim (merge_sort key data); simp merge_sort.
  - done.
  - rewrite filter_cons. case_decide; done.
  - simpl. rewrite merge_filter_key by apply merge_sort_sorted.
    match goal with
    | H1 : ∀ v, filter _ (merge_sort key (take ?m ?d)) = _,
      H2 : ∀ v, filter _ (merge_sort key (drop ?m ?d)) = _ |- _ =>
        rewrite H1, H2, <- reverse_app, <- filter_app; by rewrite (take_drop m d)
    end.
Qed.
End MergeSort.

(** * Quicksort *)

Section QuickSort.
Context {A : Type}.
Variable key : A → Z.

Lemma partition_perm (k : Z) (l : list A) :
  filter (λ x, key x ≤ k) l ++ filter (λ x, key x > k) l ≡ₚ l.
Proof.
  induction l as [|x l IH]; [done|].
  rewrite !filter_cons. repeat case_decide; try lia; simpl.
  - by rewrite IH.
  - by rewrite <- Permutation_middle, IH.
Qed.

Lemma quicksort_perm (data : list A) : quicksort key data ≡ₚ data.
Proof.
  funelim (quicksort key data); simp quicksort; [done..|].
  match goal with
  | H1 : quicksort key (filter ?P ?l) ≡ₚ _, H2 : quicksort key (filter ?Q ?l) ≡ₚ _ |- _ =>
      rewrite H1, H2
  end.
  simpl. rewrite <- Permutation_middle. constructor.
  match goal with |- context [filter _ (?a :: ?l)] =>
    apply (partition_perm (key pivot) (a :: l)) end.
Qed.

Lemma quicksort_sorted (data : list A) :
  StronglySorted (key_le key) (quicksort key data).
Proof.
  funelim (quicksort key data); simp quicksort.
  - constructor.
  - repeat constructor.
  - apply StronglySorted_app_2; [done| |].
    + simpl. constructor; [done|].
      apply Forall_forall. intros z Hz. rewrite quicksort_perm in Hz.
      apply list_elem_of_filter in Hz as [Hz _]. unfold key_le. lia.
    + intros a b Ha Hb. rewrite quicksort_perm in Ha.
      apply list_elem_of_filter in Ha as [Ha _].
      apply elem_of_cons in Hb as [->|Hb]; [done|].
      rewrite quicksort_perm in Hb.
      apply list_elem_of_filter in Hb as [Hb _]. lia.
Qed.

Lemma quicksort_ordered (data : list A) : ordered_by key (quicksort key data).
Proof. apply ordered_by_StronglySorted, quicksort_sorted. Qed.
End QuickSort.

(** * The binary heap of heapq *)

Lemma parent_spec (i : nat) :
  (0 < i)%nat → (i = 2 * parentpos i + 1 ∨ i = 2 * parentpos i + 2)%nat.
Proof.
  unfold parentpos. intros Hi.
  pose proof (Nat.div_mod_eq (i - 1) 2).
  pose proof (Nat.mod_upper_bound (i - 1) 2). lia.
Qed.

Lemma parent_left (p : nat) : parentpos (2 * p + 1) = p.
Proof.
  unfold parentpos. replace (2 * p + 1 - 1)%nat with (p * 2)%nat by lia.
  by apply Nat.div_mul.
Qed.

Lemma parent_right (p : nat) : parentpos (2 * p + 2) = p.
Proof.
  unfold parentpos. replace (2 * p + 2 - 1)%nat with (1 + p * 2)%nat by lia.
  by rewrite Nat.div_add.
Qed.

(** Arithmetic on positions: every [parentpos i] in sight is related to [i]. *)
Ltac pose_parents :=
  repeat match goal with
  | |- context [parentpos ?i] =>
      lazymatch goal with
      | _ : (0 < i)%nat → (i = 2 * parentpos i + 1 ∨ _)%nat |- _ => fail
      | _ => pose proof (parent_spec i)
      end
  | _ : context [parentpos ?i] |- _ =>
      lazymatch goal with
      | _ : (0 < i)%nat → (i = 2 * parentpos i + 1 ∨ _)%nat |- _ => fail
      | _ => pose proof (parent_spec i)
      end
  end.
Ltac pos_lia := pose_parents; lia.

(** Overwriting one cell with the content of another: the items are those
    of the list where the first cell received the new value. *)
Lemma insert_head_perm {A : Type} (l : list A) (j : nat) (x y : A) :
  l !! j = Some y → y :: <[j := x]> l ≡ₚ x :: l.
Proof.
  revert j. induction l as [|a l IH]; intros [|j] Hj; simplify_eq/=.
  - apply Permutation_swap.
  - rewrite (Permutation_swap a y), (IH j) by done. apply Permutation_swap.
Qed.

Lemma insert_move_perm {A : Type} (l : list A) (i j : nat) (x y : A) :
  i ≠ j → (i < length l)%nat → l !! j = Some y →
  <[j := x]> (<[i := y]> l) ≡ₚ <[i := x]> l.
Proof.
  intros Hij Hi Hj.
  destruct (lookup_lt_is_Some_2 l i Hi) as [z Hz].
  apply (Permutation_cons_inv (a := y)).
  rewrite insert_head_perm by by rewrite list_lookup_insert_ne.
  apply (Permutation_cons_inv (a := z)).
  rewrite (Permutation_swap x z (<[i:=y]> l)), (insert_head_perm l i y z) by done.
  rewrite (Permutation_swap y z (<[i:=x]> l)), (insert_head_perm l i x z) by done.
  apply Permutation_swap.
Qed.

Section HeapFacts.
Context {A : Type}.
Variable lt : A → A → bool.
Hypothesis lt_irrefl : ∀ a, lt a a = false.
Hypothesis lt_trans : ∀ a b c, lt a b = true → lt b c = true → lt a c = true.
Hypothesis lt_total : ∀ a b, lt a b = false → lt b a = false → a = b.

Local Abbreviation le := (le_of lt).

Lemma le_refl (a : A) : le a a.
Proof. apply lt_irrefl. Qed.

Lemma lt_le (a b : A) : lt a b = true → le a b.
Proof.
  intros Hab. unfold le_of. destruct (lt b a) eqn:Hba; [|done].
  pose proof (lt_trans _ _ _ Hab Hba) as Haa. by rewrite lt_irrefl in Haa.
Qed.

Lemma le_trans (a b c : A) : le a b → le b c → le a c.
Proof.
  unfold le_of. intros Hab Hbc. destruct (lt c a) eqn:Hca; [|done].
  destruct (lt a b) eqn:Hab'.
  - pose proof (lt_trans _ _ _ Hca Hab') as Hcb. congruence.
  - assert (a = b) by by apply lt_total. congruence.
Qed.

Lemma hole_inv_insert (h : list A) (pos : nat) (x : A) :
  hole_inv lt h pos → hole_inv lt (<[pos := x]> h) pos.
Proof.
  intros [H1 H2]. split.
  - intros i Hi Hpi y p Hpos Hy Hp.
    rewrite list_lookup_insert_ne in Hy, Hp by done. by apply (H1 i).
  - intros c y g Hpos Hc Hpc Hy Hg.
    rewrite list_lookup_insert_ne in Hy, Hg by pos_lia. by apply (H2 c).
Qed.

(** Writing [newitem] into the hole gives a heap when it fits between the
    parent and the children of the hole. *)
Lemma place_is_heap (h : list A) (pos : nat) (newitem : A) :
  hole_inv lt h pos → above_children lt h pos newitem →
  (∀ par, (0 < pos)%nat → h !! parentpos pos = Some par → le par newitem) →
  is_heap lt (<[pos := newitem]> h).
Proof.
  intros [H1 H2] Hch Hpar i x p Hi Hx Hp.
  apply list_lookup_insert_Some in Hx as [(<- & <- & Hlen)|[Hne Hx]].
  - rewrite list_lookup_insert_ne in Hp by pos_lia. by apply Hpar.
  - apply list_lookup_insert_Some in Hp as [(Heq & <- & Hlen)|[Hne' Hp]].
    + by apply (Hch i).
    + by apply (H1 i).
Qed.

Lemma siftdown_loop_spec (heap : list A) (startpos : nat) (newitem : A) (pos : nat) :
  startpos = 0%nat → (pos < length heap)%nat →
  hole_inv lt heap pos → above_children lt heap pos newitem →
  is_heap lt (siftdown_loop lt heap startpos newitem pos) ∧
  siftdown_loop lt heap startpos newitem pos ≡ₚ <[pos := newitem]> heap.
Proof.
  funelim (siftdown_loop lt heap startpos newitem pos);
    intros -> Hlen Hinv Hch.
  - (* pos = 0 *)
    split; [|done]. apply place_is_heap; [done..|]. intros par Hpos. lia.
  - (* the parent position is always in range *)
    match goal with H : heap !! _ = None |- _ =>
      apply lookup_ge_None_1 in H; fold (parentpos pos) in H; pos_lia end.
  - (* newitem < parent: the parent moves down *)
    rename parent into par.
    match goal with H : heap !! _ = Some _ |- _ =>
      fold (parentpos pos) in H; rename H into Hpar end.
    match goal with H : lt newitem par = true |- _ => rename H into Hlt end.
    fold (parentpos pos) in *.
    destruct Hinv as [H1 H2].
    match goal with IH : _ → _ → _ → _ → _ ∧ _ |- _ =>
      destruct IH as [IHheap IHperm] end.
    + done.
    + rewrite length_insert. pos_lia.
    + split.
      * intros i Hi Hpi x p Hpos Hx Hp.
        apply list_lookup_insert_Some in Hx as [(<- & <- & _)|[Hne Hx]]; [done|].
        apply list_lookup_insert_Some in Hp as [(Heq' & <- & _)|[Hne' Hp]].
        -- apply (H2 i x par); try done; lia.
        -- by apply (H1 i).
      * intros c x g Hpos Hc Hpc Hx Hg.
        rewrite list_lookup_insert_ne in Hg by pos_lia.
        assert (Hgp : le g par).
        { apply (H1 (parentpos pos)); try done; pos_lia. }
        apply list_lookup_insert_Some in Hx as [(<- & <- & _)|[Hne Hx]]; [done|].
        apply (le_trans _ par); [done|].
        apply (H1 c); try done; [pos_lia|]. by rewrite Hpc.
    + intros c x Hc Hpc Hx.
      apply list_lookup_insert_Some in Hx as [(<- & <- & _)|[Hne Hx]];
        [by apply lt_le|].
      apply (le_trans _ par); [by apply lt_le|].
      apply (H1 c); try done; [pos_lia|]. by rewrite Hpc.
    + split; [done|]. rewrite IHperm.
      apply insert_move_perm; [pos_lia|done..].
  - (* not (newitem < parent): newitem stays *)
    rename parent into par.
    match goal with H : heap !! _ = Some _ |- _ =>
      fold (parentpos pos) in H; rename H into Hpar end.
    split; [|done]. apply place_is_heap; [done..|].
    intros par' _ Hpar'. by simplify_eq.
Qed.

Lemma is_heap_nil : is_heap lt [].
Proof. intros i x p _ Hx. by rewrite lookup_nil in Hx. Qed.

Lemma heappush_spec (heap : list A) (item : A) :
  is_heap lt heap →
  is_heap lt (heappush lt heap item) ∧ heappush lt heap item ≡ₚ item :: heap.
Proof.
  intros Hheap. unfold heappush, siftdown.
  replace (length (heap ++ [item]) - 1)%nat with (length heap)
    by (rewrite length_app; simpl; lia).
  rewrite list_lookup_middle by done.
  destruct (siftdown_loop_spec (heap ++ [item]) 0 item (length heap)) as [H1 H2].
  - done.
  - rewrite length_app. simpl. lia.
  - split.
    + intros i Hi Hpi x p Hpos Hx Hp.
      assert (i < length heap)%nat.
      { apply lookup_lt_Some in Hx. rewrite length_app in Hx. simpl in Hx. lia. }
      rewrite lookup_app_l in Hx by done.
      rewrite lookup_app_l in Hp by pos_lia. by apply (Hheap i).
    + intros c x g Hpos Hc Hpc Hx _.
      apply lookup_lt_Some in Hx. rewrite length_app in Hx. simpl in Hx. pos_lia.
  - intros c x Hc Hpc Hx.
    apply lookup_lt_Some in Hx. rewrite length_app in Hx. simpl in Hx. pos_lia.
  - split; [done|]. rewrite H2.
    rewrite list_insert_id by by apply list_lookup_middle.
    by rewrite Permutation_app_comm.
Qed.

(** The child that [_siftup] moves up is not above its sibling. *)
Lemma smaller_child_spec (h : list A) (pos : nat) :
  (2 * pos + 1 < length h)%nat →
  (smaller_child lt (length h) h (2 * pos + 1) = (2 * pos + 1)%nat ∨
   smaller_child lt (length h) h (2 * pos + 1) = (2 * pos + 2)%nat) ∧
  (smaller_child lt (length h) h (2 * pos + 1) < length h)%nat ∧
  ∀ c x y, (0 < c)%nat → parentpos c = pos → h !! c = Some x →
           h !! smaller_child lt (length h) h (2 * pos + 1) = Some y → le y x.
Proof.
  intros Hlen. unfold smaller_child. case_bool_decide as Hr.
  - destruct (lookup_lt_is_Some_2 h (2 * pos + 1)%nat Hlen) as [l Hl].
    destruct (lookup_lt_is_Some_2 h (2 * pos + 1 + 1)%nat Hr) as [r Hrr].
    rewrite Hl, Hrr. destruct (lt l r) eqn:Hlr.
    + split; [by left|]. split; [done|].
      intros c x y Hc Hpc Hx Hy. simplify_eq.
      pose proof (parent_spec c Hc) as [Hc'|Hc'].
      * rewrite Hc' in Hx. simplify_eq. apply le_refl.
      * replace c with (2 * parentpos c + 1 + 1)%nat in Hx by lia. simplify_eq.
        by apply lt_le.
    + split; [right; lia|]. split; [done|].
      intros c x y Hc Hpc Hx Hy. simplify_eq.
      pose proof (parent_spec c Hc) as [Hc'|Hc'].
      * rewrite Hc' in Hx. by simplify_eq.
      * replace c with (2 * parentpos c + 1 + 1)%nat in Hx by lia. simplify_eq.
        apply le_refl.
  - split; [by left|]. split; [done|].
    intros c x y Hc Hpc Hx Hy.
    pose proof (parent_spec c Hc) as [Hc'|Hc'].
    + rewrite Hc', Hpc in Hx. simplify_eq. apply le_refl.
    + apply lookup_lt_Some in Hx. lia.
Qed.

Lemma siftup_loop_spec (endpos : nat) (heap : list A) (pos : nat) :
  endpos = length heap → (pos < length heap)%nat → hole_inv lt heap pos →
  ∀ h' pos', siftup_loop lt endpos heap pos = (h', pos') →
    length h' = length heap ∧ (pos' < length heap)%nat ∧ hole_inv lt h' pos' ∧
    (length heap ≤ 2 * pos' + 1)%nat ∧
    ∀ n, <[pos' := n]> h' ≡ₚ <[pos := n]> heap.
Proof.
  funelim (siftup_loop lt endpos heap pos); intros -> Hlen Hinv h' pos' Hres;
    try (match goal with H : heap !! _ = None |- _ =>
           apply lookup_ge_None_1 in H;
           pose proof (smaller_child_spec heap pos ltac:(lia)) as (_ & ? & _); lia
         end).
  - simplify_eq. repeat split; try done; try apply Hinv. lia.
  - destruct (smaller_child_spec heap pos ltac:(lia)) as (Hsc & Hsclt & Hmin).
    set (sc := smaller_child lt (length heap) heap (2 * pos + 1)) in *.
    match goal with H : heap !! sc = Some _ |- _ => rename H into Hchild end.
    destruct Hinv as [H1 H2].
    assert (Hpsc : parentpos sc = pos).
    { destruct Hsc as [->| ->]; [apply parent_left|apply parent_right]. }
    match goal with IH : _ → _ → _ → ∀ _ _, _ → _ |- _ =>
      destruct (IH (eq_sym (length_insert _ _ _))) with (h' := h') (pos' := pos')
        as (IHlen & IHpos & IHinv & IHleaf & IHperm) end.
    + rewrite length_insert. lia.
    + split.
      * intros i Hi Hpi x p Hpos Hx Hp.
        apply list_lookup_insert_Some in Hx as [(<- & <- & _)|[Hne Hx]].
        -- rewrite list_lookup_insert_ne in Hp by pos_lia.
           apply (H2 sc child p); try done; lia.
        -- apply list_lookup_insert_Some in Hp as [(Heq' & <- & _)|[Hne' Hp]].
           ++ by apply (Hmin i).
           ++ by apply (H1 i).
      * intros c x g Hpos Hc Hpc Hx Hg.
        rewrite Hpsc in Hg. rewrite list_lookup_insert_eq in Hg by done.
        rewrite list_lookup_insert_ne in Hx by pos_lia. simplify_eq.
        apply (H1 c); try done; [pos_lia|lia|by rewrite Hpc].
    + done.
    + rewrite length_insert in IHlen, IHpos, IHleaf.
      split; [done|]. split; [done|]. split; [done|]. split; [done|].
      intros n. rewrite IHperm. apply insert_move_perm; [lia|done..].
Qed.

Lemma siftup_spec (heap : list A) :
  heap ≠ [] → hole_inv lt heap 0 →
  is_heap lt (siftup lt heap 0) ∧ siftup lt heap 0 ≡ₚ heap.
Proof.
  intros Hne Hinv. unfold siftup.
  destruct heap as [|newitem heap0] eqn:Hheap; [done|]. rewrite <- Hheap in *.
  replace (heap !! 0%nat) with (Some newitem) by by rewrite Hheap.
  destruct (siftup_loop lt (length heap) heap 0) as [h' pos'] eqn:Hloop.
  apply siftup_loop_spec in Hloop as (Hlen & Hpos & Hinv' & Hleaf & Hperm);
    [|done|rewrite Hheap; simpl; lia|done].
  unfold siftdown. rewrite list_lookup_insert_eq by lia.
  destruct (siftdown_loop_spec (<[pos' := newitem]> h') 0 newitem pos') as [H1 H2].
  - done.
  - rewrite length_insert. lia.
  - by apply hole_inv_insert.
  - intros c x Hc Hpc Hx. apply lookup_lt_Some in Hx.
    rewrite length_insert in Hx. pos_lia.
  - split; [done|]. rewrite H2, list_insert_insert_eq, Hperm.
    by rewrite Hheap.
Qed.

(** The root of a heap is its least item. *)
Lemma heap_root_min (h : list A) (r : A) :
  is_heap lt h → h !! 0%nat = Some r → ∀ i x, h !! i = Some x → le r x.
Proof.
  intros Hheap Hr i. induction (lt_wf i) as [i _ IH]. intros x Hx.
  destruct (decide (i = 0%nat)) as [->|Hi].
  - simplify_eq. apply le_refl.
  - assert (parentpos i < i)%nat by pos_lia.
    destruct (lookup_lt_is_Some_2 h (parentpos i)) as [p Hp].
    { apply lookup_lt_Some in Hx. lia. }
    apply (le_trans _ p); [by apply (IH (parentpos i))|].
    apply (Hheap i); [lia|done..].
Qed.

Lemma heappop_spec (heap : list A) :
  is_heap lt heap → heap ≠ [] →
  ∃ x h', heappop lt heap = Return (x, h') ∧ is_heap lt h' ∧ x :: h' ≡ₚ heap ∧
          ∀ y, y ∈ heap → le x y.
Proof.
  intros Hheap Hne. unfold heappop, list_pop.
  destruct (last heap) as [lastelt|] eqn:Hlast; [|by apply last_None in Hlast].
  apply last_Some in Hlast as [heap0 ->]. rewrite removelast_last. simpl.
  destruct heap0 as [|returnitem rest].
  - exists lastelt, []. split; [done|]. split; [apply is_heap_nil|]. split; [done|].
    intros y ->%list_elem_of_singleton. apply le_refl.
  - exists returnitem, (siftup lt (lastelt :: rest) 0). simpl. split; [done|].
    destruct (siftup_spec (lastelt :: rest)) as [H1 H2]; [done| |].
    + split; [|intros; lia].
      intros i Hi Hpi x p Hpos Hx Hp.
      destruct i as [|i]; [done|]. simpl in Hx.
      destruct (parentpos (S i)) as [|q] eqn:Hq; [done|]. simpl in Hp.
      apply (Hheap (S i)); [done|by apply lookup_app_l_Some|].
      rewrite Hq. by apply lookup_app_l_Some.
    + split; [done|]. split.
      * rewrite H2. simpl. constructor. apply Permutation_cons_append.
      * intros y Hy. apply list_elem_of_lookup in Hy as [i Hi].
        by apply (heap_root_min _ returnitem Hheap eq_refl i).
Qed.

Lemma heappop_all_spec (n : nat) (heap : list A) :
  length heap = n → is_heap lt heap →
  ∃ out, heappop_all lt n heap = Return out ∧ out ≡ₚ heap ∧ StronglySorted le out.
Proof.
  revert heap. induction n as [|n IH]; intros heap Hlen Hheap.
  - destruct heap; [|done]. exists []. repeat split; [done|constructor].
  - destruct (heappop_spec heap Hheap) as (x & h' & Hpop & Hheap' & Hperm & Hmin).
    { by destruct heap. }
    destruct (IH h') as (out & Hout & Hperm' & Hsorted); [|done|].
    { apply Permutation_length in Hperm. simpl in Hperm. lia. }
    exists (x :: out). simpl. rewrite Hpop. simpl. rewrite Hout. simpl.
    split; [done|]. split; [by rewrite Hperm', Hperm|].
    constructor; [done|]. apply Forall_forall. intros y Hy.
    apply Hmin. rewrite <- Hperm, <- Hperm'. by right.
Qed.

Lemma heappush_all_spec (data heap : list A) :
  is_heap lt heap →
  is_heap lt (foldl (heappush lt) heap data) ∧
  foldl (heappush lt) heap data ≡ₚ heap ++ data.
Proof.
  revert heap. induction data as [|value data IH]; intros heap Hheap; simpl.
  - by rewrite app_nil_r.
  - destruct (heappush_spec heap value Hheap) as [H1 H2].
    destruct (IH _ H1) as [H3 H4]. split; [done|].
    by rewrite H4, H2, <- Permutation_middle.
Qed.

Lemma heapsort_with_spec (data : list A) :
  ∃ out, heapsort_with lt data = Return out ∧ out ≡ₚ data ∧ StronglySorted le out.
Proof.
  unfold heapsort_with.
  destruct (heappush_all_spec data [] is_heap_nil) as [H1 H2].
  destruct (heappop_all_spec _ _ eq_refl H1) as (out & Hout & Hperm & Hsorted).
  exists out. split; [done|]. split; [|done]. by rewrite Hperm, H2.
Qed.

End HeapFacts.

(** * The order of the tuples *)

Lemma tuple_lt_irrefl (a : Trip) : tuple_lt a a = false.
Proof. induction a as [|x a IH]; simpl; [done|]. by case_decide. Qed.

Lemma tuple_lt_trans (a b c : Trip) :
  tuple_lt a b = true → tuple_lt b c = true → tuple_lt a c = true.
Proof.
  revert b c. induction a as [|x a IH]; intros [|y b] [|z c]; simpl; try done.
  repeat case_decide; subst; try done; rewrite ?bool_decide_eq_true; try lia.
  apply IH.
Qed.

Lemma tuple_lt_total (a b : Trip) :
  tuple_lt a b = false → tuple_lt b a = false → a = b.
Proof.
  revert b. induction a as [|x a IH]; intros [|y b]; simpl; try done.
  repeat case_decide; subst; try done; rewrite ?bool_decide_eq_false; try lia.
  intros Hab Hba. f_equal. by apply IH.
Qed.

(** Sortedness in the tuples' order, position by position. *)
Lemma ordered_tuples_of_sorted (l : list Trip) :
  StronglySorted tuple_le l → ordered_tuples l.
Proof.
  intros Hs. induction Hs as [|a l Hs IH Hall]; intros i x y Hx Hy.
  - by rewrite lookup_nil in Hx.
  - destruct i as [|i]; simplify_eq/=.
    + rewrite Forall_forall in Hall. apply Hall. by eapply list_elem_of_lookup_2.
    + by apply (IH i).
Qed.

(** [heapsort] returns, and its result is the input sorted by the tuples'
    own order. *)
Lemma heapsort_spec (data : list Trip) (key_func : Trip → Z) :
  ∃ out, heapsort data key_func = Return out ∧ out ≡ₚ data ∧ ordered_tuples out.
Proof.
  destruct (heapsort_with_spec tuple_lt tuple_lt_irrefl tuple_lt_trans tuple_lt_total data)
    as (out & Hout & Hperm & Hsorted).
  exists out. split; [done|]. split; [done|]. by apply ordered_tuples_of_sorted.
Qed.

(** * The claims on the sorting library *)

(** The three sorts that compare through the key selector return a list
    ordered by it, whatever the input and the selector. *)
Lemma key_sorts_ordered {A : Type} (key : A → Z) (data : list A) :
  ordered_by key (bubble_sort key data) ∧
  ordered_by key (merge_sort key data) ∧
  ordered_by key (quicksort key data).
Proof.
  split; [apply bubble_sort_ordered|].
  split; [apply merge_sort_ordered|apply quicksort_ordered].
Qed.

(** The example of the specification: totals 12.0, 3.5, 3.5 and 40.0 (in
    tenths, field 3 of the trips), sorted by the total.  The three key-driven
    sorts give the totals 3.5, 3.5, 12.0 and 40.0; bubble sort keeps the two
    trips of total 3.5 in their input order, merge sort and quicksort do not.
    [heapsort] orders the trips by their first field. *)
Example example_sort_by_total :
  let data := [[4; 100; 20; 120; 30; 1]; [3; 30; 5; 35; 20; 1];
               [2; 30; 5; 35; 25; 1]; [1; 350; 50; 400; 40; 2]] in
  bubble_sort (item 3) data =
    [[3; 30; 5; 35; 20; 1]; [2; 30; 5; 35; 25; 1];
     [4; 100; 20; 120; 30; 1]; [1; 350; 50; 400; 40; 2]] ∧
  merge_sort (item 3) data =
    [[2; 30; 5; 35; 25; 1]; [3; 30; 5; 35; 20; 1];
     [4; 100; 20; 120; 30; 1]; [1; 350; 50; 400; 40; 2]] ∧
  quicksort (item 3) data =
    [[2; 30; 5; 35; 25; 1]; [3; 30; 5; 35; 20; 1];
     [4; 100; 20; 120; 30; 1]; [1; 350; 50; 400; 40; 2]] ∧
  heapsort data (item 3) =
    Return [[1; 350; 50; 400; 40; 2]; [2; 30; 5; 35; 25; 1];
            [3; 30; 5; 35; 20; 1]; [4; 100; 20; 120; 30; 1]].
Proof. repeat split; by vm_compute. Qed.

(** C1, at the input on which the code departs from it: two trips whose
    tuples are in increasing order and whose totals (field 3, the key of the
    benchmark) are in decreasing order.  [heapsort] returns them as they are,
    so its output is not ordered by the key selector. *)
Theorem heapsort_not_ordered_by_key :
  heapsort [[1; 10; 2; 12; 30; 1]; [2; 3; 0; 3; 20; 1]] (item 3) =
    Return [[1; 10; 2; 12; 30; 1]; [2; 3; 0; 3; 20; 1]] ∧
  ¬ ordered_by (item 3) [[1; 10; 2; 12; 30; 1]; [2; 3; 0; 3; 20; 1]].
Proof.
  split; [by vm_compute|].
  intros Hord.
  specialize (Hord 0%nat [1; 10; 2; 12; 30; 1] [2; 3; 0; 3; 20; 1] eq_refl eq_refl).
  vm_compute in Hord. by apply Hord.
Qed.

(** C4 fails for merge sort: on two trips with the same total (field 2, the
    key of [measure_sorting_algorithms]) the merge takes the right one first,
    and the output has them in the other order. *)
Lemma merge_sort_not_stable :
  merge (item 2) [[1; 10; 12; 30; 600]] [[2; 10; 12; 25; 700]] =
    [[2; 10; 12; 25; 700]; [1; 10; 12; 30; 600]] ∧
  merge_sort (item 2) [[1; 10; 12; 30; 600]; [2; 10; 12; 25; 700]] =
    [[2; 10; 12; 25; 700]; [1; 10; 12; 30; 600]] ∧
  ¬ stable_by (item 2) [[1; 10; 12; 30; 600]; [2; 10; 12; 25; 700]]
      (merge_sort (item 2) [[1; 10; 12; 30; 600]; [2; 10; 12; 25; 700]]).
Proof.
  split; [by vm_compute|]. split; [by vm_compute|].
  intros Hstable. specialize (Hstable 12). vm_compute in Hstable. done.
Qed.

(** C4 as amended: bubble sort is stable; the merge step of merge sort
    takes the right half's element first when the heads tie, and merge sort
    returns the elements that carry the same key in the reverse of their
    input order. *)
Theorem bubble_stable_merge_reverses {A : Type} (key : A → Z) (data : list A) :
  stable_by key data (bubble_sort key data) ∧
  (∀ x y l r, key x = key y → merge key (x :: l) (y :: r) = y :: merge key (x :: l) r) ∧
  (∀ v, filter (λ x, key x = v) (merge_sort key data) =
        reverse (filter (λ x, key x = v) data)).
Proof.
  split; [apply bubble_sort_stable|].
  split; [intros x y l r; apply merge_tie|].
  intros v. apply merge_sort_filter_key.
Qed.

Lemma bubble_stable_merge_reverses_witness :
  item 2 [1; 10; 12; 30; 600] = item 2 [2; 10; 12; 25; 700] ∧
  merge (item 2) [[1; 10; 12; 30; 600]] [[2; 10; 12; 25; 700]] =
    [2; 10; 12; 25; 700] :: merge (item 2) [[1; 10; 12; 30; 600]] [].
Proof.
  split; [reflexivity|].
  apply (bubble_stable_merge_reverses (item 2) []). reflexivity.
Defined.

(** C5: each of the four algorithms returns the records of its input, each
    as many times as it occurs there. *)
Theorem sorts_permute (key : Trip → Z) (data : list Trip) :
  bubble_sort key data ≡ₚ data ∧
  merge_sort key data ≡ₚ data ∧
  quicksort key data ≡ₚ data ∧
  ∃ out, heapsort data key = Return out ∧ out ≡ₚ data.
Proof.
  split; [apply bubble_sort_perm|]. split; [apply merge_sort_perm|].
  split; [apply quicksort_perm|].
  destruct (heapsort_spec data key) as (out & Hout & Hperm & _). by exists out.
Qed.

(** C9: the result of [heapsort] is the same for any two key functions, and
    it is ordered by the tuples' own order. *)
Theorem heapsort_key_independent (data : list Trip) (k1 k2 : Trip → Z) :
  heapsort data k1 = heapsort data k2 ∧
  ∃ out, heapsort data k1 = Return out ∧ out ≡ₚ data ∧ ordered_tuples out.
Proof.
  split; [reflexivity|]. apply heapsort_spec.
Qed.

(** * The timing harness *)

(** C8 fails as stated: [time.time()] is the wall clock, and when it is set
    back between the two readings the harness returns a negative duration,
    here on the empty sequence. *)
Lemma harness_negative_duration :
  time_sorting_algorithm quicksort_alg [] (item 3)
    {| readings := λ i, if (i =? 0)%nat then 10%Q else 9%Q; reads := 0; invocations := 0 |} =
  Return ((-1)%Q, [],
          {| readings := λ i, if (i =? 0)%nat then 10%Q else 9%Q; reads := 2; invocations := 1 |}) ∧
  ¬ (0 <= -1)%Q.
Proof. split; [reflexivity|]. intros H. by vm_compute in H. Qed.

(** One run of the harness in world [w]: two clock readings around one
    call of the algorithm, whose exception, if any, is not caught. *)
Lemma time_sorting_algorithm_run {D K R : Type}
    (algorithm : D → K → outcome R) (data : D) (key_func : K) (w : World) :
  time_sorting_algorithm algorithm data key_func w =
    match algorithm data key_func with
    | Return output => Return (elapsed w, output, after_run w)
    | Raise e => Raise e
    end.
Proof.
  unfold time_sorting_algorithm, bind, call, time_time, ret. simpl.
  by destruct (algorithm data key_func).
Qed.

(** C8 as amended: when the algorithm returns, the harness returns the
    difference of the two clock readings together with exactly the
    algorithm's result, after one invocation; that difference is not negative
    whenever the clock did not go back between the readings; when the
    algorithm raises, so does the harness. *)
Theorem time_sorting_algorithm_spec {D K R : Type}
    (algorithm : D → K → outcome R) (data : D) (key_func : K) (w : World) :
  time_sorting_algorithm algorithm data key_func w =
    match algorithm data key_func with
    | Return output => Return (elapsed w, output, after_run w)
    | Raise e => Raise e
    end ∧
  ((readings w (reads w) <= readings w (S (reads w)))%Q → (0 <= elapsed w)%Q).
Proof.
  split; [apply time_sorting_algorithm_run|].
  intros Hmono. unfold elapsed. by apply Qle_minus_iff in Hmono.
Qed.

Lemma time_sorting_algorithm_spec_witness :
  (0 <= elapsed {| readings := λ i, inject_Z (Z.of_nat i); reads := 0; invocations := 0 |})%Q.
Proof.
  apply (time_sorting_algorithm_spec quicksort_alg [] (item 3)
           {| readings := λ i, inject_Z (Z.of_nat i); reads := 0; invocations := 0 |}).
  vm_compute. discriminate.
Defined.

(** * The benchmark driver *)

(** What the driver binds, for all datasets: the three quicksort results
    are the sorts of the three datasets; the three heapsort results are all
    the sort of the small one. *)
Lemma measure_quick_and_heap_spec (trips_small trips_medium trips_large : list Trip)
    (w : World) :
  ∃ m w',
    measure_quick_and_heap trips_small trips_medium trips_large w = Return (m, w') ∧
    qs_sorted_small m = quicksort (item 3) trips_small ∧
    qs_sorted_medium m = quicksort (item 3) trips_medium ∧
    qs_sorted_large m = quicksort (item 3) trips_large ∧
    heapsort trips_small (item 3) = Return (hs_sorted_small m) ∧
    heapsort trips_small (item 3) = Return (hs_sorted_medium m) ∧
    heapsort trips_small (item 3) = Return (hs_sorted_large m).
Proof.
  destruct (heapsort_spec trips_small (item 3)) as (out & Hout & _).
  unfold measure_quick_and_heap, bind.
  repeat (rewrite time_sorting_algorithm_run; try rewrite Hout;
          unfold quicksort_alg; cbn [outcome_bind]).
  unfold ret. eexists _, _. split; [reflexivity|]. done.
Qed.

(** C2, at an input on which the code departs from it: the medium and the
    large dataset hold one trip each, different from the trip of the small
    one.  The heapsort results reported for the medium and the large scale
    are the sorted small dataset, not the sorted medium and large ones. *)
Theorem heapsort_benchmarks_reuse_small :
  ∃ m w',
    measure_quick_and_heap [[1; 10; 2; 12; 30; 1]] [[2; 20; 0; 20; 25; 2]]
      [[3; 30; 5; 35; 20; 3]]
      {| readings := λ i, inject_Z (Z.of_nat i); reads := 0; invocations := 0 |} =
      Return (m, w') ∧
    hs_sorted_medium m = [[1; 10; 2; 12; 30; 1]] ∧
    hs_sorted_large m = [[1; 10; 2; 12; 30; 1]] ∧
    heapsort [[2; 20; 0; 20; 25; 2]] (item 3) = Return [[2; 20; 0; 20; 25; 2]] ∧
    heapsort [[3; 30; 5; 35; 20; 3]] (item 3) = Return [[3; 30; 5; 35; 20; 3]] ∧
    qs_sorted_medium m = [[2; 20; 0; 20; 25; 2]] ∧
    qs_sorted_large m = [[3; 30; 5; 35; 20; 3]].
Proof. eexists _, _. split; [by vm_compute|]. by vm_compute. Qed.

(** * The trip graph *)

Lemma elem_of_neighbors (g : Graph) (u v : Z) :
  v ∈ neighbors g u ↔ ∃ nbrs, adj g !! u = Some nbrs ∧ is_Some (nbrs !! v).
Proof.
  unfold neighbors. destruct (adj g !! u) as [nbrs|].
  - rewrite elem_of_dom. naive_solver.
  - set_solver.
Qed.

(** Well-formedness, spelled out. *)
Lemma graph_wf_alt (g : Graph) :
  graph_wf g ↔
  NoDup (node_order g) ∧
  (∀ u, u ∈ node_order g ↔ is_Some (adj g !! u)) ∧
  (∀ u v, edge g u v → edge g v u).
Proof.
  unfold graph_wf. split.
  - intros (Hnd & Hdom & Hsym). split; [done|]. split.
    + intros u. by rewrite <- elem_of_dom, <- Hdom, elem_of_list_to_set.
    + intros u v Huv. apply elem_of_neighbors in Huv as (nbrs & Hu & Hv).
      apply (map_Forall_lookup_1 _ _ _ _ Hsym Hu). by apply elem_of_dom.
  - intros (Hnd & Hdom & Hsym). split; [done|]. split.
    + apply set_eq. intros u. by rewrite elem_of_list_to_set, elem_of_dom.
    + intros u nbrs Hu v Hv. apply Hsym. apply elem_of_neighbors.
      exists nbrs. split; [done|]. by apply elem_of_dom.
Qed.

Lemma edge_add_node (n : Z) (zone_name : string) (g : Graph) (u v : Z) :
  edge (add_node n zone_name g) u v ↔ edge g u v.
Proof.
  unfold edge, neighbors, add_node. destruct (adj g !! n) eqn:Hn; simpl; [done|].
  destruct (decide (u = n)) as [->|Hne].
  - rewrite lookup_insert_eq, Hn. set_solver.
  - by rewrite lookup_insert_ne.
Qed.

Lemma edge_touch_node (n : Z) (g : Graph) (u v : Z) :
  edge (touch_node n g) u v ↔ edge g u v.
Proof.
  unfold edge, neighbors, touch_node. destruct (adj g !! n) eqn:Hn; simpl; [done|].
  destruct (decide (u = n)) as [->|Hne].
  - rewrite lookup_insert_eq, Hn. set_solver.
  - by rewrite lookup_insert_ne.
Qed.

Lemma touch_node_is_node (n : Z) (g : Graph) (u : Z) :
  is_Some (adj (touch_node n g) !! u) ↔ u = n ∨ is_Some (adj g !! u).
Proof.
  unfold touch_node. destruct (adj g !! n) eqn:Hn; simpl.
  - split; [by right|]. intros [->|?]; [by rewrite Hn|done].
  - rewrite lookup_insert_is_Some. destruct (decide (n = u)); naive_solver.
Qed.

Lemma neighbors_touch_node (n : Z) (g : Graph) (u : Z) :
  neighbors (touch_node n g) u = neighbors g u.
Proof. apply set_eq. intros v. apply (edge_touch_node n g u v). Qed.

(** The neighbours after [add_edge]: the old ones and the other endpoint. *)
Lemma neighbors_add_edge (p d c : Z) (g : Graph) (u : Z) :
  neighbors (add_edge p d c g) u =
  neighbors g u ∪ (if decide (u = p) then {[d]} else ∅)
                ∪ (if decide (u = d) then {[p]} else ∅).
Proof.
  rewrite <- (neighbors_touch_node p g), <- (neighbors_touch_node d (touch_node p g)).
  unfold add_edge. set (g' := touch_node d (touch_node p g)).
  assert (Hp : is_Some (adj g' !! p)).
  { apply touch_node_is_node. right. apply touch_node_is_node. by left. }
  assert (Hd : is_Some (adj g' !! d)) by (apply touch_node_is_node; by left).
  destruct Hp as [np Hp]. destruct Hd as [nd Hd]. clearbody g'.
  unfold neighbors. cbn [adj]. rewrite !lookup_alter.
  destruct (decide (d = u)) as [Hdu|Hdu].
  - subst u. rewrite Hd. destruct (decide (p = d)) as [Hpd|Hpd].
    + subst d. rewrite Hp. simpl. rewrite !dom_insert_L.
      rewrite decide_True by done. set_solver.
    + simpl. rewrite dom_insert_L.
      rewrite decide_False by done. rewrite decide_True by done. set_solver.
  - destruct (decide (p = u)) as [Hpu|Hpu].
    + subst u. rewrite Hp. simpl. rewrite dom_insert_L.
      rewrite decide_True by done. rewrite decide_False by done. set_solver.
    + rewrite !decide_False by done. destruct (adj g' !! u); set_solver.
Qed.

(** The edges after [add_edge]: the old ones and the new one, both ways. *)
Lemma edge_add_edge (p d c : Z) (g : Graph) (u v : Z) :
  edge (add_edge p d c g) u v ↔ edge g u v ∨ (u = p ∧ v = d) ∨ (u = d ∧ v = p).
Proof.
  unfold edge. rewrite neighbors_add_edge. repeat case_decide; set_solver.
Qed.

(** The keys of [trip_counts]. *)
Lemma count_trip_keys (trip_counts : list ((Z * Z) * Z)) (k k' : Z * Z) :
  k' ∈ (count_trip trip_counts k).*1 ↔ k' = k ∨ k' ∈ trip_counts.*1.
Proof.
  induction trip_counts as [|[k0 c] rest IH]; simpl.
  - rewrite list_elem_of_singleton. set_solver.
  - case_decide; simpl; rewrite !elem_of_cons; [naive_solver|].
    rewrite IH. naive_solver.
Qed.

(** Only pairs of ids different from 0 are counted. *)
Lemma count_trips_keys_nonzero (taxi_data : list (option Z * option Z)) (p d : Z) :
  (p, d) ∈ (count_trips taxi_data).*1 → p ≠ 0 ∧ d ≠ 0.
Proof.
  unfold count_trips.
  assert (Hgen : ∀ acc : list ((Z * Z) * Z),
    (∀ p d, (p, d) ∈ acc.*1 → p ≠ 0 ∧ d ≠ 0) →
    (p, d) ∈ (foldl (λ trip_counts '(pickup, dropoff),
                match pickup, dropoff with
                | Some p, Some d =>
                    if truthy pickup && truthy dropoff then count_trip trip_counts (p, d)
                    else trip_counts
                | _, _ => trip_counts
                end) acc taxi_data).*1 → p ≠ 0 ∧ d ≠ 0).
  { induction taxi_data as [|[pickup dropoff] rest IH]; intros acc Hacc; simpl.
    - apply Hacc.
    - apply IH. destruct pickup as [p'|], dropoff as [d'|]; try done.
      destruct (truthy (Some p') && truthy (Some d')) eqn:Htr; [|done].
      apply andb_true_iff in Htr as [Hp Hd]. simpl in Hp, Hd.
      apply bool_decide_eq_true in Hp, Hd.
      intros p0 d0 [Heq|Hin]%count_trip_keys; [by simplify_eq|by apply Hacc]. }
  apply Hgen. intros p0 d0 Hin. simpl in Hin. by apply elem_of_nil in Hin.
Qed.

(** A pair with a falsy id leaves [trip_counts] as it is. *)
Lemma count_trips_falsy (pre post : list (option Z * option Z)) (pickup dropoff : option Z) :
  truthy pickup = false ∨ truthy dropoff = false →
  count_trips (pre ++ (pickup, dropoff) :: post) = count_trips (pre ++ post).
Proof.
  intros Hfalsy. unfold count_trips. rewrite !foldl_app. simpl.
  destruct pickup as [p|], dropoff as [d|]; try done.
  destruct Hfalsy as [-> | ->]; [done|]. by rewrite andb_false_r.
Qed.

Lemma truthy_false (x : option Z) : truthy x = false ↔ x = None ∨ x = Some 0.
Proof.
  destruct x as [n|]; simpl; [|naive_solver].
  rewrite bool_decide_eq_false. split.
  - intros Hn. right. f_equal. lia.
  - intros [?|?]; simplify_eq. lia.
Qed.

(** The edges of the graph built: one for each counted pair, both ways. *)
Lemma edge_foldl_add_edge (trip_counts : list ((Z * Z) * Z)) (g : Graph) (u v : Z) :
  edge (foldl (λ g '((pickup, dropoff), count), add_edge pickup dropoff count g)
          g trip_counts) u v ↔
  edge g u v ∨ (u, v) ∈ trip_counts.*1 ∨ (v, u) ∈ trip_counts.*1.
Proof.
  revert g. induction trip_counts as [|[[p d] c] rest IH]; intros g; simpl.
  - set_solver.
  - rewrite IH, edge_add_edge, !elem_of_cons. naive_solver.
Qed.

Lemma edge_foldl_add_node (taxi_zone_lookup : list (Z * string)) (g : Graph) (u v : Z) :
  edge (foldl (λ g '(zone_id, zone_name), add_node zone_id zone_name g)
          g taxi_zone_lookup) u v ↔ edge g u v.
Proof.
  revert g. induction taxi_zone_lookup as [|[n s] rest IH]; intros g; simpl; [done|].
  by rewrite IH, edge_add_node.
Qed.

Lemma edge_build_graph (taxi_data : list (option Z * option Z))
    (taxi_zone_lookup : list (Z * string)) (u v : Z) :
  edge (build_graph taxi_data taxi_zone_lookup) u v ↔
  (u, v) ∈ (count_trips taxi_data).*1 ∨ (v, u) ∈ (count_trips taxi_data).*1.
Proof.
  unfold build_graph. rewrite edge_foldl_add_edge, edge_foldl_add_node.
  unfold edge, neighbors, empty_graph. simpl. rewrite lookup_empty. set_solver.
Qed.

(** The nodes. *)
Lemma node_order_add_edge (p d c : Z) (g : Graph) (n : Z) :
  n ∈ node_order g → n ∈ node_order (add_edge p d c g).
Proof.
  unfold add_edge, touch_node. simpl.
  repeat case_match; simpl; rewrite ?elem_of_app; naive_solver.
Qed.

Lemma node_order_add_node (n : Z) (s : string) (g : Graph) (m : Z) :
  graph_wf g → m = n ∨ m ∈ node_order g → m ∈ node_order (add_node n s g).
Proof.
  intros (_ & Hdom & _)%graph_wf_alt. unfold add_node.
  destruct (adj g !! n) eqn:Hn; simpl.
  - intros [->|?]; [|done]. apply Hdom. by rewrite Hn.
  - rewrite elem_of_app, list_elem_of_singleton. naive_solver.
Qed.

(** Every graph built by the program is well formed. *)
Lemma graph_wf_empty : graph_wf empty_graph.
Proof. apply (bool_decide_unpack _). by vm_compute. Qed.

Lemma graph_wf_new_node (n : Z) (g : Graph) (names : gmap Z string) :
  graph_wf g → adj g !! n = None →
  graph_wf {| node_order := node_order g ++ [n]; node_name := names;
              adj := <[n := ∅]> (adj g) |}.
Proof.
  intros (Hnd & Hdom & Hsym)%graph_wf_alt Hn. apply graph_wf_alt. simpl.
  split; [|split].
  - apply NoDup_app. split; [done|]. split; [|apply NoDup_singleton].
    intros x Hx ->%list_elem_of_singleton. apply Hdom in Hx. rewrite Hn in Hx.
    by apply is_Some_None in Hx.
  - intros u. rewrite elem_of_app, list_elem_of_singleton, lookup_insert_is_Some, Hdom.
    destruct (decide (n = u)); naive_solver.
  - assert (Hedge : ∀ u v,
      edge {| node_order := node_order g ++ [n]; node_name := names;
              adj := <[n := ∅]> (adj g) |} u v ↔ edge g u v).
    { intros u v. unfold edge, neighbors. simpl.
      destruct (decide (u = n)) as [->|Hne].
      - rewrite lookup_insert_eq, Hn. set_solver.
      - by rewrite lookup_insert_ne. }
    intros u v. rewrite !Hedge. apply Hsym.
Qed.

Lemma graph_wf_rename (g : Graph) (names : gmap Z string) :
  graph_wf g →
  graph_wf {| node_order := node_order g; node_name := names; adj := adj g |}.
Proof. done. Qed.

Lemma graph_wf_add_node (n : Z) (zone_name : string) (g : Graph) :
  graph_wf g → graph_wf (add_node n zone_name g).
Proof.
  intros Hwf. unfold add_node. destruct (adj g !! n) eqn:Hn.
  - by apply graph_wf_rename.
  - by apply graph_wf_new_node.
Qed.

Lemma graph_wf_touch_node (n : Z) (g : Graph) : graph_wf g → graph_wf (touch_node n g).
Proof.
  intros Hwf. unfold touch_node. destruct (adj g !! n) eqn:Hn; [done|].
  by apply graph_wf_new_node.
Qed.

Lemma graph_wf_add_edge (p d c : Z) (g : Graph) : graph_wf g → graph_wf (add_edge p d c g).
Proof.
  intros Hwf. apply graph_wf_alt. split; [|split].
  - apply (graph_wf_touch_node p), (graph_wf_touch_node d) in Hwf.
    apply graph_wf_alt in Hwf as (Hnd & _). done.
  - intros u. unfold add_edge. simpl. rewrite !lookup_alter_is_Some.
    apply (graph_wf_touch_node p), (graph_wf_touch_node d) in Hwf.
    apply graph_wf_alt in Hwf as (_ & Hdom & _). apply Hdom.
  - apply graph_wf_alt in Hwf as (_ & _ & Hsym).
    intros u v. rewrite !edge_add_edge. naive_solver.
Qed.

Lemma graph_wf_build_graph (taxi_data : list (option Z * option Z))
    (taxi_zone_lookup : list (Z * string)) :
  graph_wf (build_graph taxi_data taxi_zone_lookup).
Proof.
  unfold build_graph.
  assert (Hnodes : ∀ g, graph_wf g →
    graph_wf (foldl (λ g '(zone_id, zone_name), add_node zone_id zone_name g)
                g taxi_zone_lookup)).
  { induction taxi_zone_lookup as [|[n s] rest IH]; intros g Hg; simpl; [done|].
    by apply IH, graph_wf_add_node. }
  generalize (count_trips taxi_data). intros trip_counts.
  specialize (Hnodes _ graph_wf_empty). revert Hnodes.
  generalize (foldl (λ g '(zone_id, zone_name), add_node zone_id zone_name g)
                empty_graph taxi_zone_lookup).
  induction trip_counts as [|[[p d] c] rest IH]; intros g Hg; simpl; [done|].
  by apply IH, graph_wf_add_edge.
Qed.

(** Every id of the lookup table is a node of the graph built. *)
Lemma node_order_build_graph (taxi_data : list (option Z * option Z))
    (taxi_zone_lookup : list (Z * string)) (n : Z) :
  n ∈ taxi_zone_lookup.*1 → n ∈ node_order (build_graph taxi_data taxi_zone_lookup).
Proof.
  intros Hn. unfold build_graph.
  assert (Hnodes : ∀ g, graph_wf g → n ∈ taxi_zone_lookup.*1 ∨ n ∈ node_order g →
    n ∈ node_order (foldl (λ g '(zone_id, zone_name), add_node zone_id zone_name g)
                      g taxi_zone_lookup)).
  { clear Hn. induction taxi_zone_lookup as [|[m s] rest IH]; intros g Hg Hin; simpl.
    - destruct Hin as [Hin|Hin]; [by apply elem_of_nil in Hin|done].
    - apply IH; [by apply graph_wf_add_node|].
      simpl in Hin. rewrite elem_of_cons in Hin.
      destruct Hin as [[->|Hin]|Hin]; [right|by left|right];
        apply node_order_add_node; auto. }
  specialize (Hnodes _ graph_wf_empty (or_introl Hn)). revert Hnodes.
  generalize (count_trips taxi_data). intros trip_counts.
  generalize (foldl (λ g '(zone_id, zone_name), add_node zone_id zone_name g)
                empty_graph taxi_zone_lookup).
  induction trip_counts as [|[[p d] c] rest IH]; intros g Hg; simpl; [done|].
  by apply IH, node_order_add_edge.
Qed.

(** ** The weights of the graph built *)

Lemma trip_count_count_trip (trip_counts : list ((Z * Z) * Z)) (k k' : Z * Z) :
  trip_count (count_trip trip_counts k) k' =
  trip_count trip_counts k' + (if decide (k = k') then 1 else 0).
Proof.
  induction trip_counts as [|[k0 c] rest IH]; simpl.
  - repeat case_decide; simplify_eq; lia.
  - repeat case_decide; simplify_eq/=; repeat case_decide; simplify_eq; lia.
Qed.

Lemma trip_count_absent (trip_counts : list ((Z * Z) * Z)) (k : Z * Z) :
  k ∉ trip_counts.*1 → trip_count trip_counts k = 0.
Proof.
  induction trip_counts as [|[k0 c] rest IH]; simpl; [done|].
  rewrite not_elem_of_cons. intros [Hne Hk]. case_decide; [by simplify_eq|by apply IH].
Qed.

Lemma trip_count_present (trip_counts : list ((Z * Z) * Z)) (k : Z * Z) (c : Z) :
  NoDup trip_counts.*1 → (k, c) ∈ trip_counts → trip_count trip_counts k = c.
Proof.
  induction trip_counts as [|[k0 c0] rest IH]; simpl.
  - intros _ Hin. by apply elem_of_nil in Hin.
  - intros [Hk0 Hnd]%NoDup_cons [Heq|Hin]%elem_of_cons.
    + simplify_eq. by rewrite decide_True.
    + case_decide as Hk; [|by apply IH]. subst k0. exfalso. apply Hk0.
      apply list_elem_of_fmap. by exists (k, c).
Qed.

Lemma count_trip_NoDup (trip_counts : list ((Z * Z) * Z)) (k : Z * Z) :
  NoDup trip_counts.*1 → NoDup (count_trip trip_counts k).*1.
Proof.
  induction trip_counts as [|[k0 c] rest IH]; simpl.
  - intros _. apply NoDup_singleton.
  - intros [Hk0 Hnd]%NoDup_cons. case_decide as Hk; simpl.
    + by apply NoDup_cons.
    + apply NoDup_cons. split; [|by apply IH].
      rewrite count_trip_keys. intros [?|?]; by simplify_eq.
Qed.

Lemma count_trip_positive (trip_counts : list ((Z * Z) * Z)) (k : Z * Z) :
  Forall (λ e, 0 < e.2) trip_counts → Forall (λ e, 0 < e.2) (count_trip trip_counts k).
Proof.
  induction 1 as [|[k0 c] rest Hc Hrest IH]; simpl.
  - by repeat constructor.
  - case_decide; constructor; simpl in *; try done. lia.
Qed.

(** The step of the loop that fills [trip_counts]. *)
Lemma count_trips_snoc (taxi_data : list (option Z * option Z)) (pickup dropoff : option Z) :
  count_trips (taxi_data ++ [(pickup, dropoff)]) =
  match pickup, dropoff with
  | Some p, Some d =>
      if truthy pickup && truthy dropoff then count_trip (count_trips taxi_data) (p, d)
      else count_trips taxi_data
  | _, _ => count_trips taxi_data
  end.
Proof. unfold count_trips. by rewrite foldl_app. Qed.

(** [trip_counts] holds each counted pair once, with a positive count. *)
Lemma count_trips_NoDup (taxi_data : list (option Z * option Z)) :
  NoDup (count_trips taxi_data).*1 ∧ Forall (λ e, 0 < e.2) (count_trips taxi_data).
Proof.
  induction taxi_data as [|[pickup dropoff] rest IH] using rev_ind.
  - split; [constructor|constructor].
  - rewrite count_trips_snoc. destruct IH as [IH1 IH2].
    destruct pickup as [p|], dropoff as [d|]; try done.
    destruct (truthy (Some p) && truthy (Some d)); [|done].
    split; [by apply count_trip_NoDup|by apply count_trip_positive].
Qed.

(** The count of a pair of ids different from 0 is the number of the trips
    of the batch in that direction. *)
Lemma trip_count_count_trips (taxi_data : list (option Z * option Z)) (p d : Z) :
  p ≠ 0 → d ≠ 0 →
  trip_count (count_trips taxi_data) (p, d) = trips_from_to taxi_data p d.
Proof.
  intros Hp Hd. unfold trips_from_to.
  induction taxi_data as [|[pickup dropoff] rest IH] using rev_ind; [done|].
  rewrite count_trips_snoc, filter_app, length_app, Nat2Z.inj_add, <- IH.
  rewrite filter_cons, filter_nil.
  destruct (decide ((pickup, dropoff) = (Some p, Some d))) as [Heq|Hne].
  - simplify_eq. simpl. rewrite !bool_decide_eq_true_2 by done. simpl.
    rewrite trip_count_count_trip, decide_True by done. done.
  - assert (Hsame : ∀ p' d', (p', d') ≠ (p, d) →
      trip_count (count_trip (count_trips rest) (p', d')) (p, d) =
      trip_count (count_trips rest) (p, d)).
    { intros p' d' Hne'. rewrite trip_count_count_trip, decide_False by done. lia. }
    destruct pickup as [p'|], dropoff as [d'|]; simpl; try lia.
    destruct (bool_decide (p' ≠ 0) && bool_decide (d' ≠ 0)); simpl; [|lia].
    rewrite Hsame by congruence. lia.
Qed.

Lemma edge_weight_touch_node (n : Z) (g : Graph) (u v : Z) :
  edge_weight (touch_node n g) u v = edge_weight g u v.
Proof.
  unfold edge_weight, touch_node. destruct (adj g !! n) eqn:Hn; simpl; [done|].
  destruct (decide (u = n)) as [->|Hne].
  - by rewrite lookup_insert_eq, Hn.
  - by rewrite lookup_insert_ne.
Qed.

Lemma edge_weight_add_node (n : Z) (zone_name : string) (g : Graph) (u v : Z) :
  edge_weight (add_node n zone_name g) u v = edge_weight g u v.
Proof.
  unfold edge_weight, add_node. destruct (adj g !! n) eqn:Hn; simpl; [done|].
  destruct (decide (u = n)) as [->|Hne].
  - by rewrite lookup_insert_eq, Hn.
  - by rewrite lookup_insert_ne.
Qed.

(** [add_edge] sets the weight of its edge, both ways, and no other. *)
Lemma edge_weight_add_edge (p d c : Z) (g : Graph) (u v : Z) :
  edge_weight (add_edge p d c g) u v =
  if decide ((u = p ∧ v = d) ∨ (u = d ∧ v = p)) then Some c else edge_weight g u v.
Proof.
  rewrite <- (edge_weight_touch_node p g), <- (edge_weight_touch_node d (touch_node p g)).
  unfold add_edge. set (g' := touch_node d (touch_node p g)).
  assert (Hp : is_Some (adj g' !! p)).
  { apply touch_node_is_node. right. apply touch_node_is_node. by left. }
  assert (Hd : is_Some (adj g' !! d)) by (apply touch_node_is_node; by left).
  destruct Hp as [np Hp]. destruct Hd as [nd Hd]. clearbody g'.
  unfold edge_weight. cbn [adj]. rewrite !lookup_alter.
  destruct (decide (d = u)) as [Hdu|Hdu].
  - subst u. destruct (decide (p = d)) as [Hpd|Hpd].
    + subst d. rewrite Hp. simpl. rewrite !lookup_insert.
      destruct (decide (p = v)) as [Hpv|Hpv];
        [rewrite decide_True by naive_solver|rewrite decide_False by naive_solver]; done.
    + rewrite Hd. simpl. rewrite lookup_insert.
      destruct (decide (p = v)) as [Hpv|Hpv];
        [rewrite decide_True by naive_solver|rewrite decide_False by naive_solver]; done.
  - destruct (decide (p = u)) as [Hpu|Hpu].
    + subst u. rewrite Hp. simpl. rewrite lookup_insert.
      destruct (decide (d = v)) as [Hdv|Hdv];
        [rewrite decide_True by naive_solver|rewrite decide_False by naive_solver]; done.
    + by rewrite decide_False by naive_solver.
Qed.

Lemma edge_weight_foldl_other (trip_counts : list ((Z * Z) * Z)) (g : Graph) (u v : Z) :
  (u, v) ∉ trip_counts.*1 → (v, u) ∉ trip_counts.*1 →
  edge_weight (foldl (λ g '((pickup, dropoff), count), add_edge pickup dropoff count g)
                 g trip_counts) u v = edge_weight g u v.
Proof.
  revert g. induction trip_counts as [|[[p d] c] rest IH]; intros g; simpl; [done|].
  rewrite !not_elem_of_cons. intros [Huv Huv'] [Hvu Hvu'].
  rewrite IH, edge_weight_add_edge by done.
  rewrite decide_False; [done|]. intros [[-> ->]|[-> ->]]; done.
Qed.

(** The weight of an edge is the count of the pair that was entered last
    in [trip_counts]; for trips that all go one way, it is their count. *)
Lemma edge_weight_foldl_one_way (trip_counts : list ((Z * Z) * Z)) (g : Graph)
    (u v c : Z) :
  NoDup trip_counts.*1 → (v, u) ∉ trip_counts.*1 ∨ u = v → ((u, v), c) ∈ trip_counts →
  edge_weight (foldl (λ g '((pickup, dropoff), count), add_edge pickup dropoff count g)
                 g trip_counts) u v = Some c.
Proof.
  revert g. induction trip_counts as [|[[p d] c0] rest IH]; intros g; simpl.
  - intros _ _ Hin. by apply elem_of_nil in Hin.
  - intros [Hk0 Hnd]%NoDup_cons Hway Hin.
    destruct (decide ((p, d) = (u, v))) as [Heq|Hne].
    + simplify_eq. assert (c0 = c) as ->.
      { apply elem_of_cons in Hin as [Heq|Hin]; [by simplify_eq|].
        exfalso. apply Hk0. apply list_elem_of_fmap. by exists ((u, v), c). }
      rewrite edge_weight_foldl_other, edge_weight_add_edge; [|done|].
      * rewrite decide_True; [done|by left].
      * destruct Hway as [Hway| ->]; [|done].
        rewrite not_elem_of_cons in Hway. tauto.
    + apply elem_of_cons in Hin as [Heq|Hin]; [by simplify_eq|].
      apply IH; [done| |done].
      destruct Hway as [Hway|Hway]; [|by right].
      left. rewrite not_elem_of_cons in Hway. tauto.
Qed.

(** What the builder does for trips that all go one way: when no trip goes
    from [v] to [u] (or [u] is [v]), the weight of the edge between [u] and [v]
    is the number of the trips from [u] to [v]. *)
Lemma build_graph_weight_one_way (taxi_data : list (option Z * option Z))
    (taxi_zone_lookup : list (Z * string)) (u v : Z) :
  u ≠ 0 → v ≠ 0 → trips_from_to taxi_data v u = 0 ∨ u = v →
  0 < trips_from_to taxi_data u v →
  edge_weight (build_graph taxi_data taxi_zone_lookup) u v =
    Some (trips_from_to taxi_data u v).
Proof.
  intros Hu Hv Hway Hpos. unfold build_graph.
  destruct (count_trips_NoDup taxi_data) as [Hnd Hcounts].
  assert (Hin : ∀ p d, 0 < trip_count (count_trips taxi_data) (p, d) →
    ((p, d), trip_count (count_trips taxi_data) (p, d)) ∈ count_trips taxi_data).
  { intros p d Hc.
    destruct (decide ((p, d) ∈ (count_trips taxi_data).*1)) as [Hk|Hk].
    - apply list_elem_of_fmap in Hk as ([k c] & Hk & Hkc). simpl in Hk. subst k.
      by rewrite (trip_count_present _ _ c Hnd Hkc).
    - rewrite trip_count_absent in Hc by done. lia. }
  apply edge_weight_foldl_one_way; [done| |].
  - destruct Hway as [Hway|Hway]; [|by right]. left.
    intros ([k c] & Hk & Hkc)%list_elem_of_fmap. simpl in Hk. subst k.
    pose proof (trip_count_present _ _ _ Hnd Hkc) as Hc.
    rewrite trip_count_count_trips in Hc by done.
    rewrite Forall_forall in Hcounts. apply Hcounts in Hkc. simpl in Hkc. lia.
  - rewrite <- (trip_count_count_trips taxi_data u v) by done.
    apply Hin. by rewrite trip_count_count_trips.
Qed.

(** C3, at the input of the specification's example: the trips (1,2) and
    (2,1) are counted under two keys, and the second [add_edge] replaces the
    weight the first one set. The edge between 1 and 2 has weight 1, not 2.
    Three trips between 1 and 2 give weight 1 or 2 depending on their order. *)
Theorem build_graph_reverse_trip_overwrites :
  count_trips example_pairs = [((1, 2), 1); ((2, 1), 1); ((3, 3), 1)] ∧
  edge_weight example_graph 1 2 = Some 1 ∧
  edge_weight example_graph 2 1 = Some 1 ∧
  edge_weight example_graph 3 3 = Some 1 ∧
  neighbors example_graph 4 = ∅ ∧
  node_order example_graph = [1; 2; 3; 4] ∧
  edge_weight (build_graph [(Some 1, Some 2); (Some 1, Some 2); (Some 2, Some 1)]
                 example_names) 1 2 = Some 1 ∧
  edge_weight (build_graph [(Some 2, Some 1); (Some 1, Some 2); (Some 1, Some 2)]
                 example_names) 1 2 = Some 2.
Proof. repeat split; by vm_compute. Qed.

(** C10: a pair in which an id is [None] or 0 changes nothing in the graph
    built; no edge of a graph built touches node 0; and 0 is a node when it
    is a key of the lookup table. *)
Theorem build_graph_drops_falsy (pre post : list (option Z * option Z))
    (pickup dropoff : option Z) (taxi_zone_lookup : list (Z * string)) :
  pickup = None ∨ pickup = Some 0 ∨ dropoff = None ∨ dropoff = Some 0 →
  build_graph (pre ++ (pickup, dropoff) :: post) taxi_zone_lookup =
    build_graph (pre ++ post) taxi_zone_lookup ∧
  neighbors (build_graph (pre ++ (pickup, dropoff) :: post) taxi_zone_lookup) 0 = ∅ ∧
  (∀ u, 0 ∉ neighbors (build_graph (pre ++ (pickup, dropoff) :: post) taxi_zone_lookup) u) ∧
  (0 ∈ taxi_zone_lookup.*1 →
   0 ∈ node_order (build_graph (pre ++ (pickup, dropoff) :: post) taxi_zone_lookup)).
Proof.
  intros Hfalsy.
  assert (Hnone : ∀ data u v, edge (build_graph data taxi_zone_lookup) u v → u ≠ 0 ∧ v ≠ 0).
  { intros data u v [Huv|Hvu]%edge_build_graph.
    - by apply (count_trips_keys_nonzero data).
    - apply (count_trips_keys_nonzero data) in Hvu. tauto. }
  split; [|split; [|split]].
  - unfold build_graph. rewrite count_trips_falsy; [done|].
    rewrite !truthy_false. tauto.
  - apply set_eq. intros v. split; [|set_solver].
    intros Hv. apply Hnone in Hv. tauto.
  - intros u Hu. apply Hnone in Hu. tauto.
  - apply node_order_build_graph.
Qed.

Lemma build_graph_drops_falsy_witness :
  build_graph ([(Some 1, Some 2)] ++ (Some 0, Some 5) :: [(Some 2, Some 1)])
    [(0, "Zero"); (1, "A")]%string =
  build_graph ([(Some 1, Some 2)] ++ [(Some 2, Some 1)]) [(0, "Zero"); (1, "A")]%string.
Proof.
  apply (build_graph_drops_falsy [(Some 1, Some 2)] [(Some 2, Some 1)] (Some 0) (Some 5)
           [(0, "Zero"); (1, "A")]%string).
  right. left. reflexivity.
Defined.

(** * Connected components *)

Section Connectivity.
Variable g : Graph.
Hypothesis Hwf : graph_wf g.

Lemma edge_sym (u v : Z) : edge g u v → edge g v u.
Proof. apply graph_wf_alt in Hwf as (_ & _ & Hsym). apply Hsym. Qed.

Lemma edge_node_r (u v : Z) : edge g u v → is_Some (adj g !! v).
Proof.
  intros Huv%edge_sym. apply elem_of_neighbors in Huv as (nbrs & Hv & _).
  by rewrite Hv.
Qed.

Lemma connected_sym (u v : Z) : connected g u v → connected g v u.
Proof.
  induction 1 as [u|u w v Huw _ IH]; [done|].
  eapply rtc_r; [exact IH|]. by apply edge_sym.
Qed.

Lemma connected_node (u v : Z) :
  is_Some (adj g !! u) → connected g u v → is_Some (adj g !! v).
Proof.
  intros Hu Huv. revert Hu. induction Huv as [u|u w v Huw _ IH]; [done|].
  intros _. apply IH. by eapply edge_node_r.
Qed.

Lemma node_iff (u : Z) : u ∈ node_order g ↔ is_Some (adj g !! u).
Proof. apply graph_wf_alt in Hwf as (_ & Hdom & _). apply Hdom. Qed.

(** A closed set that holds a node holds all the nodes connected to it. *)
Lemma closed_connected (X : gset Z) (u v : Z) :
  closed g X → u ∈ X → connected g u v → v ∈ X.
Proof.
  intros Hcl Hu Huv. induction Huv as [u|u w v Huw _ IH]; [done|].
  apply IH. by apply (Hcl u).
Qed.

(** ** The invariant of the search loops *)

Lemma search_inv_init (visited0 : gset Z) (root : Z) :
  is_Some (adj g !! root) → root ∉ visited0 →
  search_inv g visited0 root visited0 [root] [].
Proof.
  intros Hnode Hfresh. split; try done.
  - set_solver.
  - constructor.
  - intros x Hx. by apply elem_of_nil in Hx.
  - intros x Hx. by apply elem_of_nil in Hx.
  - intros x ->%list_elem_of_singleton. done.
  - intros x y Hx. by apply elem_of_nil in Hx.
  - right. by left.
Qed.

(** Popping a node that is already visited keeps the invariant. *)
Lemma search_inv_skip (visited0 : gset Z) (root : Z) (visited : gset Z)
    (work work' component : list Z) (current : Z) :
  search_inv g visited0 root visited work component →
  current ∈ visited →
  (∀ x, x ∈ work → x = current ∨ x ∈ work') →
  (∀ x, x ∈ work' → x ∈ work) →
  search_inv g visited0 root visited work' component.
Proof.
  intros [] Hcur Hwork Hwork'. split; try done.
  - intros x Hx. by apply inv_reach_work0, Hwork'.
  - intros x y Hx Hxy. destruct (inv_frontier0 x y Hx Hxy) as [Hy|Hy]; [by left|].
    apply Hwork in Hy as [->|Hy]; [by left|by right].
  - destruct inv_root0 as [Hr|Hr]; [by left|].
    apply Hwork in Hr as [->|Hr]; [|by right].
    left. set_solver.
Qed.

(** Visiting a new node and pushing its unvisited neighbours keeps the
    invariant. *)
Lemma search_inv_visit (visited0 : gset Z) (root : Z) (visited : gset Z)
    (work work' component : list Z) (current : Z) (nbrs : gmap Z Z) :
  search_inv g visited0 root visited work component →
  current ∉ visited → current ∈ work → adj g !! current = Some nbrs →
  (∀ x, x ∈ work → x = current ∨ x ∈ work') →
  (∀ x, x ∈ work' → x ∈ work ∨ x ∈ dom nbrs) →
  (∀ x, x ∈ dom nbrs → x ∉ {[current]} ∪ visited → x ∈ work') →
  search_inv g visited0 root ({[current]} ∪ visited) work' (component ++ [current]).
Proof.
  intros [] Hcur Hin Hadj Hwork Hwork' Hpush.
  assert (Hnbrs : ∀ x, x ∈ dom nbrs ↔ edge g current x).
  { intros x. unfold edge, neighbors. by rewrite Hadj. }
  split; try done.
  - rewrite list_to_set_app_L. set_solver.
  - apply NoDup_app. split; [done|]. split; [|apply NoDup_singleton].
    intros x Hx ->%list_elem_of_singleton. set_solver.
  - intros x [Hx| ->%list_elem_of_singleton]%elem_of_app; [by apply inv_fresh0|].
    set_solver.
  - intros x [Hx| ->%list_elem_of_singleton]%elem_of_app; [by apply inv_reach_comp0|].
    by apply inv_reach_work0.
  - intros x [Hx|Hx]%Hwork'; [by apply inv_reach_work0|].
    eapply rtc_r; [by apply inv_reach_work0|]. by apply Hnbrs.
  - intros x y [Hx| ->%list_elem_of_singleton]%elem_of_app Hxy.
    + destruct (inv_frontier0 x y Hx Hxy) as [Hy|Hy]; [left; set_solver|].
      apply Hwork in Hy as [->|Hy]; [left; set_solver|by right].
    + destruct (decide (y ∈ {[current]} ∪ visited)) as [Hy|Hy]; [by left|].
      right. apply Hpush; [|done]. by apply Hnbrs.
  - destruct inv_root0 as [Hr|Hr]; [left; set_solver|].
    apply Hwork in Hr as [->|Hr]; [left; set_solver|by right].
Qed.

(** When the work list is empty, the component is the class of the root
    and the visited set is closed again. *)
Lemma search_inv_done (visited0 : gset Z) (root : Z) (visited : gset Z)
    (component : list Z) :
  closed g visited0 →
  search_inv g visited0 root visited [] component →
  (∀ x, x ∈ component ↔ connected g root x) ∧ closed g visited ∧
  NoDup component ∧ visited = visited0 ∪ list_to_set component ∧
  (∀ x, x ∈ component → x ∉ visited0).
Proof.
  intros Hcl [].
  assert (Hroot : root ∈ component).
  { destruct inv_root0 as [?|Hr]; [done|]. by apply elem_of_nil in Hr. }
  assert (Hstep : ∀ x y, x ∈ component → edge g x y → y ∈ component).
  { intros x y Hx Hxy.
    destruct (inv_frontier0 x y Hx Hxy) as [Hy|Hy]; [|by apply elem_of_nil in Hy].
    rewrite inv_visited0 in Hy. apply elem_of_union in Hy as [Hy|Hy]; [|set_solver].
    exfalso. apply (inv_fresh0 x Hx). apply (Hcl y); [done|]. by apply edge_sym. }
  assert (Hall : ∀ a x, connected g a x → a ∈ component → x ∈ component).
  { intros a x Hax. induction Hax as [a|a w x Haw _ IH]; [done|].
    intros Ha. apply IH. by apply (Hstep a). }
  split; [|split; [|done]].
  - intros x. split; [apply inv_reach_comp0|]. intros Hrx. by apply (Hall root).
  - intros u v Hu Huv. rewrite inv_visited0 in Hu |- *.
    apply elem_of_union in Hu as [Hu|Hu].
    + apply elem_of_union_l. by apply (Hcl u).
    + apply elem_of_union_r, elem_of_list_to_set. apply (Hstep u); [|done].
      by apply elem_of_list_to_set in Hu.
Qed.

(** ** The closure computed for the library traversal *)

Lemma expand_incl (X : gset Z) : X ⊆ expand g X.
Proof. unfold expand. set_solver. Qed.

Lemma elem_of_expand (X : gset Z) (y : Z) :
  y ∈ expand g X ↔ y ∈ X ∨ ∃ x, x ∈ X ∧ edge g x y.
Proof. unfold expand. rewrite elem_of_union, elem_of_set_bind. done. Qed.

Lemma expand_fixpoint_closed (X : gset Z) : expand g X = X → closed g X.
Proof.
  intros Hfix u v Hu Huv. rewrite <- Hfix. apply elem_of_expand. right. by exists u.
Qed.

Lemma iter_expand_connected (v : Z) (k : nat) (x : Z) :
  x ∈ Nat.iter k (expand g) {[v]} → connected g v x.
Proof.
  revert x. induction k as [|k IH]; intros x.
  - change (Nat.iter 0 (expand g) {[v]}) with ({[v]} : gset Z).
    intros ->%elem_of_singleton. done.
  - rewrite Nat.iter_succ.
    intros [Hx|(u & Hu & Hux)]%elem_of_expand; [by apply IH|].
    eapply rtc_r; [by apply IH|done].
Qed.

(** Each round adds a node or the set is closed already. *)
Lemma iter_expand_grows (v : Z) (k : nat) :
  (S k ≤ size (Nat.iter k (expand g) {[v]}))%nat ∨
  expand g (Nat.iter k (expand g) {[v]}) = Nat.iter k (expand g) {[v]}.
Proof.
  induction k as [|k IH].
  - left. change (Nat.iter 0 (expand g) {[v]}) with ({[v]} : gset Z).
    by rewrite size_singleton.
  - rewrite Nat.iter_succ.
    destruct IH as [Hsize|Hfix]; [|right; by rewrite !Hfix].
    set (X := Nat.iter k (expand g) {[v]}) in *.
    destruct (decide (expand g X = X)) as [Hfix|Hne]; [right; by rewrite !Hfix|].
    left. assert (Hlt : X ⊂ expand g X).
    { split; [apply expand_incl|]. intros Hsub. apply Hne.
      apply set_eq. intros x. split; [apply Hsub|apply expand_incl]. }
    apply subset_size in Hlt. lia.
Qed.

(** The closure is the set of the nodes connected to the start node. *)
Lemma elem_of_node_connected_component (v x : Z) :
  v ∈ node_order g →
  x ∈ node_connected_component g v ↔ connected g v x.
Proof.
  intros Hv. split; [apply iter_expand_connected|].
  unfold node_connected_component.
  set (n := length (node_order g)).
  assert (Hsub : Nat.iter n (expand g) {[v]} ⊆ dom (adj g)).
  { intros y Hy%iter_expand_connected. apply elem_of_dom.
    eapply connected_node; [|done]. by apply node_iff. }
  assert (Hsize : size (dom (adj g)) = n).
  { destruct Hwf as (Hnd & Hdom & _). rewrite <- Hdom. by apply size_list_to_set. }
  destruct (iter_expand_grows v n) as [Hgrow|Hfix].
  { apply subseteq_size in Hsub. lia. }
  apply closed_connected; [by apply expand_fixpoint_closed|].
  clear Hsub Hfix.
  generalize n. intros k. induction k as [|k IH];
    [change (Nat.iter 0 (expand g) {[v]}) with ({[v]} : gset Z); set_solver|].
  rewrite Nat.iter_succ. by apply expand_incl.
Qed.

Lemma elem_of_concat (l : list (list Z)) (x : Z) :
  x ∈ concat l ↔ ∃ c, c ∈ l ∧ x ∈ c.
Proof.
  induction l as [|c l IH]; simpl.
  - split; [by intros ?%elem_of_nil|]. intros (c & Hc & _). by apply elem_of_nil in Hc.
  - rewrite elem_of_app, IH. setoid_rewrite elem_of_cons. naive_solver.
Qed.

(** A list of components without repetition in the list of all its
    elements: the components are pairwise disjoint and without repetition. *)
Lemma NoDup_concat_disjoint (l : list (list Z)) :
  NoDup (concat l) →
  (∀ i j c1 c2 x, l !! i = Some c1 → l !! j = Some c2 → x ∈ c1 → x ∈ c2 → i = j) ∧
  (∀ c, c ∈ l → NoDup c).
Proof.
  induction l as [|c l IH]; simpl.
  - intros _. split; [intros i j c1 c2 x Hi; by rewrite lookup_nil in Hi|].
    intros c Hc. by apply elem_of_nil in Hc.
  - intros (Hc & Hdisj & Hl)%NoDup_app. destruct (IH Hl) as [IH1 IH2]. split.
    + intros [|i] [|j] c1 c2 x Hi Hj Hx1 Hx2; simplify_eq/=; [done|..].
      * exfalso. apply (Hdisj x Hx1). apply elem_of_concat. exists c2.
        split; [by eapply list_elem_of_lookup_2|done].
      * exfalso. apply (Hdisj x Hx2). apply elem_of_concat. exists c1.
        split; [by eapply list_elem_of_lookup_2|done].
      * f_equal. by apply (IH1 i j c1 c2 x).
    + intros c' [->|Hc']%elem_of_cons; [done|by apply IH2].
Qed.

(** From the classes to the partition and to the family of the classes. *)
Lemma partitions_nodes_partition (components : list (list Z)) :
  partitions_nodes g components → node_partition g components.
Proof.
  intros (Hnd & Hcover & Hclass).
  destruct (NoDup_concat_disjoint _ Hnd) as [Hdisj Hnd'].
  split; [|done]. intros x. by rewrite <- Hcover, elem_of_concat.
Qed.

Lemma partitions_nodes_family (components : list (list Z)) :
  partitions_nodes g components →
  component_family components = component_classes g.
Proof.
  intros (Hnd & Hcover & Hclass).
  unfold component_family, component_classes. apply set_eq. intros X.
  rewrite !elem_of_list_to_set, !list_elem_of_fmap. split.
  - intros (c & -> & Hc). destruct (Hclass c Hc) as (r & Hr & Hrc).
    exists r. split; [|done]. apply set_eq. intros x.
    by rewrite elem_of_list_to_set, Hrc, elem_of_node_connected_component.
  - intros (v & -> & Hv).
    apply Hcover, elem_of_concat in Hv as (c & Hc & Hvc).
    exists c. split; [|done].
    destruct (Hclass c Hc) as (r & Hr & Hrc). apply Hrc in Hvc.
    apply set_eq. intros x.
    rewrite elem_of_list_to_set, Hrc, elem_of_node_connected_component
      by (apply node_iff; eapply connected_node; [by apply node_iff|done]).
    split; intros Hx.
    + by etrans.
    + etrans; [|exact Hx]. by apply connected_sym.
Qed.

(** The library traversal yields the classes. *)
Lemma connected_components_from_spec (nodes : list Z) (seen : gset Z) :
  (∀ v, v ∈ nodes → v ∈ node_order g) →
  (∀ c, c ∈ connected_components_from g nodes seen →
        ∃ r, r ∈ node_order g ∧ c = node_connected_component g r) ∧
  (∀ v, v ∈ nodes → v ∈ seen ∨
        ∃ c, c ∈ connected_components_from g nodes seen ∧ v ∈ c).
Proof.
  revert seen. induction nodes as [|v rest IH]; intros seen Hnodes; simpl.
  - split; [intros c Hc|intros v Hv]; by apply elem_of_nil in Hc || apply elem_of_nil in Hv.
  - assert (Hrest : ∀ w, w ∈ rest → w ∈ node_order g).
    { intros w Hw. apply Hnodes. by right. }
    case_decide as Hseen.
    + destruct (IH seen Hrest) as [IH1 IH2]. split; [done|].
      intros w [->|Hw]%elem_of_cons; [by left|by apply IH2].
    + destruct (IH (seen ∪ node_connected_component g v) Hrest) as [IH1 IH2]. split.
      * intros c [->|Hc]%elem_of_cons; [|by apply IH1].
        exists v. split; [|done]. apply Hnodes. by left.
      * assert (Hv : v ∈ node_connected_component g v).
        { apply elem_of_node_connected_component; [apply Hnodes; by left|done]. }
        intros w [->|Hw]%elem_of_cons.
        -- right. eexists. split; [by left|done].
        -- destruct (IH2 w Hw) as [[Hw'|Hw']%elem_of_union|(c & Hc & Hwc)].
           ++ by left.
           ++ right. eexists. split; [by left|done].
           ++ right. exists c. split; [by right|done].
Qed.

Lemma networkx_family :
  list_to_set (find_connected_components_networkx g) = component_classes g.
Proof.
  unfold find_connected_components_networkx, component_classes.
  destruct (connected_components_from_spec (node_order g) ∅) as [H1 H2]; [done|].
  apply set_eq. intros X. rewrite !elem_of_list_to_set, list_elem_of_fmap. split.
  - intros (r & Hr & ->)%H1. by exists r.
  - intros (v & -> & Hv).
    destruct (H2 v Hv) as [Hv'|(c & Hc & Hvc)]; [set_solver|].
    destruct (H1 c Hc) as (r & Hr & ->).
    replace (node_connected_component g v) with (node_connected_component g r); [done|].
    apply elem_of_node_connected_component in Hvc; [|done].
    apply set_eq. intros x. rewrite !elem_of_node_connected_component by done.
    split; intros Hx.
    + etrans; [|exact Hx]. by apply connected_sym.
    + by etrans.
Qed.

Section Loops.
Variable set_order : gset Z → list Z.
Hypothesis set_order_spec : ∀ X x, x ∈ set_order X ↔ x ∈ X.

(** The loop of [dfs] ends, without raising, in a state that satisfies
    the invariant with an empty stack. *)
Lemma dfs_loop_spec (visited : gset Z) (stack component : list Z)
    (visited0 : gset Z) (root : Z) :
  search_inv g visited0 root visited stack component →
  ∃ component' visited',
    dfs_loop set_order g visited stack component = Return (component', visited') ∧
    search_inv g visited0 root visited' [] component'.
Proof.
  funelim (dfs_loop set_order g visited stack component); intros Hinv;
    repeat match goal with H : sigmaI _ _ _ = _ |- _ => clear H end;
    try clear Heqcall.
  - (* the stack is empty *)
    match goal with H : last stack = None |- _ => apply last_None in H as -> end.
    by eexists _, _.
  - (* the node popped is visited already *)
    match goal with IH : ∀ _ _, _ → ∃ _ _, _ |- _ => apply IH end.
    apply last_Some in Hlast as [rest ->]. rewrite removelast_last.
    eapply search_inv_skip; [exact Hinv|done|..].
    + intros x [Hx| ->%list_elem_of_singleton]%elem_of_app; [by right|by left].
    + intros x Hx. apply elem_of_app. by left.
  - (* a new node: it is visited and its unvisited neighbours are pushed *)
    match goal with IH : ∀ _ _, _ → ∃ _ _, _ |- _ => apply IH end.
    apply last_Some in Hlast as [rest ->]. rewrite removelast_last.
    eapply search_inv_visit; [exact Hinv|done| |exact Hadj|..].
    + apply elem_of_app. right. by left.
    + intros x [Hx| ->%list_elem_of_singleton]%elem_of_app; [|by left].
      right. apply elem_of_app. by left.
    + intros x [Hx|Hx]%elem_of_app; [left; apply elem_of_app; by left|].
      right. apply set_order_spec in Hx. set_solver.
    + intros x Hx Hnot. apply elem_of_app. right.
      apply set_order_spec. set_solver.
  - (* the node popped is a node of the graph *)
    exfalso.
    match goal with H : adj g !! current = None |- _ =>
      apply eq_None_not_Some in H; apply H end.
    destruct Hinv. eapply connected_node; [exact inv_root_node0|].
    apply inv_reach_work0. apply last_Some in Hlast as [rest ->].
    apply elem_of_app. right. by left.
Qed.

(** The same for the loop of [bfs]. *)
Lemma bfs_loop_spec (visited : gset Z) (queue component : list Z)
    (visited0 : gset Z) (root : Z) :
  search_inv g visited0 root visited queue component →
  ∃ component' visited',
    bfs_loop set_order g visited queue component = Return (component', visited') ∧
    search_inv g visited0 root visited' [] component'.
Proof.
  funelim (bfs_loop set_order g visited queue component); intros Hinv;
    repeat match goal with H : sigmaI _ _ _ = _ |- _ => clear H end;
    try clear Heqcall.
  - (* the queue is empty *)
    by eexists _, _.
  - (* the node popped is visited already *)
    match goal with IH : ∀ _ _, _ → ∃ _ _, _ |- _ => apply IH end.
    eapply search_inv_skip; [exact Hinv|done|..].
    + intros x [->|Hx]%elem_of_cons; [by left|by right].
    + intros x Hx. by right.
  - (* a new node: it is visited and its unvisited neighbours are queued *)
    match goal with IH : ∀ _ _, _ → ∃ _ _, _ |- _ => apply IH end.
    eapply search_inv_visit; [exact Hinv|done| |exact Hadj|..].
    + by left.
    + intros x [->|Hx]%elem_of_cons; [by left|].
      right. apply elem_of_app. by left.
    + intros x [Hx|Hx]%elem_of_app; [left; by right|].
      right. apply set_order_spec in Hx. set_solver.
    + intros x Hx Hnot. apply elem_of_app. right.
      apply set_order_spec. set_solver.
  - (* the node popped is a node of the graph *)
    exfalso.
    match goal with H : adj g !! current = None |- _ =>
      apply eq_None_not_Some in H; apply H end.
    destruct Hinv. eapply connected_node; [exact inv_root_node0|].
    apply inv_reach_work0. by left.
Qed.

Lemma dfs_spec (visited : gset Z) (node : Z) :
  closed g visited → node ∈ node_order g → node ∉ visited →
  search_result g visited node (dfs set_order g visited node).
Proof.
  intros Hcl Hnode Hfresh. unfold dfs.
  destruct (dfs_loop_spec visited [node] [] visited node)
    as (component & visited' & Heq & Hinv).
  { apply search_inv_init; [by apply node_iff|done]. }
  exists component, visited'. split; [done|]. by apply search_inv_done.
Qed.

Lemma bfs_spec (visited : gset Z) (node : Z) :
  closed g visited → node ∈ node_order g → node ∉ visited →
  search_result g visited node (bfs set_order g visited node).
Proof.
  intros Hcl Hnode Hfresh. unfold bfs.
  destruct (bfs_loop_spec visited [node] [] visited node)
    as (component & visited' & Heq & Hinv).
  { apply search_inv_init; [by apply node_iff|done]. }
  exists component, visited'. split; [done|]. by apply search_inv_done.
Qed.

Lemma outer_inv_step (visited : gset Z) (components : list (list Z)) (node : Z)
    (component : list Z) (visited' : gset Z) :
  outer_inv g visited components → node ∈ node_order g →
  (∀ x, x ∈ component ↔ connected g node x) → closed g visited' →
  NoDup component → visited' = visited ∪ list_to_set component →
  (∀ x, x ∈ component → x ∉ visited) →
  outer_inv g visited' (components ++ [component]) ∧ node ∈ visited'.
Proof.
  intros (Hcl & Hvis & Hnd & Hclass) Hnode Hcomp Hcl' Hnd' Hvis' Hfresh.
  split; [split; [done|split; [|split]]|].
  - rewrite concat_app, list_to_set_app_L. simpl. rewrite app_nil_r.
    by rewrite Hvis', Hvis.
  - rewrite concat_app. simpl. rewrite app_nil_r.
    apply NoDup_app. split; [done|]. split; [|done].
    intros x Hx Hx'. apply (Hfresh x Hx'). rewrite Hvis.
    by apply elem_of_list_to_set.
  - intros c [Hc| ->%list_elem_of_singleton]%elem_of_app; [by apply Hclass|].
    by exists node.
  - rewrite Hvis'. apply elem_of_union_r, elem_of_list_to_set, Hcomp. done.
Qed.

Lemma dfs_components_spec (nodes : list Z) (visited : gset Z)
    (components : list (list Z)) :
  (∀ x, x ∈ nodes → x ∈ node_order g) → outer_inv g visited components →
  ∃ comps visited',
    dfs_components set_order g nodes visited components = Return comps ∧
    outer_inv g visited' comps ∧ ∀ x, x ∈ nodes ∨ x ∈ visited → x ∈ visited'.
Proof.
  revert visited components.
  induction nodes as [|node rest IH]; intros visited components Hnodes Hinv; simpl.
  - exists components, visited. split; [done|]. split; [done|].
    intros x [Hx|Hx]; [by apply elem_of_nil in Hx|done].
  - assert (Hrest : ∀ x, x ∈ rest → x ∈ node_order g).
    { intros x Hx. apply Hnodes. by right. }
    case_decide as Hvis.
    + destruct (IH visited components Hrest Hinv) as (comps & visited' & Heq & Hinv' & Hcov).
      exists comps, visited'. split; [done|]. split; [done|].
      intros x [[->|Hx]%elem_of_cons|Hx]; apply Hcov; auto.
    + destruct (dfs_spec visited node) as
        (component & visited1 & -> & Hcomp & Hcl & Hnd & Hvis1 & Hfresh);
        [apply Hinv|apply Hnodes; by left|done|].
      simpl.
      destruct (outer_inv_step visited components node component visited1)
        as [Hinv1 Hnode1]; try done; [apply Hnodes; by left|].
      destruct (IH visited1 (components ++ [component]) Hrest Hinv1)
        as (comps & visited' & Heq & Hinv' & Hcov).
      exists comps, visited'. split; [done|]. split; [done|].
      intros x [[->|Hx]%elem_of_cons|Hx]; apply Hcov; auto.
      right. rewrite Hvis1. by apply elem_of_union_l.
Qed.

Lemma bfs_components_spec (nodes : list Z) (visited : gset Z)
    (components : list (list Z)) :
  (∀ x, x ∈ nodes → x ∈ node_order g) → outer_inv g visited components →
  ∃ comps visited',
    bfs_components set_order g nodes visited components = Return comps ∧
    outer_inv g visited' comps ∧ ∀ x, x ∈ nodes ∨ x ∈ visited → x ∈ visited'.
Proof.
  revert visited components.
  induction nodes as [|node rest IH]; intros visited components Hnodes Hinv; simpl.
  - exists components, visited. split; [done|]. split; [done|].
    intros x [Hx|Hx]; [by apply elem_of_nil in Hx|done].
  - assert (Hrest : ∀ x, x ∈ rest → x ∈ node_order g).
    { intros x Hx. apply Hnodes. by right. }
    case_decide as Hvis.
    + destruct (IH visited components Hrest Hinv) as (comps & visited' & Heq & Hinv' & Hcov).
      exists comps, visited'. split; [done|]. split; [done|].
      intros x [[->|Hx]%elem_of_cons|Hx]; apply Hcov; auto.
    + destruct (bfs_spec visited node) as
        (component & visited1 & -> & Hcomp & Hcl & Hnd & Hvis1 & Hfresh);
        [apply Hinv|apply Hnodes; by left|done|].
      simpl.
      destruct (outer_inv_step visited components node component visited1)
        as [Hinv1 Hnode1]; try done; [apply Hnodes; by left|].
      destruct (IH visited1 (components ++ [component]) Hrest Hinv1)
        as (comps & visited' & Heq & Hinv' & Hcov).
      exists comps, visited'. split; [done|]. split; [done|].
      intros x [[->|Hx]%elem_of_cons|Hx]; apply Hcov; auto.
      right. rewrite Hvis1. by apply elem_of_union_l.
Qed.

Lemma outer_inv_partitions (visited : gset Z) (comps : list (list Z)) :
  outer_inv g visited comps → (∀ x, x ∈ node_order g → x ∈ visited) →
  partitions_nodes g comps.
Proof.
  intros (Hcl & Hvis & Hnd & Hclass) Hcov. split; [done|]. split; [|done].
  intros x. split.
  - intros (c & Hc & Hx)%elem_of_concat.
    destruct (Hclass c Hc) as (r & Hr & Hrc). apply Hrc in Hx.
    apply node_iff. eapply connected_node; [|done]. by apply node_iff.
  - intros Hx. apply Hcov in Hx. rewrite Hvis in Hx.
    by apply elem_of_list_to_set in Hx.
Qed.

Lemma outer_inv_init : outer_inv g ∅ [].
Proof.
  split; [intros u v Hu; set_solver|]. split; [done|]. split; [constructor|].
  intros c Hc. by apply elem_of_nil in Hc.
Qed.

Lemma find_connected_components_dfs_spec :
  ∃ comps, find_connected_components_dfs set_order g = Return comps ∧
           partitions_nodes g comps.
Proof.
  destruct (dfs_components_spec (node_order g) ∅ []) as
    (comps & visited' & Heq & Hinv & Hcov); [done|apply outer_inv_init|].
  exists comps. split; [done|]. eapply outer_inv_partitions; [done|]. auto.
Qed.

Lemma find_connected_components_bfs_spec :
  ∃ comps, find_connected_components_bfs set_order g = Return comps ∧
           partitions_nodes g comps.
Proof.
  destruct (bfs_components_spec (node_order g) ∅ []) as
    (comps & visited' & Heq & Hinv & Hcov); [done|apply outer_inv_init|].
  exists comps. split; [done|]. eapply outer_inv_partitions; [done|]. auto.
Qed.
End Loops.
End Connectivity.

(** * The claims on the connectivity library *)

(** Two nodes share a component of a list exactly when they share a set of
    its family. *)
Lemma share_component_family (components : list (list Z)) (u v : Z) :
  (∃ c, c ∈ components ∧ u ∈ c ∧ v ∈ c) ↔
  (∃ X, X ∈ component_family components ∧ u ∈ X ∧ v ∈ X).
Proof.
  unfold component_family. split.
  - intros (c & Hc & Hu & Hv). exists (list_to_set c).
    rewrite elem_of_list_to_set, list_elem_of_fmap, !elem_of_list_to_set. eauto.
  - intros (X & HX & Hu & Hv).
    apply elem_of_list_to_set, list_elem_of_fmap in HX as (c & -> & Hc).
    rewrite !elem_of_list_to_set in Hu, Hv. eauto.
Qed.

Lemma share_component_sets (components : list (gset Z)) (u v : Z) :
  (∃ c, c ∈ components ∧ u ∈ c ∧ v ∈ c) ↔
  (∃ X : gset Z, X ∈ (list_to_set components : gset (gset Z)) ∧ u ∈ X ∧ v ∈ X).
Proof. by setoid_rewrite elem_of_list_to_set. Qed.

(** The example of the specification: components {1,2}, {3} and {4} under
    the three algorithms. *)
Example example_components :
  find_connected_components_networkx example_graph = [{[1; 2]}; {[3]}; {[4]}] ∧
  find_connected_components_dfs elements example_graph = Return [[1; 2]; [3]; [4]] ∧
  find_connected_components_bfs elements example_graph = Return [[1; 2]; [3]; [4]].
Proof. repeat split; by vm_compute. Qed.

(** C7: on every graph (with the invariant networkx maintains, [graph_wf]),
    and whatever the order in which a set is iterated, the depth-first and
    the breadth-first search return, and what they return is a partition of
    the node set: the nodes are the elements of the components, a node lies in
    one component only, and no component holds a node twice. *)
Theorem dfs_bfs_partition (set_order : gset Z → list Z) (g : Graph) :
  (∀ X x, x ∈ set_order X ↔ x ∈ X) → graph_wf g →
  ∃ dfs_components bfs_components,
    find_connected_components_dfs set_order g = Return dfs_components ∧
    find_connected_components_bfs set_order g = Return bfs_components ∧
    node_partition g dfs_components ∧ node_partition g bfs_components.
Proof.
  intros Hord Hwf.
  destruct (find_connected_components_dfs_spec g Hwf set_order Hord) as (d & Hd & Hpd).
  destruct (find_connected_components_bfs_spec g Hwf set_order Hord) as (b & Hb & Hpb).
  exists d, b. split; [done|]. split; [done|].
  split; by apply partitions_nodes_partition.
Qed.

Lemma dfs_bfs_partition_witness :
  ∃ dfs_components bfs_components,
    find_connected_components_dfs elements example_graph = Return dfs_components ∧
    find_connected_components_bfs elements example_graph = Return bfs_components ∧
    node_partition example_graph dfs_components ∧
    node_partition example_graph bfs_components.
Proof.
  apply (dfs_bfs_partition elements example_graph).
  - intros X x. apply elem_of_elements.
  - apply (bool_decide_unpack _). by vm_compute.
Defined.

(** C6: on every graph (with the invariant networkx maintains, [graph_wf]),
    and whatever the order in which a set is iterated, the library traversal
    and the two searches give the same family of node sets, and so two nodes
    share a component under one of them exactly when they do under the
    others. *)
Theorem components_agree (set_order : gset Z → list Z) (g : Graph) :
  (∀ X x, x ∈ set_order X ↔ x ∈ X) → graph_wf g →
  ∃ dfs_components bfs_components,
    find_connected_components_dfs set_order g = Return dfs_components ∧
    find_connected_components_bfs set_order g = Return bfs_components ∧
    component_family dfs_components =
      list_to_set (find_connected_components_networkx g) ∧
    component_family bfs_components =
      list_to_set (find_connected_components_networkx g) ∧
    (∀ u v, (∃ c, c ∈ dfs_components ∧ u ∈ c ∧ v ∈ c) ↔
            (∃ c, c ∈ find_connected_components_networkx g ∧ u ∈ c ∧ v ∈ c)) ∧
    (∀ u v, (∃ c, c ∈ bfs_components ∧ u ∈ c ∧ v ∈ c) ↔
            (∃ c, c ∈ find_connected_components_networkx g ∧ u ∈ c ∧ v ∈ c)).
Proof.
  intros Hord Hwf.
  destruct (find_connected_components_dfs_spec g Hwf set_order Hord) as (d & Hd & Hpd).
  destruct (find_connected_components_bfs_spec g Hwf set_order Hord) as (b & Hb & Hpb).
  apply (partitions_nodes_family g Hwf) in Hpd, Hpb.
  pose proof (networkx_family g Hwf) as Hnx.
  exists d, b. split; [done|]. split; [done|].
  split; [by rewrite Hpd, Hnx|]. split; [by rewrite Hpb, Hnx|].
  split; intros u v; rewrite share_component_family, share_component_sets.
  - by rewrite Hpd, Hnx.
  - by rewrite Hpb, Hnx.
Qed.

Lemma components_agree_witness :
  ∃ dfs_components bfs_components,
    find_connected_components_dfs elements example_graph = Return dfs_components ∧
    find_connected_components_bfs elements example_graph = Return bfs_components ∧
    component_family dfs_components =
      list_to_set (find_connected_components_networkx example_graph) ∧
    component_family bfs_components =
      list_to_set (find_connected_components_networkx example_graph).
Proof.
  destruct (components_agree elements example_graph)
    as (d & b & Hd & Hb & Hfd & Hfb & _).
  - intros X x. apply elem_of_elements.
  - apply (bool_decide_unpack _). by vm_compute.
  - exists d, b. exact (conj Hd (conj Hb (conj Hfd Hfb))).
Defined.

(** * Further properties of the sorting library *)

Section SortAgreement.
Context {A : Type}.
Variable key : A → Z.

Lemma sorted_by_StronglySorted (l : list A) :
StronglySorted (key_le key) l → sorted_by key l.
Proof.
induction 1 as [|x l Hs IH Hall]; intros i j a b Hij Ha Hb.
- by rewrite lookup_nil in Ha.
- destruct j as [|j]; [lia|]. destruct i as [|i]; simplify_eq/=.
  + rewrite Forall_forall in Hall. apply Hall. by eapply list_elem_of_lookup_2.
  + apply (IH i j); [lia|done..].
Qed.

Lemma sorted_by_ordered (l : list A) : ordered_by key l → sorted_by key l.
Proof. intros H. by apply sorted_by_StronglySorted, ordered_by_StronglySorted. Qed.

(** Selecting by a key after selecting by a condition on the key. *)
Lemma filter_key_filter (v : Z) (Q : A → Prop) `{!∀ x, Decision (Q x)} (l : list A) :
(∀ x, key x = v → Q x) →
filter (λ x, key x = v) (filter Q l) = filter (λ x, key x = v) l.
Proof.
intros HQ. induction l as [|x l IH]; [done|].
rewrite !filter_cons. destruct (decide (Q x)) as [Hq|Hq].
- rewrite filter_cons. case_decide; by rewrite IH.
- case_decide as Hv; [by apply HQ in Hv|done].
Qed.

Lemma filter_key_filter_none (v : Z) (Q : A → Prop) `{!∀ x, Decision (Q x)} (l : list A) :
(∀ x, key x = v → ¬ Q x) →
filter (λ x, key x = v) (filter Q l) = [].
Proof.
intros HQ. induction l as [|x l IH]; [done|].
rewrite filter_cons. destruct (decide (Q x)) as [Hq|Hq]; [|done].
rewrite filter_cons. case_decide as Hv; [by apply HQ in Hv|done].
Qed.

(** The recursive case of [quicksort], for a list of any length. *)
Lemma quicksort_cons (pivot : A) (rest : list A) :
quicksort key (pivot :: rest) =
quicksort key (filter (λ x, key x ≤ key pivot) rest) ++ [pivot] ++
quicksort key (filter (λ x, key x > key pivot) rest).
Proof. destruct rest; by simp quicksort. Qed.

(** Quicksort turns around the elements that carry the same key: those
  equal to the pivot go to the left of it. *)
Lemma quicksort_filter_key (v : Z) (data : list A) :
filter (λ x, key x = v) (quicksort key data) =
reverse (filter (λ x, key x = v) data).
Proof.
remember (length data) as n eqn:Hn. revert data Hn.
induction (lt_wf n) as [n _ IH]. intros [|pivot rest] Hn; [by simp quicksort|].
rewrite quicksort_cons, !filter_app.
pose proof (length_filter (λ x, key x ≤ key pivot) rest).
pose proof (length_filter (λ x, key x > key pivot) rest).
rewrite (IH (length (filter (λ x, key x ≤ key pivot) rest))
           ltac:(subst n; simpl; lia) _ eq_refl).
rewrite (IH (length (filter (λ x, key x > key pivot) rest))
           ltac:(subst n; simpl; lia) _ eq_refl).
rewrite (filter_cons _ pivot rest), (filter_cons _ pivot []), filter_nil.
destruct (Z.lt_trichotomy v (key pivot)) as [Hv|[Hv|Hv]].
- rewrite filter_key_filter by lia. rewrite filter_key_filter_none by lia.
  rewrite !decide_False by lia. by rewrite !app_nil_r.
- rewrite filter_key_filter by lia. rewrite filter_key_filter_none by lia.
  rewrite !decide_True by lia. by rewrite reverse_cons, app_nil_r.
- rewrite filter_key_filter_none by lia. rewrite filter_key_filter by lia.
  rewrite !decide_False by lia. done.
Qed.

(** A key-ordered list is determined by the sequences of its elements that
  carry each key. *)
Lemma ordered_by_unique (l1 l2 : list A) :
ordered_by key l1 → ordered_by key l2 →
(∀ v, filter (λ x, key x = v) l1 = filter (λ x, key x = v) l2) →
l1 = l2.
Proof.
rewrite !ordered_by_StronglySorted. intros H1. revert l2.
induction H1 as [|a l1 H1 IH Ha]; intros l2 H2 Hf.
- destruct l2 as [|b l2]; [done|].
  specialize (Hf (key b)). rewrite filter_cons, decide_True in Hf by done. done.
- destruct H2 as [|b l2 H2 Hb].
  { specialize (Hf (key a)). rewrite filter_cons, decide_True in Hf by done. done. }
  assert (Hkey : key a = key b).
  { apply Z.le_antisymm.
    - assert (Hin : b ∈ filter (λ x, key x = key b) (a :: l1)).
      { rewrite Hf, filter_cons, decide_True by done. by left. }
      apply list_elem_of_filter in Hin as [_ Hin].
      apply elem_of_cons in Hin as [->|Hin]; [done|].
      rewrite Forall_forall in Ha. by apply Ha.
    - assert (Hin : a ∈ filter (λ x, key x = key a) (b :: l2)).
      { rewrite <- Hf, filter_cons, decide_True by done. by left. }
      apply list_elem_of_filter in Hin as [_ Hin].
      apply elem_of_cons in Hin as [->|Hin]; [done|].
      rewrite Forall_forall in Hb. by apply Hb. }
  pose proof (Hf (key a)) as Hfa.
  rewrite !filter_cons, decide_True in Hfa by done.
  rewrite decide_True in Hfa by done. injection Hfa as -> Hfa.
  f_equal. apply IH; [done|]. intros v. specialize (Hf v).
  rewrite !filter_cons in Hf. case_decide; [|done]. by simplify_eq.
Qed.

Lemma quicksort_merge_sort (data : list A) : quicksort key data = merge_sort key data.
Proof.
apply ordered_by_unique; [apply quicksort_ordered|apply merge_sort_ordered|].
intros v. by rewrite quicksort_filter_key, merge_sort_filter_key.
Qed.

(** When the keys are pairwise distinct, at most one element carries a
  given key. *)
Lemma filter_key_distinct (v : Z) (l : list A) :
NoDup (key <$> l) →
reverse (filter (λ x, key x = v) l) = filter (λ x, key x = v) l.
Proof.
induction l as [|x l IH]; [done|]. rewrite fmap_cons, NoDup_cons.
intros [Hx Hl]. rewrite filter_cons. case_decide as Hv; [|by apply IH].
assert (Hnone : filter (λ x, key x = v) l = []).
{ destruct (filter _ l) as [|y l'] eqn:Hf; [done|].
  assert (Hy : y ∈ filter (λ x, key x = v) l) by (rewrite Hf; by left).
  apply list_elem_of_filter in Hy as [Hky Hy]. exfalso. apply Hx.
  rewrite Hv, <- Hky. by apply list_elem_of_fmap_2. }
by rewrite Hnone.
Qed.
End SortAgreement.

(** X1: [bubble_sort], [merge_sort] and [quicksort] return a list sorted by
    the key: of any two positions of the output, the earlier one holds the
    smaller key, or an equal one. *)
Theorem key_sorts_sorted {A : Type} (key : A → Z) (data : list A) :
  sorted_by key (bubble_sort key data) ∧
  sorted_by key (merge_sort key data) ∧
  sorted_by key (quicksort key data).
Proof.
  split; [apply sorted_by_ordered, bubble_sort_ordered|].
  split; [apply sorted_by_ordered, merge_sort_ordered|].
  apply sorted_by_ordered, quicksort_ordered.
Qed.

(** X2: [quicksort] is not stable: the elements that carry the same key
    come out in the reverse of their input order, on every input. *)
Theorem quicksort_reverses_ties {A : Type} (key : A → Z) (data : list A) :
  reverses_ties key data (quicksort key data).
Proof. intros v. apply quicksort_filter_key. Qed.

(** X3: [quicksort] and [merge_sort] return the same list, on every input
    and for every key. *)
Theorem quicksort_eq_merge_sort {A : Type} (key : A → Z) (data : list A) :
  quicksort key data = merge_sort key data.
Proof. apply quicksort_merge_sort. Qed.

(** X4: sorting twice with [merge_sort], or twice with [quicksort], gives
    the list that [bubble_sort] gives: the second run turns the equal keys
    around again. *)
Theorem sorting_twice_is_stable {A : Type} (key : A → Z) (data : list A) :
  merge_sort key (merge_sort key data) = bubble_sort key data ∧
  quicksort key (quicksort key data) = bubble_sort key data.
Proof.
  split; apply (ordered_by_unique key);
    try apply merge_sort_ordered; try apply quicksort_ordered;
    try apply bubble_sort_ordered; intros v.
  - by rewrite !merge_sort_filter_key, reverse_involutive, bubble_sort_stable.
  - by rewrite !quicksort_filter_key, reverse_involutive, bubble_sort_stable.
Qed.

(** X5: [bubble_sort] returns a list that is already ordered by the key as
    it is. *)
Theorem bubble_sort_ordered_input {A : Type} (key : A → Z) (data : list A) :
  ordered_by key data → bubble_sort key data = data.
Proof.
  intros Hord. apply (ordered_by_unique key); [apply bubble_sort_ordered|done|].
  apply bubble_sort_stable.
Qed.

Lemma bubble_sort_ordered_input_witness :
  bubble_sort (item 2) [[1; 10; 12; 30; 600]; [2; 10; 12; 25; 700]; [1; 5; 20; 10; 60]] =
    [[1; 10; 12; 30; 600]; [2; 10; 12; 25; 700]; [1; 5; 20; 10; 60]].
Proof.
  apply bubble_sort_ordered_input.
  intros [|[|[|i]]] a b Ha Hb; simplify_eq/=; by vm_compute.
Defined.

(** X6: on records with pairwise distinct keys the three sorts that
    compare through the key return the same list. *)
Theorem sorts_agree_on_distinct_keys {A : Type} (key : A → Z) (data : list A) :
  NoDup (key <$> data) →
  merge_sort key data = bubble_sort key data ∧
  quicksort key data = bubble_sort key data.
Proof.
  intros Hnd. rewrite quicksort_merge_sort.
  assert (merge_sort key data = bubble_sort key data); [|done].
  apply (ordered_by_unique key); [apply merge_sort_ordered|apply bubble_sort_ordered|].
  intros v. by rewrite merge_sort_filter_key, bubble_sort_stable, filter_key_distinct.
Qed.

Lemma sorts_agree_on_distinct_keys_witness :
  merge_sort (item 2) [[1; 10; 20; 30; 600]; [2; 10; 12; 25; 700]] =
    bubble_sort (item 2) [[1; 10; 20; 30; 600]; [2; 10; 12; 25; 700]] ∧
  quicksort (item 2) [[1; 10; 20; 30; 600]; [2; 10; 12; 25; 700]] =
    bubble_sort (item 2) [[1; 10; 20; 30; 600]; [2; 10; 12; 25; 700]].
Proof.
  apply sorts_agree_on_distinct_keys.
  apply (bool_decide_unpack _). by vm_compute.
Defined.

(** ** Heapsort *)

(** [heapsort] returns the list that holds the records of the input and is
    sorted in the tuples' order. *)
Lemma heapsort_sorted (data : list Trip) (key_func : Trip → Z) :
  ∃ out, heapsort data key_func = Return out ∧ out ≡ₚ data ∧
         StronglySorted tuple_le out.
Proof.
  apply (heapsort_with_spec tuple_lt tuple_lt_irrefl tuple_lt_trans tuple_lt_total).
Qed.

#[local] Instance tuple_le_antisymm : AntiSymm eq tuple_le.
Proof. intros a b Hab Hba. by apply tuple_lt_total. Qed.

(** X7: the result of [heapsort] depends on the records of the input only,
    not on their order (nor on the key function): two inputs that hold the
    same records give the same list, and sorting the result again returns
    it unchanged. *)
Theorem heapsort_permutation_invariant (data data' : list Trip) (k k' : Trip → Z) :
  data ≡ₚ data' →
  heapsort data k = heapsort data' k' ∧
  ∀ out, heapsort data k = Return out → heapsort out k' = Return out.
Proof.
  intros Hperm.
  destruct (heapsort_sorted data k) as (out & Hout & Hp & Hs).
  destruct (heapsort_sorted data' k') as (out' & Hout' & Hp' & Hs').
  split.
  - rewrite Hout, Hout'. f_equal.
    apply (StronglySorted_unique tuple_le); [done..|]. by rewrite Hp, Hp'.
  - intros out1 Hout1. rewrite Hout in Hout1. injection Hout1 as <-.
    destruct (heapsort_sorted out k') as (out2 & Hout2 & Hp2 & Hs2).
    rewrite Hout2. f_equal. by apply (StronglySorted_unique tuple_le).
Qed.

Lemma heapsort_permutation_invariant_witness :
  heapsort [[2; 3; 0; 3; 20; 1]; [1; 10; 2; 12; 30; 1]] (item 3) =
  heapsort [[1; 10; 2; 12; 30; 1]; [2; 3; 0; 3; 20; 1]] (item 0).
Proof.
  apply heapsort_permutation_invariant. apply perm_swap.
Defined.

(** X8: whatever key function it is given, [heapsort] returns the records
    sorted by their first field (the number of passengers of a trip), when
    no record is the empty tuple. *)
Theorem heapsort_orders_by_first_field (data : list Trip) (key_func : Trip → Z) :
  Forall (λ r, r ≠ []) data →
  ∃ out, heapsort data key_func = Return out ∧ sorted_by (item 0) out.
Proof.
  intros Hne. destruct (heapsort_sorted data key_func) as (out & Hout & Hp & Hs).
  exists out. split; [done|].
  rewrite <- Hp in Hne. clear Hout Hp.
  induction Hs as [|x l Hs IH Hall]; intros i j a b Hij Ha Hb.
  - by rewrite lookup_nil in Ha.
  - apply Forall_cons in Hne as [Hx Hne].
    destruct j as [|j]; [lia|]. destruct i as [|i]; simplify_eq/=.
    + rewrite Forall_forall in Hall, Hne.
      apply list_elem_of_lookup_2 in Hb.
      specialize (Hall _ Hb). specialize (Hne _ Hb).
      destruct a as [|x a], b as [|y b]; try done.
      unfold tuple_le in Hall. simpl in Hall. unfold item. simpl.
      case_decide; [lia|]. apply bool_decide_eq_false in Hall. lia.
    + apply (IH Hne i j); [lia|done..].
Qed.

Lemma heapsort_orders_by_first_field_witness :
  ∃ out, heapsort [[2; 3; 0; 3; 20; 1]; [1; 10; 2; 12; 30; 1]] (item 3) = Return out ∧
         sorted_by (item 0) out.
Proof.
  apply heapsort_orders_by_first_field. repeat constructor; done.
Defined.

(** * More on the graph built *)

Lemma trips_from_to_pos (taxi_data : list (option Z * option Z)) (p d : Z) :
  0 < trips_from_to taxi_data p d ↔ (Some p, Some d) ∈ taxi_data.
Proof.
  unfold trips_from_to. split.
  - intros Hpos. destruct (filter _ taxi_data) as [|x l] eqn:Hf; [simpl in Hpos; lia|].
    assert (Hx : x ∈ filter (λ x, x = (Some p, Some d)) taxi_data) by (rewrite Hf; by left).
    by apply list_elem_of_filter in Hx as [-> Hx].
  - intros Hin.
    assert (Hx : (Some p, Some d) ∈ filter (λ x, x = (Some p, Some d)) taxi_data)
      by by apply list_elem_of_filter.
    destruct (filter _ taxi_data); [by apply elem_of_nil in Hx|]. simpl. lia.
Qed.

(** The keys of [trip_counts]: the pairs of ids different from 0 that occur
    in the batch. *)
Lemma count_trips_key_iff (taxi_data : list (option Z * option Z)) (p d : Z) :
  (p, d) ∈ (count_trips taxi_data).*1 ↔
  p ≠ 0 ∧ d ≠ 0 ∧ (Some p, Some d) ∈ taxi_data.
Proof.
  destruct (count_trips_NoDup taxi_data) as [Hnd Hpos]. split.
  - intros Hin. destruct (count_trips_keys_nonzero _ _ _ Hin) as [Hp Hd].
    split; [done|]. split; [done|]. apply trips_from_to_pos.
    rewrite <- trip_count_count_trips by done.
    apply list_elem_of_fmap in Hin as ([k c] & Hk & Hkc). simpl in Hk. subst k.
    rewrite (trip_count_present _ _ c Hnd Hkc).
    rewrite Forall_forall in Hpos. by apply Hpos in Hkc.
  - intros (Hp & Hd & Hin). apply trips_from_to_pos in Hin.
    rewrite <- trip_count_count_trips in Hin by done.
    destruct (decide ((p, d) ∈ (count_trips taxi_data).*1)) as [|Hk]; [done|].
    rewrite trip_count_absent in Hin by done. lia.
Qed.

(** The neighbours in the graph built, read off the batch. *)
Lemma neighbors_build_graph (taxi_data : list (option Z * option Z))
    (taxi_zone_lookup : list (Z * string)) (u v : Z) :
  v ∈ neighbors (build_graph taxi_data taxi_zone_lookup) u ↔
  u ≠ 0 ∧ v ≠ 0 ∧ ((Some u, Some v) ∈ taxi_data ∨ (Some v, Some u) ∈ taxi_data).
Proof.
  change (v ∈ neighbors ?g u) with (edge g u v).
  rewrite edge_build_graph, !count_trips_key_iff. tauto.
Qed.

(** X9: in the graph built, [v] is a neighbour of [u] exactly when both ids
    are different from 0 and the batch holds a trip from [u] to [v] or from
    [v] to [u]; the lookup table adds no edge. *)
Theorem build_graph_adjacency (taxi_data : list (option Z * option Z))
    (taxi_zone_lookup : list (Z * string)) (u v : Z) :
  v ∈ neighbors (build_graph taxi_data taxi_zone_lookup) u ↔
  u ≠ 0 ∧ v ≠ 0 ∧ ((Some u, Some v) ∈ taxi_data ∨ (Some v, Some u) ∈ taxi_data).
Proof. apply neighbors_build_graph. Qed.

(** [trip_counts[k] += 1] keeps the keys in place and puts a new key last. *)
Lemma count_trip_keys_order (trip_counts : list ((Z * Z) * Z)) (k : Z * Z) :
  (count_trip trip_counts k).*1 =
  if decide (k ∈ trip_counts.*1) then trip_counts.*1 else trip_counts.*1 ++ [k].
Proof.
  induction trip_counts as [|[k0 c] rest IH]; [done|].
  cbn [count_trip]. destruct (decide (k0 = k)) as [->|Hne]; rewrite !fmap_cons.
  - cbn [fst]. rewrite decide_True by by left. done.
  - rewrite IH. cbn [fst]. destruct (decide (k ∈ rest.*1)) as [Hin|Hnin].
    + rewrite decide_True by by right. done.
    + rewrite decide_False; [done|]. rewrite not_elem_of_cons. split; congruence.
Qed.

Lemma count_trips_app_keys (pre post : list (option Z * option Z)) :
  ∃ new, (count_trips (pre ++ post)).*1 = (count_trips pre).*1 ++ new.
Proof.
  induction post as [|[pickup dropoff] post IH] using rev_ind.
  - exists []. by rewrite !app_nil_r.
  - destruct IH as [new IH]. rewrite app_assoc, count_trips_snoc.
    destruct pickup as [p|], dropoff as [d|]; try by exists new.
    destruct (truthy (Some p) && truthy (Some d)); [|by exists new].
    rewrite count_trip_keys_order. case_decide; [by exists new|].
    exists (new ++ [(p, d)]). by rewrite IH, app_assoc.
Qed.

(** The weight of an edge is the count of the last of its two directions in
    [trip_counts]. *)
Lemma edge_weight_foldl_last (tc1 tc2 : list ((Z * Z) * Z)) (g : Graph) (u v c : Z) :
  (u, v) ∉ tc2.*1 → (v, u) ∉ tc2.*1 →
  edge_weight (foldl (λ g '((pickup, dropoff), count), add_edge pickup dropoff count g)
                 g (tc1 ++ ((v, u), c) :: tc2)) u v = Some c.
Proof.
  intros Huv Hvu. rewrite foldl_app. simpl.
  rewrite edge_weight_foldl_other, edge_weight_add_edge by done.
  rewrite decide_True; [done|]. by right.
Qed.

(** X10: when trips go both ways between two zones, the weight of their
    edge is the number of trips of one direction only: the direction whose
    first trip comes later in the batch.  Here the first trip from [v] to
    [u] comes after a trip from [u] to [v]. *)
Theorem build_graph_weight_later_direction (pre post : list (option Z * option Z))
    (taxi_zone_lookup : list (Z * string)) (u v : Z) :
  u ≠ 0 → v ≠ 0 →
  (Some u, Some v) ∈ pre → (Some v, Some u) ∉ pre → (Some v, Some u) ∈ post →
  edge_weight (build_graph (pre ++ post) taxi_zone_lookup) u v =
    Some (trips_from_to (pre ++ post) v u).
Proof.
  intros Hu Hv Huv Hvu Hvu'. unfold build_graph.
  destruct (count_trips_NoDup (pre ++ post)) as [Hnd _].
  destruct (count_trips_app_keys pre post) as [new Hkeys].
  assert (Hk1 : (u, v) ∈ (count_trips pre).*1) by by apply count_trips_key_iff.
  assert (Hk2 : (v, u) ∉ (count_trips pre).*1).
  { rewrite count_trips_key_iff. tauto. }
  assert (Hk3 : (v, u) ∈ (count_trips (pre ++ post)).*1).
  { apply count_trips_key_iff. rewrite elem_of_app. tauto. }
  apply list_elem_of_fmap in Hk3 as ([k c] & Hk & Hkc). simpl in Hk. subst k.
  pose proof (trip_count_present _ _ _ Hnd Hkc) as Hc.
  rewrite trip_count_count_trips in Hc by done. rewrite Hc.
  apply list_elem_of_split in Hkc as (tc1 & tc2 & Htc).
  rewrite Htc in Hnd, Hkeys |- *. rewrite fmap_app, fmap_cons in Hnd, Hkeys.
  simpl in Hnd, Hkeys.
  apply NoDup_app in Hnd as (_ & Hdisj & [Hnot _]%NoDup_cons).
  apply edge_weight_foldl_last; [|done].
  intros Hin. apply app_eq_inv in Hkeys as [(k & H1 & H2)|(k & H1 & H2)].
  - apply (Hdisj (u, v)); [|by right]. rewrite H1. apply elem_of_app. by left.
  - destruct k as [|k0 k].
    + rewrite app_nil_r in H1. apply (Hdisj (u, v)); [|by right]. by rewrite <- H1.
    + simpl in H2. injection H2 as <- _. apply Hk2. rewrite H1.
      apply elem_of_app. right. by left.
Qed.

Lemma build_graph_weight_later_direction_witness :
  edge_weight (build_graph ([(Some 1, Some 2); (Some 1, Some 2)] ++
                               [(Some 2, Some 1); (Some 1, Some 2)])
                 [(1, "A"); (2, "B")]%string) 1 2 = Some 1.
Proof.
  apply (build_graph_weight_later_direction
           [(Some 1, Some 2); (Some 1, Some 2)] [(Some 2, Some 1); (Some 1, Some 2)]).
  - done.
  - done.
  - by left.
  - intros Hin. by repeat (apply elem_of_cons in Hin as [Hin|Hin]; [simplify_eq|]);
      apply elem_of_nil in Hin.
  - by left.
Defined.

(** ** The nodes of the graph built and their names *)

Lemma node_order_touch_node (n : Z) (g : Graph) :
  node_order g `prefix_of` node_order (touch_node n g).
Proof.
  unfold touch_node. destruct (adj g !! n); simpl; [done|]. by apply prefix_app_r.
Qed.

Lemma node_order_add_edge_prefix (p d c : Z) (g : Graph) :
  node_order g `prefix_of` node_order (add_edge p d c g).
Proof.
  unfold add_edge. cbn [node_order].
  etrans; [apply (node_order_touch_node p)|apply node_order_touch_node].
Qed.

Lemma node_name_touch_node (n : Z) (g : Graph) :
  node_name (touch_node n g) = node_name g.
Proof. unfold touch_node. by destruct (adj g !! n). Qed.

Lemma node_name_add_edge (p d c : Z) (g : Graph) :
  node_name (add_edge p d c g) = node_name g.
Proof. unfold add_edge. cbn [node_name]. by rewrite !node_name_touch_node. Qed.

Lemma is_node_add_edge (p d c : Z) (g : Graph) (n : Z) :
  is_Some (adj (add_edge p d c g) !! n) ↔ n = p ∨ n = d ∨ is_Some (adj g !! n).
Proof.
  unfold add_edge. cbn [adj]. rewrite !lookup_alter_is_Some, !touch_node_is_node. tauto.
Qed.

Lemma foldl_add_edge_nodes (trip_counts : list ((Z * Z) * Z)) (g : Graph) :
  let g' := foldl (λ g '((pickup, dropoff), count), add_edge pickup dropoff count g)
              g trip_counts in
  node_order g `prefix_of` node_order g' ∧ node_name g' = node_name g ∧
  ∀ n, is_Some (adj g' !! n) ↔
       is_Some (adj g !! n) ∨ ∃ m, (n, m) ∈ trip_counts.*1 ∨ (m, n) ∈ trip_counts.*1.
Proof.
  revert g. induction trip_counts as [|[[p d] c] rest IH]; intros g; simpl.
  - split; [done|]. split; [done|]. intros n. split; [by left|].
    intros [?|(m & [Hm|Hm])]; [done|by apply elem_of_nil in Hm..].
  - destruct (IH (add_edge p d c g)) as (IH1 & IH2 & IH3). split; [|split].
    + etrans; [apply (node_order_add_edge_prefix p d c)|done].
    + by rewrite IH2, node_name_add_edge.
    + intros n. rewrite IH3, is_node_add_edge. setoid_rewrite elem_of_cons. split.
      * intros [[->|[->|Hn]]|(m & Hm)]; [right; exists d|right; exists p|by left|right; exists m];
          naive_solver.
      * intros [Hn|(m & [[Heq|Hm]|[Heq|Hm]])]; simplify_eq; eauto 6.
Qed.

Lemma foldl_add_node_nodes (taxi_zone_lookup : list (Z * string)) (g : Graph) :
  graph_wf g → NoDup taxi_zone_lookup.*1 →
  (∀ n, n ∈ taxi_zone_lookup.*1 → n ∉ node_order g) →
  let g' := foldl (λ g '(zone_id, zone_name), add_node zone_id zone_name g)
              g taxi_zone_lookup in
  node_order g' = node_order g ++ taxi_zone_lookup.*1 ∧
  ∀ n s, node_name g' !! n = Some s ↔
         (n, s) ∈ taxi_zone_lookup ∨ ((n ∉ taxi_zone_lookup.*1) ∧ node_name g !! n = Some s).
Proof.
  revert g. induction taxi_zone_lookup as [|[m name] rest IH]; intros g Hwf Hnd Hfresh; simpl.
  - split; [by rewrite app_nil_r|]. intros n s. split; [|intros [Hin|[_ ?]]; [by apply elem_of_nil in Hin|done]].
    intros Hn. right. split; [apply not_elem_of_nil|done].
  - rewrite fmap_cons in Hnd. apply NoDup_cons in Hnd as [Hm Hnd]. simpl in Hm.
    assert (Hadj : adj g !! m = None).
    { apply eq_None_not_Some. intros Hs. apply graph_wf_alt in Hwf as (_ & Hdom & _).
      apply Hdom in Hs. revert Hs. apply Hfresh. by left. }
    assert (Heq : add_node m name g =
      {| node_order := node_order g ++ [m]; node_name := <[m := name]> (node_name g);
         adj := <[m := ∅]> (adj g) |}).
    { unfold add_node. by rewrite Hadj. }
    destruct (IH (add_node m name g)) as [IH1 IH2].
    + by apply graph_wf_add_node.
    + done.
    + intros n Hn. rewrite Heq. simpl. rewrite elem_of_app, list_elem_of_singleton.
      intros [Hn'| ->]; [|done]. apply (Hfresh n); [by right|done].
    + split.
      * rewrite IH1, Heq. simpl. by rewrite <- app_assoc.
      * intros n s. rewrite IH2, Heq. simpl. rewrite !elem_of_cons.
        destruct (decide (n = m)) as [->|Hne].
        -- rewrite lookup_insert_eq. split.
           ++ intros [Hin|[_ Hs]]; [|left; left; congruence].
              exfalso. apply Hm. apply list_elem_of_fmap. by exists (m, s).
           ++ intros [[Heq'|Hin]|[Hno _]]; [right; split; [done|congruence]| |naive_solver].
              exfalso. apply Hm. apply list_elem_of_fmap. by exists (m, s).
        -- rewrite lookup_insert_ne by done. naive_solver.
Qed.

(** X11: the nodes of the graph built, for a lookup table with distinct
    ids: the ids of the table come first, in the order of the table; no node
    is listed twice; a node is an id of the table or an end of a trip with
    both ids different from 0; and the nodes that carry a name are those of
    the table, with the name of the table. *)
Theorem build_graph_nodes (taxi_data : list (option Z * option Z))
    (taxi_zone_lookup : list (Z * string)) :
  NoDup taxi_zone_lookup.*1 →
  taxi_zone_lookup.*1 `prefix_of` node_order (build_graph taxi_data taxi_zone_lookup) ∧
  NoDup (node_order (build_graph taxi_data taxi_zone_lookup)) ∧
  (∀ n, n ∈ node_order (build_graph taxi_data taxi_zone_lookup) ↔
        n ∈ taxi_zone_lookup.*1 ∨
        ∃ m, n ≠ 0 ∧ m ≠ 0 ∧ ((Some n, Some m) ∈ taxi_data ∨ (Some m, Some n) ∈ taxi_data)) ∧
  (∀ n s, node_name (build_graph taxi_data taxi_zone_lookup) !! n = Some s ↔
          (n, s) ∈ taxi_zone_lookup).
Proof.
  intros Hnd.
  pose proof (graph_wf_build_graph taxi_data taxi_zone_lookup) as Hwf.
  apply graph_wf_alt in Hwf as (Hnd' & Hdom & _).
  destruct (foldl_add_node_nodes taxi_zone_lookup empty_graph graph_wf_empty Hnd)
    as [Hn1 Hn2]; [intros n _; apply not_elem_of_nil|].
  simpl in Hn1.
  pose proof (foldl_add_edge_nodes (count_trips taxi_data)
    (foldl (λ g '(zone_id, zone_name), add_node zone_id zone_name g)
       empty_graph taxi_zone_lookup)) as (He1 & He2 & He3).
  fold (build_graph taxi_data taxi_zone_lookup) in He1, He2, He3.
  rewrite Hn1 in He1. split; [done|]. split; [done|]. split.
  - intros n. rewrite Hdom, He3.
    assert (Hz : is_Some (adj (foldl (λ g '(zone_id, zone_name), add_node zone_id zone_name g)
                   empty_graph taxi_zone_lookup) !! n) ↔ n ∈ taxi_zone_lookup.*1).
    { assert (Hwf0 : graph_wf (foldl (λ g '(zone_id, zone_name), add_node zone_id zone_name g)
                   empty_graph taxi_zone_lookup)).
      { pose proof (graph_wf_build_graph [] taxi_zone_lookup) as H. exact H. }
      apply graph_wf_alt in Hwf0 as (_ & Hdom0 & _). by rewrite <- Hdom0, Hn1. }
    rewrite Hz. setoid_rewrite count_trips_key_iff. naive_solver.
  - intros n s. rewrite He2, Hn2. simpl. rewrite lookup_empty. naive_solver.
Qed.

Lemma build_graph_nodes_witness :
  [1; 2; 3; 4] `prefix_of` node_order (build_graph [(Some 5, Some 2)] example_names).
Proof.
  apply (build_graph_nodes [(Some 5, Some 2)] example_names).
  apply (bool_decide_unpack _). by vm_compute.
Defined.

(** * Further properties of the component searches *)

Section ComponentOrder.
Variable g : Graph.
Hypothesis Hwf : graph_wf g.

Lemma search_result_class (node : Z) (component : list Z) :
node ∈ node_order g → (∀ x, x ∈ component ↔ connected g node x) →
list_to_set component = node_connected_component g node.
Proof.
intros Hnode Hcomp. apply set_eq. intros x.
by rewrite elem_of_list_to_set, Hcomp, elem_of_node_connected_component.
Qed.

(** In a list of components that are the classes of connected nodes, two
  nodes share a component exactly when a path leads from one to the other. *)
Lemma partitions_nodes_share (components : list (list Z)) (u v : Z) :
partitions_nodes g components →
(∃ c, c ∈ components ∧ u ∈ c ∧ v ∈ c) ↔ u ∈ node_order g ∧ connected g u v.
Proof.
intros (Hnd & Hcover & Hclass). split.
- intros (c & Hc & Hu & Hv). split.
  + apply Hcover, elem_of_concat. eauto.
  + destruct (Hclass c Hc) as (r & Hr & Hrc). apply Hrc in Hu, Hv.
    etrans; [|exact Hv]. by apply connected_sym.
- intros [Hu Huv]. apply Hcover, elem_of_concat in Hu as (c & Hc & Hu).
  exists c. split; [done|]. split; [done|].
  destruct (Hclass c Hc) as (r & Hr & Hrc). apply Hrc. apply Hrc in Hu. by etrans.
Qed.

(** A node without neighbours is a component of its own. *)
Lemma partitions_nodes_isolated (components : list (list Z)) (v : Z) :
partitions_nodes g components → v ∈ node_order g → neighbors g v = ∅ →
[v] ∈ components.
Proof.
intros Hpart Hv Hnone. pose proof Hpart as (Hnd & Hcover & Hclass).
pose proof Hv as Hv'. apply Hcover, elem_of_concat in Hv' as (c & Hc & Hvc).
assert (Honly : ∀ x, x ∈ c → x = v).
{ intros x Hx.
  assert (Hvx : connected g v x).
  { apply (partitions_nodes_share components v x Hpart). eauto. }
  destruct Hvx as [|v w x Hvw _]; [done|].
  unfold edge in Hvw. rewrite Hnone in Hvw. set_solver. }
destruct (NoDup_concat_disjoint _ Hnd) as [_ Hnd']. specialize (Hnd' c Hc).
replace [v] with c; [done|].
destruct c as [|x c]; [by apply elem_of_nil in Hvc|].
pose proof (Honly x ltac:(by left)) as ->.
destruct c as [|y c]; [done|].
pose proof (Honly y ltac:(right; by left)) as ->.
apply NoDup_cons in Hnd' as [Hnot _]. exfalso. apply Hnot. by left.
Qed.

Section Order.
Variable set_order : gset Z → list Z.
Hypothesis set_order_spec : ∀ X x, x ∈ set_order X ↔ x ∈ X.

(** The loop over the nodes of the depth-first search adds, in the order
of the nodes, the components that the library traversal yields. *)
Lemma dfs_components_order (nodes : list Z) (visited : gset Z)
(components : list (list Z)) :
  (∀ x, x ∈ nodes → x ∈ node_order g) → closed g visited →
  ∃ new,
dfs_components set_order g nodes visited components = Return (components ++ new) ∧
list_to_set <$> new = connected_components_from g nodes visited.
Proof.
  revert visited components.
  induction nodes as [|node rest IH]; intros visited components Hnodes Hcl; simpl.
  - exists []. by rewrite app_nil_r.
  - assert (Hrest : ∀ x, x ∈ rest → x ∈ node_order g).
{ intros x Hx. apply Hnodes. by right. }
case_decide as Hvis; [by apply IH|].
destruct (dfs_spec g Hwf set_order set_order_spec visited node) as
  (component & visited1 & -> & Hcomp & Hcl1 & Hnd & Hvis1 & Hfresh);
  [done|apply Hnodes; by left|done|].
simpl.
pose proof (search_result_class node component
              (Hnodes node ltac:(by left)) Hcomp) as Hclass.
destruct (IH visited1 (components ++ [component]) Hrest Hcl1) as (new & Heq & Hnew).
exists (component :: new). split.
+ rewrite Heq. f_equal. by rewrite <- app_assoc.
+ rewrite fmap_cons, Hnew, Hclass, Hvis1, Hclass. done.
Qed.

Lemma bfs_components_order (nodes : list Z) (visited : gset Z)
(components : list (list Z)) :
  (∀ x, x ∈ nodes → x ∈ node_order g) → closed g visited →
  ∃ new,
bfs_components set_order g nodes visited components = Return (components ++ new) ∧
list_to_set <$> new = connected_components_from g nodes visited.
Proof.
  revert visited components.
  induction nodes as [|node rest IH]; intros visited components Hnodes Hcl; simpl.
  - exists []. by rewrite app_nil_r.
  - assert (Hrest : ∀ x, x ∈ rest → x ∈ node_order g).
{ intros x Hx. apply Hnodes. by right. }
case_decide as Hvis; [by apply IH|].
destruct (bfs_spec g Hwf set_order set_order_spec visited node) as
  (component & visited1 & -> & Hcomp & Hcl1 & Hnd & Hvis1 & Hfresh);
  [done|apply Hnodes; by left|done|].
simpl.
pose proof (search_result_class node component
              (Hnodes node ltac:(by left)) Hcomp) as Hclass.
destruct (IH visited1 (components ++ [component]) Hrest Hcl1) as (new & Heq & Hnew).
exists (component :: new). split.
+ rewrite Heq. f_equal. by rewrite <- app_assoc.
+ rewrite fmap_cons, Hnew, Hclass, Hvis1, Hclass. done.
Qed.

Lemma searches_in_order :
  ∃ dfs_components bfs_components,
find_connected_components_dfs set_order g = Return dfs_components ∧
find_connected_components_bfs set_order g = Return bfs_components ∧
list_to_set <$> dfs_components = find_connected_components_networkx g ∧
list_to_set <$> bfs_components = find_connected_components_networkx g.
Proof.
  assert (Hcl : closed g ∅) by (intros u v Hu; set_solver).
  destruct (dfs_components_order (node_order g) ∅ []) as (d & Hd & Hdn); [done..|].
  destruct (bfs_components_order (node_order g) ∅ []) as (b & Hb & Hbn); [done..|].
  exists d, b. done.
Qed.
End Order.
End ComponentOrder.

(** X12: on every graph (with the invariant networkx maintains) and
    whatever the order in which a set is iterated, the depth-first and the
    breadth-first search list the same components as the library traversal,
    in the same order: the component at each position holds the same nodes
    under the three methods. *)
Theorem searches_list_components_like_networkx (set_order : gset Z → list Z) (g : Graph) :
  (∀ X x, x ∈ set_order X ↔ x ∈ X) → graph_wf g →
  ∃ dfs_components bfs_components,
    find_connected_components_dfs set_order g = Return dfs_components ∧
    find_connected_components_bfs set_order g = Return bfs_components ∧
    list_to_set <$> dfs_components = find_connected_components_networkx g ∧
    list_to_set <$> bfs_components = find_connected_components_networkx g.
Proof. intros Hord Hwf. by apply searches_in_order. Qed.

Lemma searches_list_components_like_networkx_witness :
  ∃ dfs_components bfs_components,
    find_connected_components_dfs elements example_graph = Return dfs_components ∧
    find_connected_components_bfs elements example_graph = Return bfs_components ∧
    list_to_set <$> dfs_components = find_connected_components_networkx example_graph ∧
    list_to_set <$> bfs_components = find_connected_components_networkx example_graph.
Proof.
  apply (searches_list_components_like_networkx elements example_graph).
  - intros X x. apply elem_of_elements.
  - apply (bool_decide_unpack _). by vm_compute.
Defined.

(** X13: [compare_performance] prints the same number of components for
    NetworkX, DFS and BFS.  It reads the clock six times, and the time
    printed for each method is the difference of the two readings taken
    around it. *)
Theorem compare_performance_counts (set_order : gset Z → list Z) (g : Graph) (w : World) :
  (∀ X x, x ∈ set_order X ↔ x ∈ X) → graph_wf g →
  ∃ w',
    compare_performance set_order g w =
      Return ([ {| method := "NetworkX"; seconds := lap w 0;
                   found := length (find_connected_components_networkx g) |};
                {| method := "DFS"; seconds := lap w 2;
                   found := length (find_connected_components_networkx g) |};
                {| method := "BFS"; seconds := lap w 4;
                   found := length (find_connected_components_networkx g) |} ], w') ∧
    reads w' = (6 + reads w)%nat.
Proof.
  intros Hord Hwf.
  destruct (searches_in_order g Hwf set_order Hord) as (d & b & Hd & Hb & Hdn & Hbn).
  unfold compare_performance, bind, call_on_graph, call, time_time, ret, lap.
  cbn [outcome_bind readings reads invocations]. rewrite Hd, Hb. cbn [outcome_bind].
  assert (Hld : length d = length (find_connected_components_networkx g))
    by by rewrite <- Hdn, length_fmap.
  assert (Hlb : length b = length (find_connected_components_networkx g))
    by by rewrite <- Hbn, length_fmap.
  rewrite Hld, Hlb. eexists. split; reflexivity.
Qed.

Lemma compare_performance_counts_witness :
  ∃ w',
    compare_performance elements example_graph
      {| readings := λ i, inject_Z (Z.of_nat i); reads := 0; invocations := 0 |} =
      Return ([ {| method := "NetworkX"; seconds := 1;
                   found := length (find_connected_components_networkx example_graph) |};
                {| method := "DFS"; seconds := 1;
                   found := length (find_connected_components_networkx example_graph) |};
                {| method := "BFS"; seconds := 1;
                   found := length (find_connected_components_networkx example_graph) |} ], w') ∧
    reads w' = 6%nat.
Proof.
  apply (compare_performance_counts elements example_graph
           {| readings := λ i, inject_Z (Z.of_nat i); reads := 0; invocations := 0 |}).
  - intros X x. apply elem_of_elements.
  - apply (bool_decide_unpack _). by vm_compute.
Defined.

(** ** From the trips to the components *)

Lemma connected_build_graph (taxi_data : list (option Z * option Z))
    (taxi_zone_lookup : list (Z * string)) (u v : Z) :
  connected (build_graph taxi_data taxi_zone_lookup) u v ↔ rtc (trip_between taxi_data) u v.
Proof.
  unfold connected. split; apply rtc_subrel; intros x y;
    unfold edge, trip_between; by rewrite neighbors_build_graph.
Qed.

(** X14: on the graph built from any batch and any lookup table the two
    searches return (no node of the graph is missing from its adjacency),
    and two zones lie in one component exactly when a chain of trips, each
    with both ids different from 0 and taken in either direction, leads from
    one to the other.  A zone of the table that no such trip touches is a
    component of its own. *)
Theorem built_graph_components (set_order : gset Z → list Z)
    (taxi_data : list (option Z * option Z)) (taxi_zone_lookup : list (Z * string)) :
  (∀ X x, x ∈ set_order X ↔ x ∈ X) →
  ∃ dfs_components bfs_components,
    find_connected_components_dfs set_order (build_graph taxi_data taxi_zone_lookup) =
      Return dfs_components ∧
    find_connected_components_bfs set_order (build_graph taxi_data taxi_zone_lookup) =
      Return bfs_components ∧
    (∀ u v, (∃ c, c ∈ dfs_components ∧ u ∈ c ∧ v ∈ c) ↔
            u ∈ node_order (build_graph taxi_data taxi_zone_lookup) ∧
            rtc (trip_between taxi_data) u v) ∧
    (∀ u v, (∃ c, c ∈ bfs_components ∧ u ∈ c ∧ v ∈ c) ↔
            u ∈ node_order (build_graph taxi_data taxi_zone_lookup) ∧
            rtc (trip_between taxi_data) u v) ∧
    (∀ z, z ∈ taxi_zone_lookup.*1 → (∀ m, ¬ trip_between taxi_data z m) →
          [z] ∈ dfs_components ∧ [z] ∈ bfs_components).
Proof.
  intros Hord.
  pose proof (graph_wf_build_graph taxi_data taxi_zone_lookup) as Hwf.
  destruct (find_connected_components_dfs_spec _ Hwf set_order Hord) as (d & Hd & Hpd).
  destruct (find_connected_components_bfs_spec _ Hwf set_order Hord) as (b & Hb & Hpb).
  exists d, b. split; [done|]. split; [done|].
  split; [|split].
  - intros u v. by rewrite (partitions_nodes_share _ Hwf d u v Hpd), connected_build_graph.
  - intros u v. by rewrite (partitions_nodes_share _ Hwf b u v Hpb), connected_build_graph.
  - intros z Hz Hnone.
    assert (Hiso : neighbors (build_graph taxi_data taxi_zone_lookup) z = ∅).
    { apply set_eq. intros m. rewrite neighbors_build_graph. split; [|set_solver].
      intros Hm. by destruct (Hnone m). }
    pose proof (node_order_build_graph taxi_data taxi_zone_lookup z Hz) as Hnode.
    split; by eapply partitions_nodes_isolated.
Qed.

Lemma built_graph_components_witness :
  ∃ dfs_components bfs_components,
    find_connected_components_dfs elements (build_graph example_pairs example_names) =
      Return dfs_components ∧
    find_connected_components_bfs elements (build_graph example_pairs example_names) =
      Return bfs_components ∧
    [4] ∈ dfs_components ∧ [4] ∈ bfs_components.
Proof.
  destruct (built_graph_components elements example_pairs example_names)
    as (d & b & Hd & Hb & _ & _ & Hiso).
  - intros X x. apply elem_of_elements.
  - exists d, b. split; [exact Hd|]. split; [exact Hb|].
    apply (Hiso 4).
    + apply (bool_decide_unpack _). by vm_compute.
    + intros m (_ & _ & [Hin|Hin]); unfold example_pairs in Hin;
        repeat (apply elem_of_cons in Hin as [Hin|Hin]; [simplify_eq|]);
        by apply elem_of_nil in Hin.
Defined.

(** * The readers of task3.py *)

Section Task3ReaderFacts.
Variable isdigit : string → bool.
Variable int : string → outcome Z.

Lemma location_id_raises (row : list string) (i : nat) (e : exn) :
location_id isdigit int row i = Raise e →
e = IndexError ∨ ∃ cell, cell ∈ row ∧ int cell = Raise e.
Proof.
unfold location_id. destruct (row !! i) as [cell|] eqn:Hcell; [|naive_solver].
destruct (isdigit cell); [|done].
destruct (int cell) eqn:Hint; [done|]. simpl. intros [= ->].
right. exists cell. split; [by eapply list_elem_of_lookup_2|done].
Qed.

Lemma read_row_raises (row : list string) (e : exn) :
read_row isdigit int row = Raise e →
e = IndexError ∨ ∃ cell, cell ∈ row ∧ int cell = Raise e.
Proof.
unfold read_row. destruct (location_id isdigit int row 5) eqn:H5; simpl.
- destruct (location_id isdigit int row 6) eqn:H6; simpl; [done|].
  intros [= ->]. by eapply location_id_raises.
- intros [= ->]. by eapply location_id_raises.
Qed.

Lemma read_rows_omap (reader : list (list string)) (taxi_data : list (option Z * option Z)) :
(∀ row cell e, row ∈ reader → cell ∈ row → int cell = Raise e → e = ValueError) →
read_rows isdigit int reader taxi_data =
  Return (taxi_data ++ omap (row_trip isdigit int) reader).
Proof.
revert taxi_data. induction reader as [|row reader IH]; intros taxi_data Hint; simpl.
- by rewrite app_nil_r.
- assert (Hrest : ∀ row cell e, row ∈ reader → cell ∈ row → int cell = Raise e →
                                 e = ValueError).
  { intros r c e Hr. apply Hint. by right. }
  unfold row_trip at 1. destruct (read_row isdigit int row) as [trip|e] eqn:Hrow.
  + rewrite IH by done. by rewrite <- app_assoc.
  + apply read_row_raises in Hrow as [->|(cell & Hcell & Hraise)].
    * by apply IH.
    * pose proof (Hint row cell e ltac:(by left) Hcell Hraise) as ->. by apply IH.
Qed.

Lemma read_row_short (row : list string) :
(length row < 7)%nat → row_trip isdigit int row = None.
Proof.
intros Hlen. unfold row_trip, read_row, location_id.
destruct (row !! 5%nat) as [c5|] eqn:H5; [|done].
destruct (row !! 6%nat) as [c6|] eqn:H6.
{ apply lookup_lt_Some in H6. lia. }
destruct (isdigit c5); [|done]. by destruct (int c5).
Qed.

Lemma read_rows_from (reader : list (list string))
  (taxi_data result : list (option Z * option Z)) (trip : option Z * option Z) :
read_rows isdigit int reader taxi_data = Return result → trip ∈ result →
trip ∈ taxi_data ∨ ∃ row, row ∈ reader ∧ read_row isdigit int row = Return trip.
Proof.
revert taxi_data. induction reader as [|row reader IH]; intros taxi_data; simpl.
- intros [= ->]. by left.
- destruct (read_row isdigit int row) as [t|e] eqn:Hrow.
  + intros Hres Hin. destruct (IH _ Hres Hin) as [Hin'|(r & Hr & Hrr)].
    * apply elem_of_app in Hin' as [?|Heq%list_elem_of_singleton]; [by left|]. subst t.
      right. exists row. split; [by left|done].
    * right. exists r. split; [by right|done].
  + assert (Hskip : read_rows isdigit int reader taxi_data = Return result →
      trip ∈ result →
      trip ∈ taxi_data ∨ ∃ row0, row0 ∈ row :: reader ∧ read_row isdigit int row0 = Return trip).
    { intros Hres Hin. destruct (IH _ Hres Hin) as [?|(r & Hr & Hrr)]; [by left|].
      right. exists r. split; [by right|done]. }
    destruct e as [| |[|[|tag]]]; try done.
Qed.

Lemma location_id_Some (row : list string) (i : nat) (n : Z) :
location_id isdigit int row i = Return (Some n) →
∃ cell, row !! i = Some cell ∧ isdigit cell = true ∧ int cell = Return n.
Proof.
unfold location_id. destruct (row !! i) as [cell|]; [|done].
destruct (isdigit cell) eqn:Hd; [|done].
destruct (int cell) eqn:Hint; [|done]. simpl. intros [= ->]. by exists cell.
Qed.

Lemma read_row_Some (row : list string) (p d : Z) :
read_row isdigit int row = Return (Some p, Some d) →
∃ pickup dropoff, row !! 5%nat = Some pickup ∧ row !! 6%nat = Some dropoff ∧
  isdigit pickup = true ∧ isdigit dropoff = true ∧
  int pickup = Return p ∧ int dropoff = Return d.
Proof.
unfold read_row. destruct (location_id isdigit int row 5) as [x|] eqn:H5; [|done].
simpl. destruct (location_id isdigit int row 6) as [y|] eqn:H6; [|done].
simpl. intros [= -> ->].
apply location_id_Some in H5 as (c5 & ? & ? & ?).
apply location_id_Some in H6 as (c6 & ? & ? & ?). by exists c5, c6.
Qed.
End Task3ReaderFacts.

(** ** Dictionaries in insertion order *)




Section ZoneReaderFacts.
Variable int : string → outcome Z.



End ZoneReaderFacts.

(** X15: [read_nyc_taxi_data] raises [StopIteration] on a file without a
    header row; otherwise, when [int] raises nothing but [ValueError] on the
    cells of the file, it returns, and its result holds, in the order of the
    rows, the pair of each row for which the body of the [try] returns one.
    A row with fewer than seven cells gives no pair; a row whose cells 5
    and 6 are both not all-digit gives the pair [(None, None)]. *)
Theorem read_nyc_taxi_data_rows (isdigit : string → bool) (int : string → outcome Z)
    (reader : list (list string)) :
  (∀ row cell e, row ∈ reader → cell ∈ row → int cell = Raise e → e = ValueError) →
  read_nyc_taxi_data isdigit int reader =
    match reader with
    | [] => Raise StopIteration
    | _ :: rows => Return (omap (row_trip isdigit int) rows)
    end ∧
  (∀ row, (length row < 7)%nat → row_trip isdigit int row = None) ∧
  (∀ row pickup dropoff,
     row !! 5%nat = Some pickup → row !! 6%nat = Some dropoff →
     isdigit pickup = false → isdigit dropoff = false →
     row_trip isdigit int row = Some (None, None)).
Proof.
  intros Hint. split; [|split].
  - destruct reader as [|header rows]; [done|]. simpl.
    rewrite read_rows_omap; [done|]. intros row cell e Hrow. apply Hint. by right.
  - apply read_row_short.
  - intros row pickup dropoff H5 H6 Hp Hd.
    unfold row_trip, read_row, location_id. by rewrite H5, H6, Hp, Hd.
Qed.

Lemma read_nyc_taxi_data_rows_witness :
  read_nyc_taxi_data decimal_isdigit decimal_int
    [["a"; "b"; "c"; "d"; "e"; "PULocationID"; "DOLocationID"];
     ["1"; "x"; "y"; "1"; "2.5"; "132"; "48"];
     ["short"; "row"];
     ["2"; "x"; "y"; "1"; "0.7"; "n/a"; "7"]]%string =
  Return [(Some 132, Some 48); (None, Some 7)].
Proof.
  apply (read_nyc_taxi_data_rows decimal_isdigit decimal_int).
  intros row cell e _ _. unfold decimal_int.
  destruct cell; [by intros [= <-]|]. case_match; [done|by intros [= <-]].
Defined.

(** X16: from the file to the graph: an edge of the graph built from the
    pairs that [read_nyc_taxi_data] returns comes from a data row (not the
    header) whose cells 5 and 6 are both all-digit and convert to the two
    ends of the edge, in one order or the other. *)
Theorem read_then_build_edges (isdigit : string → bool) (int : string → outcome Z)
    (reader : list (list string)) (taxi_data : list (option Z * option Z))
    (taxi_zone_lookup : list (Z * string)) (u v : Z) :
  read_nyc_taxi_data isdigit int reader = Return taxi_data →
  v ∈ neighbors (build_graph taxi_data taxi_zone_lookup) u →
  ∃ row pickup dropoff,
    row ∈ tail reader ∧ row !! 5%nat = Some pickup ∧ row !! 6%nat = Some dropoff ∧
    isdigit pickup = true ∧ isdigit dropoff = true ∧
    ((int pickup = Return u ∧ int dropoff = Return v) ∨
     (int pickup = Return v ∧ int dropoff = Return u)).
Proof.
  intros Hread (_ & _ & Hin)%neighbors_build_graph.
  destruct reader as [|header rows]; [done|]. simpl in Hread |- *.
  assert (Hfrom : ∀ p d, (Some p, Some d) ∈ taxi_data →
    ∃ row pickup dropoff,
      row ∈ rows ∧ row !! 5%nat = Some pickup ∧ row !! 6%nat = Some dropoff ∧
      isdigit pickup = true ∧ isdigit dropoff = true ∧
      int pickup = Return p ∧ int dropoff = Return d).
  { intros p d Hpd.
    destruct (read_rows_from isdigit int rows [] taxi_data _ Hread Hpd)
      as [Hnil|(row & Hrow & Hpair)]; [by apply elem_of_nil in Hnil|].
    apply read_row_Some in Hpair as (pickup & dropoff & ? & ? & ? & ? & ? & ?).
    by exists row, pickup, dropoff. }
  destruct Hin as [Hin|Hin]; apply Hfrom in Hin
    as (row & pickup & dropoff & ? & ? & ? & ? & ? & ? & ?);
    exists row, pickup, dropoff; naive_solver.
Qed.

Lemma read_then_build_edges_witness :
  ∃ row pickup dropoff,
    row ∈ tail [["a"; "b"; "c"; "d"; "e"; "PULocationID"; "DOLocationID"];
                ["1"; "x"; "y"; "1"; "2.5"; "132"; "48"]]%string ∧
    row !! 5%nat = Some pickup ∧ row !! 6%nat = Some dropoff ∧
    decimal_isdigit pickup = true ∧ decimal_isdigit dropoff = true ∧
    ((decimal_int pickup = Return 48 ∧ decimal_int dropoff = Return 132) ∨
     (decimal_int pickup = Return 132 ∧ decimal_int dropoff = Return 48)).
Proof.
  apply (read_then_build_edges decimal_isdigit decimal_int _
           [(Some 132, Some 48)] [] 48 132).
  - reflexivity.
  - by vm_compute.
Defined.



(** * task1.py *)

Section CountTripsFacts.
Variable int : string → outcome Z.
Variable zones : gmap Z string.

Lemma count_trip_lookup (zone_counts : gmap string Z) (trip : gmap string string)
  (name : string) :
(∀ id zone, zones !! id = Some zone → is_Some (zone_counts !! zone)) →
Task1.count_trip int zones zone_counts trip !! name =
(λ count, if decide (pickup_zone int zones trip = Some name) then count + 1 else count)
  <$> zone_counts !! name.
Proof.
intros Hkeys. unfold Task1.count_trip, pickup_zone.
destruct (trip !! "PULocationID"%string) as [cell|];
  [|destruct (zone_counts !! name); simpl; repeat case_decide; done].
destruct (int cell) as [zone_id|e];
  [|destruct (zone_counts !! name); simpl; repeat case_decide; done].
destruct (zones !! zone_id) as [zone|] eqn:Hzone;
  [|destruct (zone_counts !! name); simpl; repeat case_decide; done].
destruct (Hkeys _ _ Hzone) as [count Hcount]. rewrite Hcount.
destruct (decide (zone = name)) as [->|Hne].
- rewrite lookup_insert_eq, Hcount. simpl. by rewrite decide_True.
- rewrite lookup_insert_ne by done.
  destruct (zone_counts !! name); simpl; [|done]. rewrite decide_False; [done|congruence].
Qed.

Lemma count_trips_lookup (data : list (gmap string string)) (name : string) :
Task1.count_trips int data zones !! name =
if decide (name ∈ (map_img zones : gset string)) then
  Some (Z.of_nat (length (filter (λ trip, pickup_zone int zones trip = Some name) data)))
else None.
Proof.
unfold Task1.count_trips. revert name.
induction data as [|trip data IH] using rev_ind; intros name.
- simpl. rewrite lookup_gset_to_gmap. case_decide.
  + by rewrite option_guard_True.
  + by rewrite option_guard_False.
- rewrite foldl_app. simpl. rewrite count_trip_lookup.
  + rewrite IH. destruct (decide (name ∈ (map_img zones : gset string))); [|done].
    simpl. f_equal.
    rewrite filter_app, length_app, filter_cons, filter_nil.
    case_decide; simpl; lia.
  + intros id zone Hz. rewrite IH. rewrite decide_True; [done|].
    apply elem_of_map_img. by exists id.
Qed.
End CountTripsFacts.

(** X18: [count_trips] of task1.py never raises; the keys of its result
    are the zone names of the table, whatever the trips; and the count of a
    name is the number of the trips whose pick-up cell converts to an id
    that the table maps to that name (two ids with one name are counted
    together; a trip without the column, with a cell that does not convert
    or with an unknown id is skipped). *)
Theorem count_trips_counts (int : string → outcome Z) (data : list (gmap string string))
    (zones : gmap Z string) (name : string) :
  dom (Task1.count_trips int data zones) = map_img zones ∧
  Task1.count_trips int data zones !! name =
    if decide (name ∈ (map_img zones : gset string)) then
      Some (Z.of_nat (length (filter (λ trip, pickup_zone int zones trip = Some name) data)))
    else None.
Proof.
  split; [|apply count_trips_lookup].
  apply set_eq. intros n. rewrite elem_of_dom, count_trips_lookup.
  case_decide; [naive_solver|]. split; [by intros [? ?]|done].
Qed.

Lemma dict_of_snoc (items : list (string * string)) (header value : string) :
  dict_of (items ++ [(header, value)]) = <[header := value]> (dict_of items).
Proof. unfold dict_of. by rewrite foldl_app. Qed.

Lemma dom_dict_of (items : list (string * string)) :
  dom (dict_of items) = list_to_set items.*1.
Proof.
  induction items as [|[h v] items IH] using rev_ind; [set_solver|].
  rewrite dict_of_snoc, dom_insert_L, IH, fmap_app, list_to_set_app_L. set_solver.
Qed.

Lemma lookup_dict_of (items : list (string * string)) (header value : string) :
  NoDup items.*1 → dict_of items !! header = Some value ↔ (header, value) ∈ items.
Proof.
  induction items as [|[h v] items IH] using rev_ind.
  - intros _. unfold dict_of. simpl. rewrite lookup_empty. split; [done|].
    by intros ?%elem_of_nil.
  - rewrite fmap_app. intros (Hnd & Hdisj & _)%NoDup_app.
    rewrite dict_of_snoc, elem_of_app, list_elem_of_singleton.
    destruct (decide (h = header)) as [->|Hne].
    + rewrite lookup_insert_eq. split; [intros [= ->]; by right|].
      intros [Hin|[= ->]]; [|done]. exfalso. apply (Hdisj header).
      * apply list_elem_of_fmap. by exists (header, value).
      * by left.
    + rewrite lookup_insert_ne, IH by done. naive_solver.
Qed.

Lemma entry_of_steps (headers values : list string) (n : nat) :
  (n ≤ length values)%nat →
  foldl (λ (entry : outcome (gmap string string)) (i : nat),
           entry ← entry;
           match headers !! i, values !! i with
           | Some header, Some value => Return (<[header := value]> entry)
           | _, _ => Raise IndexError
           end)
        (Return ∅) (seq 0 n) =
  if decide (n ≤ length headers)%nat then Return (dict_of (take n (zip headers values)))
  else Raise IndexError.
Proof.
  induction n as [|n IH]; intros Hn; [done|].
  rewrite seq_S, foldl_app, IH by lia. simpl.
  destruct (lookup_lt_is_Some_2 values n ltac:(lia)) as [value Hvalue].
  destruct (decide (S n ≤ length headers)%nat) as [Hle|Hgt].
  - rewrite decide_True by lia.
    destruct (lookup_lt_is_Some_2 headers n ltac:(lia)) as [header Hheader].
    unfold mbind, outcome_mbind. simpl. rewrite Hheader, Hvalue. f_equal.
    rewrite (take_S_r _ _ (header, value)); [by rewrite dict_of_snoc|].
    by rewrite lookup_zip_with, Hheader, Hvalue.
  - destruct (decide (n ≤ length headers)%nat); [|done].
    unfold mbind, outcome_mbind. simpl.
    rewrite (lookup_ge_None_2 headers n) by lia. done.
Qed.

Lemma entry_of_spec (headers values : list string) :
  Task1.entry_of headers values =
  if decide (length values ≤ length headers)%nat then Return (dict_of (zip headers values))
  else Raise IndexError.
Proof.
  unfold Task1.entry_of. rewrite entry_of_steps by done.
  case_decide; [|done]. f_equal. f_equal. apply take_ge. rewrite length_zip_with. lia.
Qed.

Lemma read_lines_spec (headers : list string) (lines : list string) :
  Task1.read_lines headers lines =
  if decide (Forall (λ line, length (fields_of line) ≤ length headers)%nat lines) then
    Return ((λ line, dict_of (zip headers (fields_of line))) <$> lines)
  else Raise IndexError.
Proof.
  induction lines as [|line lines IH].
  - by rewrite decide_True.
  - cbn [Task1.read_lines]. rewrite entry_of_spec, IH. unfold mbind, outcome_mbind.
    destruct (decide (length (fields_of line) ≤ length headers)%nat) as [Hle|Hgt];
      cbn [outcome_bind].
    + destruct (decide (Forall (λ line, length (fields_of line) ≤ length headers)%nat lines))
        as [Hall|Hall]; cbn [outcome_bind].
      * rewrite decide_True by by constructor. done.
      * rewrite decide_False; [done|]. by intros [_ ?]%Forall_cons.
    + rewrite decide_False; [done|]. by intros [? _]%Forall_cons.
Qed.

Lemma fst_zip_take {A B : Type} (l : list A) (k : list B) :
  (zip l k).*1 = take (length k) l.
Proof.
  revert k. induction l as [|x l IH]; intros [|y k]; simpl; try done.
  by rewrite IH.
Qed.

Lemma NoDup_take {A : Type} (n : nat) (l : list A) : NoDup l → NoDup (take n l).
Proof.
  intros Hnd. rewrite <- (take_drop n l) in Hnd. by apply NoDup_app in Hnd as [? _].
Qed.

(** X19: [read_file] raises [IndexError] when a line after the first has
    more fields than the header line.  Otherwise it returns one dictionary
    for each line after the first, in order; the keys of a line's dictionary
    are the first header names, as many as the line has fields (a short line
    gives a dictionary without the last columns); and when the header
    names are distinct, the value under the header of column [j] is field
    [j] of the line. *)
Theorem read_file_entries (lines : list string) :
  let headers := fields_of (default EmptyString (head lines)) in
  (Exists (λ line, length headers < length (fields_of line))%nat (tail lines) →
   Task1.read_file lines = Raise IndexError) ∧
  (Forall (λ line, length (fields_of line) ≤ length headers)%nat (tail lines) →
   ∃ data,
     Task1.read_file lines = Return data ∧ length data = length (tail lines) ∧
     ∀ i line entry, tail lines !! i = Some line → data !! i = Some entry →
       dom entry = list_to_set (take (length (fields_of line)) headers) ∧
       (NoDup headers → ∀ j header,
          headers !! j = Some header → entry !! header = fields_of line !! j)).
Proof.
  intros headers. unfold Task1.read_file. fold headers. rewrite read_lines_spec. split.
  - intros Hex. rewrite decide_False; [done|].
    intros Hall. apply Exists_exists in Hex as (line & Hin & Hlt).
    rewrite Forall_forall in Hall. apply Hall in Hin. lia.
  - intros Hall. rewrite decide_True by done. eexists. split; [done|].
    split; [by rewrite length_fmap|].
    intros i line entry Hline. rewrite list_lookup_fmap, Hline. intros [= <-].
    split; [by rewrite dom_dict_of, fst_zip_take|].
    intros Hnd j header Hheader.
    destruct (fields_of line !! j) as [value|] eqn:Hvalue.
    + apply lookup_dict_of.
      * rewrite fst_zip_take. by apply NoDup_take.
      * apply (list_elem_of_lookup_2 _ j). by apply lookup_zip_Some.
    + apply not_elem_of_dom. rewrite dom_dict_of, fst_zip_take, elem_of_list_to_set.
      intros (k & Hk)%list_elem_of_lookup_1.
      apply lookup_take_Some in Hk as [Hk Hlt].
      pose proof (NoDup_lookup _ _ _ _ Hnd Hheader Hk) as ->.
      apply lookup_ge_None in Hvalue. lia.
Qed.

Lemma read_file_entries_witness :
  ∃ data,
    Task1.read_file ["total_amount,tip_amount" +:+ newline; "12.5,2" +:+ newline;
                     "7" +:+ newline]%string = Return data ∧
    length data = 2%nat.
Proof.
  destruct (read_file_entries ["total_amount,tip_amount" +:+ newline;
                               "12.5,2" +:+ newline; "7" +:+ newline]%string)
    as [_ Hok].
  destruct Hok as (data & Hdata & Hlen & _).
  - repeat constructor; vm_compute; lia.
  - exists data. exact (conj Hdata Hlen).
Defined.

Lemma str_split_nonempty (sep : Ascii.ascii) (s : string) : str_split sep s ≠ [].
Proof.
  induction s as [|c s IH]; simpl; [done|].
  case_decide; [done|]. by destruct (str_split sep s).
Qed.

Lemma str_split_no_sep (sep : Ascii.ascii) (s : string) :
  Forall (λ field, str_has sep field = false) (str_split sep s).
Proof.
  induction s as [|c s IH]; simpl; [by repeat constructor|].
  case_decide as Hc; [by constructor|].
  destruct (str_split sep s) as [|field fields]; simpl.
  - repeat constructor. simpl. by rewrite bool_decide_eq_false_2.
  - apply Forall_cons in IH as [Hf Hfs]. constructor; [|done].
    simpl. by rewrite bool_decide_eq_false_2.
Qed.

Lemma str_lstrip_has (p : Ascii.ascii → bool) (c : Ascii.ascii) (s : string) :
  str_has c s = false → str_has c (str_lstrip p s) = false.
Proof.
  induction s as [|c' s IH]; simpl; [done|].
  intros [Hc Hs]%orb_false_iff. destruct (p c'); [by apply IH|].
  simpl. by rewrite Hc, Hs.
Qed.

Lemma str_rstrip_has (p : Ascii.ascii → bool) (c : Ascii.ascii) (s : string) :
  str_has c s = false → str_has c (str_rstrip p s) = false.
Proof.
  induction s as [|c' s IH]; simpl; [done|].
  intros [Hc Hs]%orb_false_iff. specialize (IH Hs).
  destruct (str_rstrip p s) eqn:Hr.
  - destruct (p c'); simpl; [done|]. by rewrite Hc.
  - simpl in IH |- *. by rewrite Hc, IH.
Qed.

Lemma str_lstrip_first (p : Ascii.ascii → bool) (s : string) (c : Ascii.ascii) :
  str_first (str_lstrip p s) = Some c → p c = false.
Proof.
  induction s as [|c' s IH]; simpl; [done|].
  destruct (p c') eqn:Hp; [done|]. simpl. by intros [= <-].
Qed.

Lemma str_rstrip_first (p : Ascii.ascii → bool) (s : string) (c : Ascii.ascii) :
  (∀ c', str_first s = Some c' → p c' = false) →
  str_first (str_rstrip p s) = Some c → p c = false.
Proof.
  destruct s as [|c' s]; simpl; [done|]. intros Hfirst.
  destruct (str_rstrip p s).
  - rewrite (Hfirst c') by done. simpl. intros [= <-]. by apply Hfirst.
  - simpl. intros [= <-]. by apply Hfirst.
Qed.

Lemma str_rstrip_last (p : Ascii.ascii → bool) (s : string) (c : Ascii.ascii) :
  str_last (str_rstrip p s) = Some c → p c = false.
Proof.
  induction s as [|c' s IH]; simpl; [done|].
  destruct (str_rstrip p s) as [|c'' kept] eqn:Hr.
  - destruct (p c') eqn:Hp; simpl; [done|]. by intros [= <-].
  - simpl. simpl in IH. done.
Qed.

Lemma str_strip_quotes_spec (s : string) :
  str_first (str_strip_quotes s) ≠ Some double_quote ∧
  str_last (str_strip_quotes s) ≠ Some double_quote ∧
  (str_has comma s = false → str_has comma (str_strip_quotes s) = false).
Proof.
  unfold str_strip_quotes. split; [|split].
  - intros Hf. apply str_rstrip_first in Hf.
    + by rewrite bool_decide_eq_true_2 in Hf.
    + apply str_lstrip_first.
  - intros Hl. apply str_rstrip_last in Hl. by rewrite bool_decide_eq_true_2 in Hl.
  - intros Hs. by apply str_rstrip_has, str_lstrip_has.
Qed.

Section ZoneLookupFacts.
Variable int : string → outcome Z.

Lemma read_zone_lines_from (lines : list string) (acc zones : gmap Z string)
  (location_id : Z) (zone_name : string) :
Task1.read_zone_lines int lines acc = Return zones →
zones !! location_id = Some zone_name →
acc !! location_id = Some zone_name ∨
∃ line part0 part2,
  line ∈ lines ∧ fields_of line !! 0%nat = Some part0 ∧
  int (str_strip_quotes part0) = Return location_id ∧
  fields_of line !! 2%nat = Some part2 ∧ zone_name = str_strip_quotes part2.
Proof.
revert acc. induction lines as [|line lines IH]; intros acc; simpl.
- intros [= ->]. by left.
- unfold mbind, outcome_mbind.
  destruct (fields_of line !! 0%nat) as [part0|] eqn:H0; [|done]. simpl.
  destruct (int (str_strip_quotes part0)) as [id|] eqn:Hint; [|done]. simpl.
  destruct (fields_of line !! 2%nat) as [part2|] eqn:H2; [|done]. simpl.
  intros Hread Hz. destruct (IH _ Hread Hz) as [Hacc|(l & p0 & p2 & Hl & ?)].
  + destruct (decide (id = location_id)) as [->|Hne].
    * rewrite lookup_insert_eq in Hacc. injection Hacc as <-.
      right. exists line, part0, part2. split; [by left|done].
    * rewrite lookup_insert_ne in Hacc by done. by left.
  + right. exists l, p0, p2. split; [by right|done].
Qed.
End ZoneLookupFacts.

(** X20: a zone name in the table [read_zone_lookup] returns is the third
    field of a line after the header, without the double quotes around it:
    it holds no comma (a name with a comma in the file is cut at the comma)
    and neither starts nor ends with a double quote; its id is what [int]
    gives for the first field without its quotes. *)
Theorem read_zone_lookup_names (int : string → outcome Z) (lines : list string)
    (zones : gmap Z string) (location_id : Z) (zone_name : string) :
  Task1.read_zone_lookup int lines = Return zones →
  zones !! location_id = Some zone_name →
  (∃ line part0 part2,
     line ∈ tail lines ∧ fields_of line !! 0%nat = Some part0 ∧
     int (str_strip_quotes part0) = Return location_id ∧
     fields_of line !! 2%nat = Some part2 ∧ zone_name = str_strip_quotes part2) ∧
  str_has comma zone_name = false ∧
  str_first zone_name ≠ Some double_quote ∧ str_last zone_name ≠ Some double_quote.
Proof.
  destruct lines as [|header lines]; [done|]. simpl. intros Hread Hz.
  destruct (read_zone_lines_from int lines ∅ zones location_id zone_name Hread Hz)
    as [Hempty|(line & part0 & part2 & Hline & H0 & Hint & H2 & ->)];
    [by rewrite lookup_empty in Hempty|].
  split; [by exists line, part0, part2|].
  destruct (str_strip_quotes_spec part2) as (Hf & Hl & Hc).
  split; [|done]. apply Hc.
  pose proof (str_split_no_sep comma (str_strip line)) as Hall.
  rewrite Forall_forall in Hall. apply Hall. by eapply list_elem_of_lookup_2.
Qed.

Lemma read_zone_lookup_names_witness :
  str_has comma "Newark Airport" = false ∧
  str_first "Newark Airport" ≠ Some double_quote ∧
  str_last "Newark Airport" ≠ Some double_quote.
Proof.
  apply (read_zone_lookup_names decimal_int
           ["LocationID,Borough,Zone,service_zone" +:+ newline;
            "1,EWR," +:+ String double_quote "Newark Airport" +:+
              String double_quote ",EWR" +:+ newline]%string
           {[ 1 := "Newark Airport"%string ]} 1).
  - by vm_compute.
  - by vm_compute.
Defined.

(** ** The zones of interest *)

(** X21: the module counts trips for the zones named Newark Airport, JFK
    Airport, East Harlem North and Central Park only: the keys of the counts
    are among these four names, and a trip is counted for a name exactly when
    the full table maps its pick-up id to that name and the name is one of
    the four. *)
Theorem zones_of_interest_counts (int : string → outcome Z)
    (data : list (gmap string string)) (zones : gmap Z string)
    (trip : gmap string string) (name : string) :
  dom (Task1.count_trips int data (Task1.zones_of_interest zones)) ⊆
    list_to_set ["Newark Airport"; "JFK Airport"; "East Harlem North";
                 "Central Park"]%string ∧
  (pickup_zone int (Task1.zones_of_interest zones) trip = Some name ↔
   pickup_zone int zones trip = Some name ∧
   name ∈ ["Newark Airport"; "JFK Airport"; "East Harlem North"; "Central Park"]%string).
Proof.
  split.
  - intros n. rewrite elem_of_dom, count_trips_lookup. case_decide as Himg; [|by intros [? ?]].
    intros _. apply elem_of_map_img in Himg as [id Hid].
    unfold Task1.zones_of_interest in Hid.
    apply map_lookup_filter_Some in Hid as [_ Hn]. by apply elem_of_list_to_set.
  - unfold pickup_zone. destruct (trip !! "PULocationID"%string) as [cell|]; [|naive_solver].
    destruct (int cell) as [id|e]; [|naive_solver].
    unfold Task1.zones_of_interest. rewrite map_lookup_filter_Some. done.
Qed.

(** * The readers of task2.py *)

Lemma get_field_short (fields : list string) (i : nat) :
  (length fields ≤ i)%nat → get_field fields i = Raise IndexError.
Proof. intros Hlen. unfold get_field. by rewrite lookup_ge_None_2. Qed.

Lemma get_field_long (fields : list string) (i : nat) :
  (i < length fields)%nat → ∃ cell, get_field fields i = Return cell.
Proof.
  intros Hlen. unfold get_field.
  destruct (lookup_lt_is_Some_2 fields i Hlen) as [cell ->]. by exists cell.
Qed.

Section Task2ReaderFacts.
Context `{Builtins}.

Lemma parse_fields_short (fields : list string) :
(length fields < 4)%nat → parse_fields fields = Raise IndexError.
Proof.
intros Hlen. unfold parse_fields, mbind, outcome_mbind.
by rewrite get_field_short by lia.
Qed.

Lemma parse_fields_length (fields : list string) (trip : list number) :
parse_fields fields = Return trip → length trip = 6%nat.
Proof.
unfold parse_fields, mbind, outcome_mbind.
repeat (match goal with
        | |- context [outcome_bind ?o _] =>
            let H := fresh in destruct o eqn:H; cbn [outcome_bind]; [|done]
        end).
by intros [= <-].
Qed.

Lemma parse_fields_raises (fields : list string) (e : exn) :
(17 ≤ length fields)%nat → conversions_raise_ValueError →
parse_fields fields = Raise e → e = ValueError.
Proof.
intros Hlen (Hint & Hfloat & Htime & Hdiv). unfold parse_fields, mbind, outcome_mbind.
repeat (match goal with
        | |- context [get_field fields ?i] =>
            let c := fresh "cell" in let H := fresh in
            destruct (get_field_long fields i ltac:(lia)) as [c H];
            rewrite H; clear H; cbn [outcome_bind]
        | |- context [py_int ?s] =>
            let H := fresh in
            destruct (py_int s) eqn:H; cbn [outcome_bind];
            [|intros [= <-]; by eapply Hint]
        | |- context [py_float ?s] =>
            let H := fresh in
            destruct (py_float s) eqn:H; cbn [outcome_bind];
            [|intros [= <-]; by eapply Hfloat]
        | |- context [datetime_strptime ?s] =>
            let H := fresh in
            destruct (datetime_strptime s) eqn:H; cbn [outcome_bind];
            [|intros [= <-]; by eapply Htime]
        end).
destruct (float_gt0 _) eqn:Hpos; cbn [outcome_bind]; [|done].
match goal with |- context [float_div ?x ?y] =>
  destruct (Hdiv x y Hpos) as [z ->] end. done.
Qed.

Lemma parse_trip_Some (line : string) (trip : list number) :
parse_trip line = Return (Some trip) → length trip = 6%nat.
Proof.
unfold parse_trip.
destruct (parse_fields (str_split comma line)) as [t|e] eqn:Hp.
- intros [= <-]. by eapply parse_fields_length.
- by destruct e as [| |[|[|tag]]].
Qed.

Lemma read_trip_lines_app (lines1 lines2 : list string) (trips : list (list number)) :
read_trip_lines (lines1 ++ lines2) trips =
outcome_bind (read_trip_lines lines1 trips) (read_trip_lines lines2).
Proof.
revert trips. induction lines1 as [|line lines1 IH]; intros trips; simpl; [done|].
unfold mbind, outcome_mbind.
destruct (parse_trip line) as [[[|x trip]|]|e]; simpl; by rewrite ?IH.
Qed.

Lemma read_trip_lines_omap (lines : list string) (trips result : list (list number)) :
read_trip_lines lines trips = Return result →
result = trips ++ omap parsed_trip lines.
Proof.
revert trips. induction lines as [|line lines IH]; intros trips; simpl.
- intros [= <-]. by rewrite app_nil_r.
- unfold mbind, outcome_mbind, parsed_trip.
  destruct (parse_trip line) as [[[|x trip]|]|e]; simpl; try done; try apply IH.
  intros Hr. apply IH in Hr. by rewrite <- app_assoc in Hr.
Qed.

Lemma parsed_trip_length (line : string) (trip : list number) :
parsed_trip line = Some trip → length trip = 6%nat.
Proof.
unfold parsed_trip. destruct (parse_trip line) as [[[|x t]|]|e] eqn:Hp; try done.
intros [= <-]. by apply (parse_trip_Some line).
Qed.

Lemma data_record_short (parts : list string) :
(length parts < 4)%nat → data_record parts = Raise IndexError.
Proof.
intros Hlen. unfold data_record, mbind, outcome_mbind.
by rewrite get_field_short by lia.
Qed.

Lemma data_record_Some (parts : list string) (record : list number) :
data_record parts = Return (Some record) →
length record = 5%nat ∧ ∃ seconds, last record = Some (Float seconds) ∧
                                    float_gt0 seconds = true.
Proof.
unfold data_record, mbind, outcome_mbind.
repeat (match goal with
        | |- context [outcome_bind ?o _] =>
            let H := fresh in destruct o eqn:H; cbn [outcome_bind]; [|done]
        end).
destruct (float_gt0 _) eqn:Hpos; [|done].
match goal with
| |- context [outcome_bind ?o _] =>
    let H := fresh in destruct o eqn:H; cbn [outcome_bind]; [|done]
end.
intros [= <-]. split; [done|]. eexists. split; [reflexivity|done].
Qed.

Lemma read_data_lines_app (lines1 lines2 : list string) (data : list (list number)) :
read_data_lines (lines1 ++ lines2) data =
outcome_bind (read_data_lines lines1 data) (read_data_lines lines2).
Proof.
revert data. induction lines1 as [|line lines1 IH]; intros data; simpl; [done|].
case_bool_decide; [|by rewrite IH].
destruct (data_record (fields_of line)) as [[record|]|e]; rewrite ?IH; try done.
by destruct e as [| |[|[|tag]]].
Qed.

Lemma read_data_lines_records (lines : list string) (data result : list (list number)) :
read_data_lines lines data = Return result →
∀ record, record ∈ result → record ∈ data ∨
  ∃ line, line ∈ lines ∧ data_record (fields_of line) = Return (Some record).
Proof.
revert data. induction lines as [|line lines IH]; intros data; simpl.
- intros [= <-]. by left.
- assert (Hskip : read_data_lines lines data = Return result →
    ∀ record, record ∈ result → record ∈ data ∨
      ∃ line0, line0 ∈ line :: lines ∧ data_record (fields_of line0) = Return (Some record)).
  { intros Hr record Hin. destruct (IH _ Hr record Hin) as [?|(l & Hl & ?)]; [by left|].
    right. exists l. split; [by right|done]. }
  case_bool_decide; [|done].
  destruct (data_record (fields_of line)) as [[rec|]|e] eqn:Hrec; [|done|].
  + intros Hr record Hin. destruct (IH _ Hr record Hin) as [Hin'|(l & Hl & ?)].
    * apply elem_of_app in Hin' as [?|Heq%list_elem_of_singleton]; [by left|].
      subst rec. right. exists line. split; [by left|done].
    * right. exists l. split; [by right|done].
  + by destruct e as [| |[|[|tag]]].
Qed.
End Task2ReaderFacts.

(** X22: [parse_trip] raises [IndexError] on a line with fewer than four
    comma-separated fields: only [ValueError] is caught.  On a line with at
    least seventeen fields it does not raise (the conversions raising
    nothing but [ValueError]): it returns [None] or a tuple of six fields. *)
Theorem parse_trip_fields `{Builtins} (line : string) :
  ((length (str_split comma line) < 4)%nat → parse_trip line = Raise IndexError) ∧
  ((17 ≤ length (str_split comma line))%nat → conversions_raise_ValueError →
   parse_trip line = Return None ∨
   ∃ trip, parse_trip line = Return (Some trip) ∧ length trip = 6%nat).
Proof.
  split.
  - intros Hlen. unfold parse_trip. by rewrite parse_fields_short.
  - intros Hlen Hconv. unfold parse_trip.
    destruct (parse_fields (str_split comma line)) as [trip|e] eqn:Hp.
    + right. exists trip. split; [done|]. by eapply parse_fields_length.
    + left. by rewrite (parse_fields_raises _ e Hlen Hconv Hp).
Qed.

Lemma parse_trip_fields_witness :
  @parse_trip decimal_builtins "0,100,4000,2,5,0,0,0,0,0,12,0,0,0,3,0,15" = Return None ∨
  ∃ trip, @parse_trip decimal_builtins "0,100,4000,2,5,0,0,0,0,0,12,0,0,0,3,0,15" =
            Return (Some trip) ∧ length trip = 6%nat.
Proof.
  destruct (@parse_trip_fields decimal_builtins "0,100,4000,2,5,0,0,0,0,0,12,0,0,0,3,0,15")
    as [_ Hlong].
  apply Hlong.
  - vm_compute. lia.
  - assert (Hdec : ∀ s e, decimal_int s = Raise e → e = ValueError).
    { intros s e. unfold decimal_int. destruct s; [by intros [= <-]|].
      case_match; [done|by intros [= <-]]. }
    split; [exact Hdec|]. split; [exact Hdec|]. split; [exact Hdec|].
    intros x y Hy. simpl in *. apply bool_decide_eq_true in Hy.
    rewrite decide_False by lia. by eexists.
Defined.

(** X23: [read_trips] raises [StopIteration] on an empty file; it raises
    [IndexError] at the first line after the header that has fewer than four
    fields, a blank line for one, when the lines before it were read; and
    when it returns, its result holds, in order, the tuples that [parse_trip]
    gives for the lines after the header, each of six fields: the header is
    not parsed and no parsed trip is dropped. *)
Theorem read_trips_lines `{Builtins} (lines : list string) :
  (lines = [] → read_trips lines = Raise StopIteration) ∧
  (∀ header before line after trips,
     lines = header :: before ++ line :: after →
     read_trips (header :: before) = Return trips →
     (length (str_split comma line) < 4)%nat →
     read_trips lines = Raise IndexError) ∧
  (∀ trips, read_trips lines = Return trips →
     trips = omap parsed_trip (tail lines) ∧
     Forall (λ trip, length trip = 6%nat) trips).
Proof.
  split; [by intros ->|]. split.
  - intros header before line after trips -> Hbefore Hshort. simpl in *.
    rewrite read_trip_lines_app, Hbefore. simpl.
    unfold mbind, outcome_mbind, parse_trip. by rewrite parse_fields_short.
  - intros trips Hread. destruct lines as [|header lines]; [done|]. simpl in *.
    apply read_trip_lines_omap in Hread. simpl in Hread. subst trips. split; [done|].
    apply Forall_forall. intros trip (line & Hline & Hp)%list_elem_of_omap.
    by eapply parsed_trip_length.
Qed.

Lemma read_trips_lines_witness :
  @read_trips decimal_builtins ["header" +:+ newline; newline]%string = Raise IndexError.
Proof.
  destruct (@read_trips_lines decimal_builtins ["header" +:+ newline; newline]%string)
    as (_ & Hshort & _).
  apply (Hshort ("header" +:+ newline)%string [] newline [] []).
  - reflexivity.
  - reflexivity.
  - vm_compute. lia.
Defined.

(** X24: [read_data] skips a line with at most one field (a blank line)
    without looking at it; it raises [IndexError] at a line with two or three
    fields; and the records it returns have five fields, the last of which,
    the duration of the trip in seconds, is greater than 0. *)
Theorem read_data_lines_behaviour `{Builtins} (before after : list string) (line : string) :
  ((length (fields_of line) ≤ 1)%nat →
   read_data (before ++ line :: after) = read_data (before ++ after)) ∧
  (∀ data, read_data before = Return data →
     (2 ≤ length (fields_of line) < 4)%nat →
     read_data (before ++ line :: after) = Raise IndexError) ∧
  (∀ data, read_data before = Return data →
     Forall (λ record, length record = 5%nat ∧
               ∃ seconds, last record = Some (Float seconds) ∧
                          float_gt0 seconds = true) data).
Proof.
  unfold read_data. split; [|split].
  - intros Hlen. rewrite !read_data_lines_app.
    destruct (read_data_lines before []) as [data|e]; [|done]. simpl.
    rewrite bool_decide_eq_false_2 by lia. done.
  - intros data Hbefore Hlen. rewrite read_data_lines_app, Hbefore. simpl.
    rewrite bool_decide_eq_true_2 by lia. by rewrite data_record_short by lia.
  - intros data Hbefore. apply Forall_forall. intros record Hin.
    destruct (read_data_lines_records _ _ _ Hbefore record Hin) as [Hnil|(l & Hl & Hrec)];
      [by apply elem_of_nil in Hnil|].
    by eapply data_record_Some.
Qed.

Lemma read_data_lines_behaviour_witness :
  @read_data decimal_builtins ([] ++ "1,2"%string :: [newline]) = Raise IndexError.
Proof.
  destruct (@read_data_lines_behaviour decimal_builtins [] [newline] "1,2"%string)
    as (_ & Hshort & _).
  apply (Hshort []).
  - reflexivity.
  - vm_compute. lia.
Defined.

(** * The statistics of task1.py *)

Section StatisticsFacts.
Context `{Statistics}.

Lemma amounts_app (column : string) (keep : float_type → bool)
  (data1 data2 : list (gmap string string)) :
amounts column keep (data1 ++ data2) =
values1 ← amounts column keep data1;
values2 ← amounts column keep data2;
Return (values1 ++ values2).
Proof.
induction data1 as [|trip data1 IH]; simpl.
- unfold mbind, outcome_mbind. simpl. by destruct (amounts column keep data2).
- rewrite IH. unfold mbind, outcome_mbind.
  destruct (get_item trip column) as [cell|]; [|done]. simpl.
  destruct (if decide (cell = EmptyString) then _ else _) as [kept|]; [|done]. simpl.
  destruct (amounts column keep data1) as [values1|]; [|done]. simpl.
  destruct (amounts column keep data2) as [values2|]; [|done]. simpl.
  by rewrite app_assoc.
Qed.

Lemma amounts_kept (column : string) (keep : float_type → bool)
  (data : list (gmap string string)) (values : list float_type) :
amounts column keep data = Return values → Forall (λ x, keep x = true) values.
Proof.
revert values. induction data as [|trip data IH]; intros values; simpl.
- intros [= <-]. constructor.
- unfold mbind, outcome_mbind.
  destruct (get_item trip column) as [cell|]; [|done]. simpl.
  destruct (if decide (cell = EmptyString) then _ else _) as [kept|] eqn:Hkept;
    [|done]. simpl.
  destruct (amounts column keep data) as [rest|]; [|done]. simpl.
  specialize (IH rest eq_refl). intros [= <-].
  apply Forall_app. split; [|done].
  case_decide; [by simplify_eq|].
  destruct (py_float cell) as [x|] eqn:Hx; [|done]. simpl in Hkept.
  destruct (keep x) eqn:Hk; simpl in Hkept; simplify_eq; by repeat constructor.
Qed.

Lemma amounts_missing (column : string) (keep : float_type → bool)
  (before after : list (gmap string string)) (trip : gmap string string)
  (values : list float_type) :
amounts column keep before = Return values → trip !! column = None →
amounts column keep (before ++ trip :: after) = Raise KeyError.
Proof.
intros Hbefore Htrip. rewrite amounts_app, Hbefore. simpl.
unfold mbind, outcome_mbind, get_item. by rewrite Htrip.
Qed.

Lemma amounts_conversion (column : string) (keep : float_type → bool)
  (before after : list (gmap string string)) (trip : gmap string string)
  (values : list float_type) (cell : string) (e : exn) :
amounts column keep before = Return values → trip !! column = Some cell →
cell ≠ EmptyString → py_float cell = Raise e →
amounts column keep (before ++ trip :: after) = Raise e.
Proof.
intros Hbefore Htrip Hcell Hfloat. rewrite amounts_app, Hbefore. simpl.
unfold mbind, outcome_mbind, get_item. rewrite Htrip. simpl.
rewrite decide_False by done. by rewrite Hfloat.
Qed.

Lemma calc_stats_cases (keep : float_type → bool) (values : list float_type) :
extremes_are_elements → Forall (λ x, keep x = true) values →
calc_stats values = (float_zero, float_zero, float_zero) ∨
(keep (calc_stats values).1.1 = true ∧ keep (calc_stats values).2 = true).
Proof.
intros Hext Hall. destruct values as [|x values]; [by left|]. right.
destruct (Hext (x :: values) ltac:(done)) as [Hmin Hmax].
rewrite Forall_forall in Hall. simpl. split; by apply Hall.
Qed.

Lemma trip_speed_raises (trip : gmap string string) (e : exn) :
is_Some (trip !! "tpep_pickup_datetime"%string) →
is_Some (trip !! "tpep_dropoff_datetime"%string) →
is_Some (trip !! "trip_distance"%string) →
(∀ s e, datetime_strptime_f s = Raise e → e = ValueError) →
(∀ s e, py_float s = Raise e → e = ValueError) →
(∀ x y, float_gt0 y = true → ∃ z, float_div x y = Return z) →
trip_speed trip = Raise e → e = ValueError.
Proof.
intros [c1 H1] [c2 H2] [c3 H3] Htime Hfloat Hdiv.
unfold trip_speed, mbind, outcome_mbind, get_item. rewrite H1, H2, H3. simpl.
destruct (datetime_strptime_f c1) eqn:Hp; simpl; [|intros [= <-]; by eapply Htime].
destruct (datetime_strptime_f c2) eqn:Hd; simpl; [|intros [= <-]; by eapply Htime].
destruct (py_float c3) eqn:Hm; simpl; [|intros [= <-]; by eapply Hfloat].
destruct (float_gt0 (hours_between _ _)) eqn:Hpos; simpl; [|done].
destruct (float_gt0 (float_km _)); simpl; [|done].
match goal with |- context [float_div ?x ?y] =>
  destruct (Hdiv x y Hpos) as [z ->] end. done.
Qed.

Lemma speeds_of_returns (data : list (gmap string string)) (speeds : list float_type) :
(∀ s e, datetime_strptime_f s = Raise e → e = ValueError) →
(∀ s e, py_float s = Raise e → e = ValueError) →
(∀ x y, float_gt0 y = true → ∃ z, float_div x y = Return z) →
∃ result, speeds_of data speeds = Return result.
Proof.
intros Htime Hfloat Hdiv. revert speeds.
induction data as [|trip data IH]; intros speeds; simpl; [by eexists|].
case_bool_decide as Hcols; [|apply IH].
destruct Hcols as (H1 & H2 & H3).
destruct (trip_speed trip) as [[speed|]|e] eqn:Hs; [apply IH..|].
rewrite (trip_speed_raises trip e H1 H2 H3 Htime Hfloat Hdiv Hs). apply IH.
Qed.
End StatisticsFacts.

(** X25: [calculate_stats] catches nothing.  When the trips before it
    were read, a trip without the column [total_amount] makes it raise
    [KeyError], and a trip whose total amount is not empty and does not
    convert makes it raise what [float] raises. *)
Theorem calculate_stats_raises `{Statistics} (before after : list (gmap string string))
    (trip : gmap string string) (values : list float_type) :
  amounts "total_amount" float_gt0 before = Return values →
  (trip !! "total_amount"%string = None →
   calculate_stats (before ++ trip :: after) = Raise KeyError) ∧
  (∀ cell e, trip !! "total_amount"%string = Some cell → cell ≠ EmptyString →
     py_float cell = Raise e → calculate_stats (before ++ trip :: after) = Raise e).
Proof.
  intros Hbefore. split.
  - intros Htrip. unfold calculate_stats, mbind, outcome_mbind.
    by rewrite (amounts_missing _ _ _ _ _ values).
  - intros cell e Htrip Hcell Hfloat. unfold calculate_stats, mbind, outcome_mbind.
    by rewrite (amounts_conversion _ _ _ _ _ values cell e).
Qed.

Lemma calculate_stats_raises_witness :
  @calculate_stats decimal_builtins decimal_statistics
    (example_amounts ++ {[ "tip_amount" := "1" ]}%string :: []) = Raise KeyError.
Proof.
  apply (@calculate_stats_raises decimal_builtins decimal_statistics
           example_amounts [] ({[ "tip_amount" := "1" ]}%string) [12]).
  - reflexivity.
  - reflexivity.
Defined.

(** X26: the minimum and the maximum that [calculate_stats] returns are
    amounts that passed the filter: for the total amounts they are greater
    than 0, for the tips they are at least 0; when no amount passed, the
    three statistics are 0.0. *)
Theorem calculate_stats_extremes `{Statistics} (data : list (gmap string string))
    (total tip : float_type * float_type * float_type) :
  extremes_are_elements → calculate_stats data = Return (total, tip) →
  (total = (float_zero, float_zero, float_zero) ∨
   (float_gt0 total.1.1 = true ∧ float_gt0 total.2 = true)) ∧
  (tip = (float_zero, float_zero, float_zero) ∨
   (float_ge0 tip.1.1 = true ∧ float_ge0 tip.2 = true)).
Proof.
  intros Hext. unfold calculate_stats, mbind, outcome_mbind.
  destruct (amounts "total_amount" float_gt0 data) as [totals|] eqn:Htotal; [|done].
  destruct (amounts "tip_amount" float_ge0 data) as [tips|] eqn:Htip; [|done].
  simpl. intros [= <- <-]. split.
  - apply calc_stats_cases; [done|]. by eapply amounts_kept.
  - apply calc_stats_cases; [done|]. by eapply amounts_kept.
Qed.

(** The minimum and the maximum of the examples are elements of the list. *)
Lemma decimal_extremes : @extremes_are_elements decimal_builtins decimal_statistics.
Proof.
  intros values Hne. simpl.
  assert (Hfold : ∀ (f : Z → Z → Z) (l : list Z) (d : Z),
            (∀ a b, f a b = a ∨ f a b = b) → d ∈ l → foldr f d l ∈ l).
  { intros f l d Hf. induction l as [|a l IH]; simpl; [done|].
    intros Hd. destruct (Hf a (foldr f d l)) as [-> | ->]; [by left|].
    destruct (decide (d ∈ l)) as [Hin|Hnin]; [right; by apply IH|].
    apply elem_of_cons in Hd as [->|?]; [|done].
    clear IH Hnin. induction l as [|b l IH]; simpl; [by left|].
    destruct (Hf b (foldr f a l)) as [-> | ->]; [right; by left|].
    apply elem_of_cons in IH as [Heq|IH]; [rewrite Heq; by left|]. right. by right. }
  destruct values as [|x values]; [done|].
  split; apply Hfold; try (by left); intros a b; lia.
Qed.

Lemma calculate_stats_extremes_witness :
  @float_gt0 decimal_builtins 12 = true ∧
  @float_ge0 decimal_builtins decimal_statistics 0 = true.
Proof.
  destruct (@calculate_stats_extremes decimal_builtins decimal_statistics
              example_amounts (12, 12, 12) (0, 1, 2) decimal_extremes eq_refl)
    as [[Hzero|[Hmin _]] [Hzero'|[Hmin' _]]]; try done.
Defined.

(** X27: [calculate_speed] returns on every list of trips, when the
    conversions raise nothing but [ValueError]: a trip without one of the
    three columns is skipped and [ValueError] is caught.  The minimum and the
    maximum returned are speeds greater than 0 and at most 150, or the three
    statistics are 0.0. *)
Theorem calculate_speed_returns `{Statistics} (data : list (gmap string string)) :
  (∀ s e, datetime_strptime_f s = Raise e → e = ValueError) →
  (∀ s e, py_float s = Raise e → e = ValueError) →
  (∀ x y, float_gt0 y = true → ∃ z, float_div x y = Return z) →
  extremes_are_elements →
  ∃ low mean high,
    calculate_speed data = Return (low, mean, high) ∧
    ((low, mean, high) = (float_zero, float_zero, float_zero) ∨
     (float_gt0 low = true ∧ float_le150 low = true ∧
      float_gt0 high = true ∧ float_le150 high = true)).
Proof.
  intros Htime Hfloat Hdiv Hext.
  destruct (speeds_of_returns data [] Htime Hfloat Hdiv) as [speeds Hspeeds].
  unfold calculate_speed, mbind, outcome_mbind. rewrite Hspeeds. simpl.
  destruct speeds as [|s speeds]; [eexists _, _, _; split; [done|by left]|].
  destruct (filter _ (s :: speeds)) as [|r realistic] eqn:Hfilter;
    [eexists _, _, _; split; [done|by left]|].
  eexists _, _, _. split; [done|]. right.
  destruct (Hext (r :: realistic) ltac:(done)) as [Hmin Hmax].
  assert (Hin : ∀ x, x ∈ r :: realistic →
                     float_gt0 x = true ∧ float_le150 x = true).
  { intros x Hx. rewrite <- Hfilter in Hx. apply list_elem_of_filter in Hx as [Hx _].
    by apply Is_true_true, andb_true_iff in Hx. }
  destruct (Hin _ Hmin), (Hin _ Hmax). done.
Qed.

Lemma calculate_speed_returns_witness :
  ∃ low mean high,
    @calculate_speed decimal_builtins decimal_statistics
      [ {[ "tpep_pickup_datetime" := "0"; "tpep_dropoff_datetime" := "3600";
           "trip_distance" := "10" ]}%string ] = Return (low, mean, high).
Proof.
  destruct (@calculate_speed_returns decimal_builtins decimal_statistics
      [ {[ "tpep_pickup_datetime" := "0"; "tpep_dropoff_datetime" := "3600";
           "trip_distance" := "10" ]}%string ])
    as (low & mean & high & Hret & _).
  - intros s e. simpl. unfold decimal_int. destruct s; [by intros [= <-]|].
    case_match; [done|by intros [= <-]].
  - intros s e. simpl. unfold decimal_int. destruct s; [by intros [= <-]|].
    case_match; [done|by intros [= <-]].
  - intros x y Hy. simpl in *. apply bool_decide_eq_true in Hy.
    rewrite decide_False by lia. by eexists.
  - apply decimal_extremes.
  - by exists low, mean, high.
Defined.

(** X28: from the file to the statistics: when a line of the file is so
    short that its dictionary has no [total_amount] (a blank line for one),
    [calculate_stats] applied to what [read_file] returns raises [KeyError]; if
    another line is longer than the header, [read_file] itself raises
    [IndexError].  The lines before the short one are lines that the two
    functions accept. *)
Theorem short_line_breaks_statistics `{Statistics} (header : string)
    (before after : list string) (line : string)
    (entries : list (gmap string string)) (values : list float_type) :
  Task1.read_file (header :: before) = Return entries →
  amounts "total_amount" float_gt0 entries = Return values →
  "total_amount"%string ∉ take (length (fields_of line)) (fields_of header) →
  ∃ e, (Task1.read_file (header :: before ++ line :: after) ≫= calculate_stats) = Raise e ∧
       (e = IndexError ∨ e = KeyError).
Proof.
  unfold Task1.read_file. simpl. rewrite !read_lines_spec.
  intros Hbefore Hvalues Hshort.
  destruct (decide (Forall _ before)) as [Hall|]; [|done]. injection Hbefore as <-.
  destruct (decide (Forall _ (before ++ line :: after))) as [Hall'|];
    [|exists IndexError; split; [done|by left]].
  exists KeyError. split; [|by right].
  unfold mbind at 1, outcome_mbind. simpl. rewrite fmap_app, fmap_cons.
  unfold calculate_stats, mbind, outcome_mbind.
  rewrite (amounts_missing _ _ _ _ _ values); [done..|].
  apply not_elem_of_dom. by rewrite dom_dict_of, fst_zip_take, elem_of_list_to_set.
Qed.

Lemma short_line_breaks_statistics_witness :
  ∃ e, (Task1.read_file (("VendorID,total_amount,tip_amount" +:+ newline)%string ::
                           [] ++ newline :: [("1,12,2" +:+ newline)%string]) ≫=
          @calculate_stats decimal_builtins decimal_statistics) = Raise e ∧
       (e = IndexError ∨ e = KeyError).
Proof.
  apply (@short_line_breaks_statistics decimal_builtins decimal_statistics
           ("VendorID,total_amount,tip_amount" +:+ newline)%string
           [] [("1,12,2" +:+ newline)%string] newline [] []).
  - reflexivity.
  - reflexivity.
  - vm_compute. intros Hin. repeat (apply elem_of_cons in Hin as [Hin|Hin]; [done|]).
    by apply elem_of_nil in Hin.
Defined.

(** * The sorts on records that may lack the key field *)

Lemma foldl_raise {T U : Type} (f : T → U → outcome T) (e : exn) (l : list U) :
  foldl (λ acc x, acc ← acc; f acc x) (Raise e) l = Raise e.
Proof. induction l as [|x l IH]; [done|]. simpl. apply IH. Qed.

Lemma foldl_return_cons {T U : Type} (f : T → U → outcome T) (d : T) (x : U) (l : list U) :
  foldl (λ acc x, acc ← acc; f acc x) (Return d) (x :: l) =
  foldl (λ acc x, acc ← acc; f acc x) (f d x) l.
Proof. reflexivity. Qed.

Section CheckedSortingFacts.
Context {A : Type}.
Variable key : A → outcome Z.
Variable k : A → Z.

(** The records on which the key is defined, with value [k]. *)
Local Abbreviation has_key := (λ x, key x = Return (k x)).

Lemma bubble_step_checked_pure (data : list A) (j : nat) :
Forall has_key data → (S j < length data)%nat →
bubble_step_checked key data j = Return (bubble_step k data j).
Proof.
intros Hall Hj. unfold bubble_step_checked, bubble_step.
destruct (lookup_lt_is_Some_2 data j ltac:(lia)) as [a Ha].
destruct (lookup_lt_is_Some_2 data (S j) ltac:(lia)) as [b Hb].
rewrite Ha, Hb. rewrite Forall_forall in Hall.
rewrite (Hall a), (Hall b) by by eapply list_elem_of_lookup_2.
unfold mbind, outcome_mbind. simpl. by case_bool_decide.
Qed.

Lemma bubble_steps_checked_pure (data : list A) (js : list nat) :
Forall has_key data → Forall (λ j, S j < length data)%nat js →
foldl (λ data j, data ← data; bubble_step_checked key data j) (Return data) js =
Return (foldl (bubble_step k) data js).
Proof.
revert data. induction js as [|j js IH]; intros data Hall Hjs; [done|].
apply Forall_cons in Hjs as [Hj Hjs].
rewrite foldl_return_cons, bubble_step_checked_pure by done. simpl.
pose proof (bubble_step_perm k data j) as Hperm.
apply IH.
- by rewrite Hperm.
- by rewrite (Permutation_length Hperm).
Qed.

Lemma bubble_passes_checked_pure (n : nat) (data : list A) (passes : list nat) :
Forall has_key data → length data = n →
foldl (λ data i, data ← data; bubble_pass_checked key n data i) (Return data) passes =
Return (foldl (bubble_pass k n) data passes).
Proof.
revert data. induction passes as [|i passes IH]; intros data Hall Hn; [done|].
rewrite foldl_return_cons. unfold bubble_pass_checked at 2.
rewrite bubble_steps_checked_pure; [|done|].
- pose proof (bubble_pass_perm k n data i) as Hperm. simpl.
  apply IH; [by rewrite Hperm|by rewrite (Permutation_length Hperm)].
- apply Forall_forall. intros j Hj%elem_of_seq. lia.
Qed.

Lemma bubble_sort_checked_pure (data : list A) :
Forall has_key data → bubble_sort_checked key data = Return (bubble_sort k data).
Proof. intros Hall. by apply bubble_passes_checked_pure. Qed.

Lemma bubble_sort_checked_small (data : list A) :
(length data ≤ 1)%nat → bubble_sort_checked key data = Return data.
Proof.
intros Hlen. destruct data as [|x [|y data]]; [done| |simpl in Hlen; lia].
reflexivity.
Qed.

(** In one pass every item of the block the pass runs over is looked at. *)
Lemma bubble_steps_raise (data : list A) (a n : nat) :
(∀ x e, key x = Raise e → e = IndexError) →
(0 < n)%nat → (a + n < length data)%nat →
(∃ m x e, (a ≤ m ≤ a + n)%nat ∧ data !! m = Some x ∧ key x = Raise e) →
foldl (λ data j, data ← data; bubble_step_checked key data j) (Return data) (seq a n) =
Raise IndexError.
Proof.
intros Hexn. revert data a. induction n as [|n IH]; intros data a Hn Hlen Hbad; [lia|].
cbn [seq]. rewrite foldl_return_cons. unfold bubble_step_checked.
destruct (lookup_lt_is_Some_2 data a ltac:(lia)) as [xa Ha].
destruct (lookup_lt_is_Some_2 data (S a) ltac:(lia)) as [xb Hb].
rewrite Ha, Hb. unfold mbind, outcome_mbind.
destruct (key xa) as [ka|e] eqn:Hka; simpl;
  [|rewrite (Hexn _ _ Hka); apply foldl_raise].
destruct (key xb) as [kb|e] eqn:Hkb; simpl;
  [|rewrite (Hexn _ _ Hkb); apply foldl_raise].
destruct Hbad as (m & x & e & Hm & Hx & Hkx).
assert (Hm' : (S (S a) ≤ m)%nat).
{ destruct (decide (m = a)) as [->|]; [simplify_eq; congruence|].
  destruct (decide (m = S a)) as [->|]; [simplify_eq; congruence|]. lia. }
apply (IH _ (S a)).
- lia.
- case_bool_decide; rewrite ?length_insert; lia.
- exists m, x, e. split; [lia|]. split; [|done].
  case_bool_decide; [|done]. rewrite !list_lookup_insert_ne by lia. done.
Qed.

Lemma bubble_sort_checked_raises (data : list A) :
(∀ x e, key x = Raise e → e = IndexError) →
(2 ≤ length data)%nat → (∃ x e, x ∈ data ∧ key x = Raise e) →
bubble_sort_checked key data = Raise IndexError.
Proof.
intros Hexn Hlen (x & e & Hx & Hkx). unfold bubble_sort_checked.
destruct (length data) as [|n] eqn:Hn; [lia|]. cbn [seq].
rewrite foldl_return_cons. unfold bubble_pass_checked at 2.
rewrite (bubble_steps_raise data 0); [apply foldl_raise|done|lia|lia|].
apply list_elem_of_lookup_1 in Hx as [m Hm]. exists m, x, e.
split; [|done]. apply lookup_lt_Some in Hm. lia.
Qed.
End CheckedSortingFacts.

Section CheckedMergeFacts.
Context {A : Type}.
Variable key : A → outcome Z.
Variable k : A → Z.

Local Abbreviation has_key := (λ x, key x = Return (k x)).

Lemma merge_checked_cons (x y : A) (l r : list A) :
merge_checked key (x :: l) (y :: r) =
key_x ← key x;
key_y ← key y;
if bool_decide (key_x < key_y)
then rest ← merge_checked key l (y :: r); Return (x :: rest)
else rest ← merge_checked key (x :: l) r; Return (y :: rest).
Proof. reflexivity. Qed.

Lemma merge_checked_nil_l (r : list A) : merge_checked key [] r = Return r.
Proof. by destruct r. Qed.

Lemma merge_checked_nil_r (l : list A) : merge_checked key l [] = Return l.
Proof. destruct l; simpl; [done|]. by rewrite app_nil_r. Qed.

Lemma merge_checked_pure (l r : list A) :
Forall has_key l → Forall has_key r →
merge_checked key l r = Return (merge k l r).
Proof.
intros Hl. revert r. induction Hl as [|x l Hx Hl IHl]; intros r Hr;
  [by rewrite merge_checked_nil_l, merge_nil_l|].
induction Hr as [|y r Hy Hr IHr]; [by rewrite merge_checked_nil_r, merge_nil_r|].
rewrite merge_checked_cons, merge_cons, Hx, Hy. unfold mbind, outcome_mbind.
cbn [outcome_bind]. case_bool_decide.
- rewrite IHl by by constructor. done.
- rewrite IHr. done.
Qed.

Lemma merge_sort_checked_pure (data : list A) :
Forall has_key data → merge_sort_checked key data = Return (merge_sort k data).
Proof.
funelim (merge_sort_checked key data); simp merge_sort; intros Hall; [done..|].
cbv zeta. unfold mbind, outcome_mbind.
repeat match goal with
       | H : Forall _ (take _ _) → _ |- _ =>
           rewrite H by by apply Forall_take; clear H
       | H : list A → Forall _ (drop _ _) → _ |- _ =>
           rewrite (H []) by by apply Forall_drop; clear H
       end.
cbn [outcome_bind]. apply merge_checked_pure.
- by rewrite merge_sort_perm; apply Forall_take.
- by rewrite merge_sort_perm; apply Forall_drop.
Qed.

Lemma merge_sort_checked_small (data : list A) :
(length data ≤ 1)%nat → merge_sort_checked key data = Return data.
Proof.
intros Hlen. destruct data as [|x [|y data]]; [by simp merge_sort_checked..|].
simpl in Hlen. lia.
Qed.
End CheckedMergeFacts.

Lemma get_key_item (key_index : nat) (r : Trip) :
  (key_index < length r)%nat → get_key key_index r = Return (item key_index r).
Proof.
  intros Hlen. unfold get_key, item.
  destruct (lookup_lt_is_Some_2 r key_index Hlen) as [z Hz].
  by rewrite Hz, (list_lookup_total_correct _ _ _ Hz).
Qed.

Lemma get_key_raises (key_index : nat) (r : Trip) (e : exn) :
  get_key key_index r = Raise e → e = IndexError ∧ (length r ≤ key_index)%nat.
Proof.
  unfold get_key. destruct (r !! key_index) eqn:Hr; [done|].
  intros [= <-]. split; [done|]. by apply lookup_ge_None.
Qed.

(** The two sorts on trip records, by cases on the records. *)
Lemma sorts_checked_cases (data : list Trip) (key_index : nat) :
  (Forall (λ r, key_index < length r)%nat data →
   bubble_sort_alg data key_index = Return (bubble_sort (item key_index) data) ∧
   merge_sort_alg data key_index = Return (merge_sort (item key_index) data)) ∧
  ((length data ≤ 1)%nat →
   bubble_sort_alg data key_index = Return data ∧
   merge_sort_alg data key_index = Return data) ∧
  ((2 ≤ length data)%nat → Exists (λ r, length r ≤ key_index)%nat data →
   bubble_sort_alg data key_index = Raise IndexError).
Proof.
  unfold bubble_sort_alg, merge_sort_alg. split; [|split].
  - intros Hall.
    assert (Hkeys : Forall (λ r, get_key key_index r = Return (item key_index r)) data).
    { eapply Forall_impl; [exact Hall|]. intros r. apply get_key_item. }
    split; [by apply bubble_sort_checked_pure|by apply merge_sort_checked_pure].
  - intros Hlen. split; [by apply bubble_sort_checked_small|by apply merge_sort_checked_small].
  - intros Hlen (r & Hr & Hshort)%Exists_exists.
    apply bubble_sort_checked_raises; [|done|].
    + intros x e He. by apply get_key_raises in He as [-> _].
    + exists r, IndexError. split; [done|]. unfold get_key.
      by rewrite lookup_ge_None_2.
Qed.

(** X29: [bubble_sort] and [merge_sort] on records that may lack the key
    field.  When every record has field [key_index], both return what the
    embedding with a total key gives.  On a list of at most one record both
    return it whatever the record, since nothing is compared.  On two or
    more records of which one has no field [key_index], [bubble_sort] raises
    [IndexError]: its first pass looks at every record. *)
Theorem bubble_sort_index_error (data : list Trip) (key_index : nat) :
  (Forall (λ r, key_index < length r)%nat data →
   bubble_sort_alg data key_index = Return (bubble_sort (item key_index) data) ∧
   merge_sort_alg data key_index = Return (merge_sort (item key_index) data)) ∧
  ((length data ≤ 1)%nat →
   bubble_sort_alg data key_index = Return data ∧
   merge_sort_alg data key_index = Return data) ∧
  ((2 ≤ length data)%nat → Exists (λ r, length r ≤ key_index)%nat data →
   bubble_sort_alg data key_index = Raise IndexError).
Proof. apply sorts_checked_cases. Qed.

Lemma bubble_sort_index_error_witness :
  bubble_sort_alg [[1; 10; 12; 30; 600]; [2; 10]] 2 = Raise IndexError.
Proof.
  apply (bubble_sort_index_error [[1; 10; 12; 30; 600]; [2; 10]] 2).
  - simpl. lia.
  - apply Exists_cons_tl, Exists_cons_hd. simpl. lia.
Defined.

(** X30: [measure_sorting_algorithms] reads the clock four times and
    returns the time between the first two readings and the time between
    the last two, when every record has a field 2 or there is at most one
    record; on two or more records of which one has no field 2 it raises the
    [IndexError] of [bubble_sort]. *)
Theorem measure_sorting_algorithms_spec (data : list Trip) (w : World) :
  (Forall (λ r, 2 < length r)%nat data ∨ (length data ≤ 1)%nat →
   ∃ w', measure_sorting_algorithms data w = Return ((lap w 0, lap w 2), w') ∧
         reads w' = (4 + reads w)%nat) ∧
  ((2 ≤ length data)%nat → Exists (λ r, length r ≤ 2)%nat data →
   measure_sorting_algorithms data w = Raise IndexError).
Proof.
  destruct (sorts_checked_cases data 2) as (Hall & Hsmall & Hraise).
  unfold measure_sorting_algorithms, bind, call, time_time, ret, lap. split.
  - intros Hcase.
    assert (∃ b m, bubble_sort_alg data 2 = Return b ∧ merge_sort_alg data 2 = Return m)
      as (b & m & Hb & Hm).
    { destruct Hcase as [Hcase|Hcase]; [apply Hall in Hcase|apply Hsmall in Hcase];
        destruct Hcase; eauto. }
    cbn [outcome_bind readings reads invocations]. rewrite Hb. cbn [outcome_bind].
    rewrite Hm. cbn [outcome_bind]. eexists. split; reflexivity.
  - intros Hlen Hshort. cbn [outcome_bind readings reads invocations].
    by rewrite (Hraise Hlen Hshort).
Qed.

Lemma measure_sorting_algorithms_spec_witness :
  ∃ w', measure_sorting_algorithms [[1; 10; 12; 30; 600]; [2; 10; 12; 25; 700]]
          {| readings := λ i, inject_Z (Z.of_nat i); reads := 0; invocations := 0 |} =
        Return ((1%Q, 1%Q), w') ∧
        reads w' = 4%nat.
Proof.
  apply (measure_sorting_algorithms_spec [[1; 10; 12; 30; 600]; [2; 10; 12; 25; 700]]
           {| readings := λ i, inject_Z (Z.of_nat i); reads := 0; invocations := 0 |}).
  left. repeat constructor; simpl; lia.
Defined.
